(** * Verification of the reading-comprehension layers (layers.py)

    A shallow embedding of the modules of
    [SubmissionFiles/code/QA_char_word_embed/layers.py] and the proofs of the
    properties its specification states about them.

    Numbers are real numbers ([R]); a tensor of rank one, two or three is a
    list, a list of lists or a list of lists of lists, outermost axis first.
    Functions of the torch library are modelled in [Module Torch] after
    their documented behaviour.  torch raises on operands whose shapes do
    not fit; the list operations below are total and the shapes are
    hypotheses of the theorems. *)

From Stdlib Require Import Reals Lra Lia List Arith Bool.
From Stdlib Require String.
Import String.StringSyntax.
From Stdlib Require Import Permutation Sorted.
Import ListNotations.

Set Implicit Arguments.

Open Scope R_scope.

(** ** Exceptions *)

Inductive exn : Type :=
| ValueError
| AttributeError
| RuntimeError
| IndexError.

Inductive result (A : Type) : Type :=
| Ok (a : A)
| Raise (e : exn).

Arguments Ok {A} a.
Arguments Raise {A} e.

Definition bind {A B : Type} (c : result A) (k : A -> result B) : result B :=
  match c with
  | Ok a => k a
  | Raise e => Raise e
  end.

Notation "x <- c ;; k" := (bind c (fun x => k))
  (at level 61, c at next level, right associativity).

Fixpoint mapM {A B : Type} (f : A -> result B) (l : list A) : result (list B) :=
  match l with
  | [] => Ok []
  | a :: l' => b <- f a ;; bs <- mapM f l' ;; Ok (b :: bs)
  end.

(** ** Tensors *)

Abbreviation vec := (list R).
Abbreviation mat := (list (list R)).
Abbreviation ten3 := (list (list (list R))).

Fixpoint map2 {A B C : Type} (f : A -> B -> C) (l : list A) (l' : list B) : list C :=
  match l, l' with
  | a :: t, b :: t' => f a b :: map2 f t t'
  | _, _ => []
  end.

Definition shape1 {A : Type} (n : nat) (v : list A) : Prop := length v = n.

Definition shape2 {A : Type} (n m : nat) (x : list (list A)) : Prop :=
  length x = n /\ Forall (shape1 m) x.

Definition shape3 {A : Type} (n m p : nat) (x : list (list (list A))) : Prop :=
  length x = n /\ Forall (shape2 m p) x.

Module Torch.

(** [x.size(1)] and [x.size(2)] of a tensor with a first element. *)
Definition size1 {A : Type} (x : list (list A)) : nat := length (hd [] x).
Definition size2 {A : Type} (x : list (list (list A))) : nat := size1 (hd [] x).

Definition Rsum (l : list R) : R := fold_right Rplus 0 l.

Definition dot (u v : vec) : R := Rsum (map2 Rmult u v).

Definition zeros (n : nat) : vec := repeat 0 n.

(** Elementwise operations on tensors of equal shape. *)
Definition map_3 {A B : Type} (f : A -> B) (x : list (list (list A))) :=
  map (map (map f)) x.

Definition map2_3 {A B C : Type} (f : A -> B -> C)
    (x : list (list (list A))) (y : list (list (list B))) :=
  map2 (map2 (map2 f)) x y.

Definition add (x y : ten3) : ten3 := map2_3 Rplus x y.
Definition mul (x y : ten3) : ten3 := map2_3 Rmult x y.

(** [1 - g]: the scalar is broadcast over the tensor. *)
Definition rsub (s : R) (x : ten3) : ten3 := map_3 (fun v => s - v) x.

Definition sigmoid (x : R) : R := 1 / (1 + exp (- x)).
Definition relu (x : R) : R := Rmax 0 x.

(** Column [k] of a matrix and [transpose] of its two axes. *)
Definition col (k : nat) (m : mat) : vec := map (fun r => nth k r 0) m.

Definition transpose (m : mat) : mat := map (fun k => col k m) (seq 0 (size1 m)).

(** [torch.matmul] of two matrices: entry (i, k) is the sum over j of
    a[i][j] * b[j][k]. *)
Definition matmul (a b : mat) : mat :=
  map (fun r => map (fun k => dot r (col k b)) (seq 0 (size1 b))) a.

(** [torch.bmm]: one matrix product per batch element. *)
Definition bmm (a b : ten3) : ten3 := map2 matmul a b.

(** [torch.cat(xs, dim=2)] of rank-3 tensors of equal leading shape. *)
Definition cat2 (x y : ten3) : ten3 := map2 (map2 (@app R)) x y.

(** [F.dropout(x, p, training)].  The call checks [p] whatever the mode;
    in training mode each entry is kept with probability [1 - p] and
    scaled by [1 / (1 - p)] ([p = 1] zeroes the tensor), otherwise the
    tensor is returned as it is.  [keep] is the random draw: whether the
    entry at an index is kept. *)
Definition draw := nat -> nat -> nat -> bool.

Definition mapi {A B : Type} (f : nat -> A -> B) (l : list A) : list B :=
  map2 f (seq 0 (length l)) l.

Definition dropout (x : ten3) (p : R) (training : bool) (keep : draw) : result ten3 :=
  if Rlt_dec p 0 then Raise ValueError
  else if Rlt_dec 1 p then Raise ValueError
  else if training then
    if Req_dec_T p 1 then Ok (map_3 (fun _ => 0) x)
    else Ok (mapi (fun b => mapi (fun i => mapi (fun k v =>
               if keep b i k then v * / (1 - p) else 0))) x)
  else Ok x.

(** [nn.Linear]: [weight] has one row per output feature; the module maps
    the last axis, [y = x W^T + b]. *)
Record Linear : Type := {
  weight : mat;
  bias : option vec
}.

Definition linear_vec (l : Linear) (x : vec) : vec :=
  let y := map (fun w => dot x w) (weight l) in
  match bias l with
  | Some b => map2 Rplus y b
  | None => y
  end.

Definition linear (l : Linear) (x : ten3) : ten3 := map (map (linear_vec l)) x.

(** An instance of [nn.Linear(n_in, n_out)]. *)
Definition Linear_wf (n_in n_out : nat) (has_bias : bool) (l : Linear) : Prop :=
  shape2 n_out n_in (weight l) /\
  match bias l with
  | Some b => has_bias = true /\ shape1 n_out b
  | None => has_bias = false
  end.

(** [nn.Embedding]: row [i] of the table for index [i]; an index outside
    the table raises. *)
Definition embedding_row (table : mat) (i : nat) : result vec :=
  match nth_error table i with
  | Some v => Ok v
  | None => Raise IndexError
  end.

Definition embedding2 (table : mat) (x : list (list nat)) : result ten3 :=
  mapM (mapM (embedding_row table)) x.

End Torch.

(** ** HighwayEncoder *)

Module HighwayEncoder.

Record t : Type := {
  transforms : list Torch.Linear;
  gates : list Torch.Linear
}.

(** An instance built by [HighwayEncoder(num_layers, hidden_size)]. *)
Definition wf (num_layers hidden_size : nat) (m : t) : Prop :=
  length (transforms m) = num_layers /\
  length (gates m) = num_layers /\
  Forall (Torch.Linear_wf hidden_size hidden_size true) (transforms m) /\
  Forall (Torch.Linear_wf hidden_size hidden_size true) (gates m).

(** The body of the loop. *)
Definition step (x : ten3) (gt : Torch.Linear * Torch.Linear) : ten3 :=
  let (gate, transform) := gt in
  let g := Torch.map_3 Torch.sigmoid (Torch.linear gate x) in
  let t := Torch.map_3 Torch.relu (Torch.linear transform x) in
  Torch.add (Torch.mul g t) (Torch.mul (Torch.rsub 1 g) x).

Definition forward (m : t) (x : ten3) : ten3 :=
  fold_left step (combine (gates m) (transforms m)) x.

End HighwayEncoder.

(** ** Views *)

Module View.

(** [l] cut into [k] consecutive pieces of [n] elements. *)
Definition chunk {A : Type} (n k : nat) (l : list A) : list (list A) :=
  map (fun i => firstn n (skipn (i * n) l)) (seq 0 k).

Definition flatten3 {A : Type} (x : list (list (list A))) : list A :=
  concat (concat x).

(** [x.view(-1, w)] of a rank-3 tensor. *)
Definition view_rows {A : Type} (w : nat) (x : list (list (list A)))
    : result (list (list A)) :=
  let flat := flatten3 x in
  if (w =? 0)%nat then Raise RuntimeError
  else if (length flat mod w =? 0)%nat then Ok (chunk w (length flat / w) flat)
  else Raise RuntimeError.

(** [x.view(-1, n, w)] of a rank-2 tensor. *)
Definition view_batches {A : Type} (n w : nat) (x : list (list A))
    : result (list (list (list A))) :=
  let flat := concat x in
  if (n * w =? 0)%nat then Raise RuntimeError
  else if (length flat mod (n * w) =? 0)%nat
  then Ok (map (chunk w n) (chunk (n * w) (length flat / (n * w)) flat))
  else Raise RuntimeError.

(** [x.view(d0, d1, d2)] of a rank-2 tensor. *)
Definition view3 {A : Type} (d0 d1 d2 : nat) (x : list (list A))
    : result (list (list (list A))) :=
  let flat := concat x in
  if (length flat =? d0 * d1 * d2)%nat
  then Ok (map (chunk d2 d1) (chunk (d1 * d2) d0 flat))
  else Raise RuntimeError.

End View.

(** ** CNN *)

Module Conv1d.

(** [nn.Conv1d(in_channels, out_channels, kernel_size, bias=True)]:
    [weight] is (out_channels, in_channels, kernel_size). *)
Record t : Type := {
  kernel_size : nat;
  weight : ten3;
  bias : vec
}.

Definition wf (in_channels out_channels k : nat) (m : t) : Prop :=
  kernel_size m = k /\
  shape3 out_channels in_channels k (weight m) /\
  shape1 out_channels (bias m).

Definition window (t k : nat) (r : vec) : vec := firstn k (skipn t r).

(** Output of one filter at position [t] of one sample. *)
Definition at_position (k : nat) (w : mat) (b : R) (x : mat) (t : nat) : R :=
  b + Torch.Rsum (map2 (fun wc xc => Torch.dot wc (window t k xc)) w x).

(** One sample (in_channels, W): the input must be at least as long as
    the kernel. *)
Definition forward_sample (m : t) (x : mat) : result mat :=
  let W := Torch.size1 x in
  if (W <? kernel_size m)%nat then Raise RuntimeError
  else Ok (map2 (fun w b => map (at_position (kernel_size m) w b x)
                                (seq 0 (W - kernel_size m + 1)))
                (weight m) (bias m)).

Definition forward (m : t) (x : ten3) : result ten3 := mapM (forward_sample m) x.

End Conv1d.

Module CNN.

Record t : Type := {
  conv1D : Conv1d.t
}.

(** An instance built by [CNN(char_emb_size, f, k)]. *)
Definition wf (char_emb_size f k : nat) (m : t) : Prop :=
  Conv1d.wf char_emb_size f k (conv1D m).

(** The values of [torch.max(x, dim)] along a non-empty axis. *)
Definition max_values (l : vec) : result R :=
  match l with
  | [] => Raise IndexError
  | a :: l' => Ok (fold_left Rmax l' a)
  end.

Definition max_dim2 (x : ten3) : result mat := mapM (mapM max_values) x.

Definition forward (m : t) (X_reshaped : ten3) : result mat :=
  X_conv <- Conv1d.forward (conv1D m) X_reshaped ;;
  max_dim2 (Torch.map_3 Torch.relu X_conv).

End CNN.

(** ** Embedding layers *)

Module Embedding.

Record t : Type := {
  drop_prob : R;
  training : bool;
  embed : mat;
  proj : Torch.Linear;
  hwy : HighwayEncoder.t
}.

Definition wf (word_vectors : mat) (hidden_size : nat) (p : R) (m : t) : Prop :=
  drop_prob m = p /\
  embed m = word_vectors /\
  Torch.Linear_wf (Torch.size1 word_vectors) hidden_size false (proj m) /\
  HighwayEncoder.wf 2 hidden_size (hwy m).

Definition forward (m : t) (keep : Torch.draw) (x : list (list nat)) : result ten3 :=
  emb <- Torch.embedding2 (embed m) x ;;
  emb <- Torch.dropout emb (drop_prob m) (training m) keep ;;
  let emb := Torch.linear (proj m) emb in
  let emb := HighwayEncoder.forward (hwy m) emb in
  Ok emb.

End Embedding.

Module EmbeddingChar.

Record t : Type := {
  drop_prob : R;
  training : bool;
  word_emb_size : nat;
  embed : mat;
  char_emb_size : nat;
  char_embed : mat;
  cnn : CNN.t;
  proj : Torch.Linear;
  hwy : HighwayEncoder.t
}.

(** An instance built by
    [EmbeddingChar(word_vectors, char_vectors, hidden_size, drop_prob)]. *)
Definition wf (word_vectors char_vectors : mat) (hidden_size : nat) (p : R)
    (m : t) : Prop :=
  drop_prob m = p /\
  word_emb_size m = Torch.size1 word_vectors /\
  embed m = word_vectors /\
  char_emb_size m = Torch.size1 char_vectors /\
  char_embed m = char_vectors /\
  (let n_filters := word_emb_size m in
   let kernel_size := 5%nat in
   CNN.wf (char_emb_size m) n_filters kernel_size (cnn m)) /\
  Torch.Linear_wf (2 * word_emb_size m) hidden_size false (proj m) /\
  HighwayEncoder.wf 2 hidden_size (hwy m).

Definition forward (m : t) (keep : Torch.draw)
    (x_word : list (list nat)) (x_char : list (list (list nat))) : result ten3 :=
  let seq_len := Torch.size1 x_char in
  let max_word_len := Torch.size2 x_char in
  x_char <- View.view_rows max_word_len x_char ;;
  emb_char <- Torch.embedding2 (char_embed m) x_char ;;
  let emb_char := map Torch.transpose emb_char in
  emb_char <- CNN.forward (cnn m) emb_char ;;
  emb_char <- View.view_batches seq_len (word_emb_size m) emb_char ;;
  emb_word <- Torch.embedding2 (embed m) x_word ;;
  let emb := Torch.cat2 emb_word emb_char in
  emb <- Torch.dropout emb (drop_prob m) (training m) keep ;;
  let emb := Torch.linear (proj m) emb in
  let emb := HighwayEncoder.forward (hwy m) emb in
  Ok emb.

End EmbeddingChar.

Module Embedding_Char.

Record t : Type := {
  drop_prob : R;
  training : bool;
  word_emb_size : nat;
  embed : mat;
  char_emb_size : nat;
  char_embed : mat;
  cnn : CNN.t;
  proj : Torch.Linear;
  hwy : HighwayEncoder.t
}.

(** An instance built by
    [Embedding_Char(word_vectors, char_vectors, hidden_size, drop_prob)]. *)
Definition wf (word_vectors char_vectors : mat) (hidden_size : nat) (p : R)
    (m : t) : Prop :=
  drop_prob m = p /\
  word_emb_size m = Torch.size1 word_vectors /\
  embed m = word_vectors /\
  char_emb_size m = Torch.size1 char_vectors /\
  char_embed m = char_vectors /\
  (let n_filters := word_emb_size m in
   let kernel_size := 5%nat in
   CNN.wf (char_emb_size m) n_filters kernel_size (cnn m)) /\
  Torch.Linear_wf (2 * word_emb_size m) hidden_size false (proj m) /\
  HighwayEncoder.wf 2 hidden_size (hwy m).

Definition forward (m : t) (keep : Torch.draw)
    (x_word : list (list nat)) (x_char : list (list (list nat))) : result ten3 :=
  let seq_len := Torch.size1 x_char in
  let max_word_len := Torch.size2 x_char in
  x_char <- View.view_rows max_word_len x_char ;;
  emb_char <- Torch.embedding2 (char_embed m) x_char ;;
  let emb_char := map Torch.transpose emb_char in
  emb_char <- CNN.forward (cnn m) emb_char ;;
  emb_char <- View.view_batches seq_len (word_emb_size m) emb_char ;;
  emb_word <- Torch.embedding2 (embed m) x_word ;;
  let emb := Torch.cat2 emb_word emb_char in
  emb <- Torch.dropout emb (drop_prob m) (training m) keep ;;
  let emb := Torch.linear (proj m) emb in
  let emb := HighwayEncoder.forward (hwy m) emb in
  Ok emb.

End Embedding_Char.

(** ** RNNEncoder *)

Module RNNEncoder.

(** [torch.nn.utils.rnn.PackedSequence]: the rows of all sequences, time
    step by time step, and the number of sequences alive at each step. *)
Record PackedSequence : Type := {
  data : mat;
  batch_sizes : list nat
}.

(** A recurrent module maps a packed sequence to a packed sequence (its
    final state is dropped by [forward]).  It is a function of its input:
    the dropout the library's cells apply between their layers, in training
    mode and for more than one layer, is not modelled. *)
Definition rnn_module : Type := PackedSequence -> result PackedSequence.

Record t : Type := {
  drop_prob : R;
  training : bool;
  rnn : option rnn_module
}.

Section Init.

(** The cell constructors: [nn.LSTM], [nn.RNN] and [nn.GRU] of the
    library (called with [batch_first=True, bidirectional=True]) and
    [urnn.EURNNCell], [goru.GORUCell] (called with [capacity=2]), whose
    modules are not part of the file. *)
Variables nn_LSTM nn_RNN nn_GRU : nat -> nat -> nat -> R -> result rnn_module.
Variables EURNNCell GORUCell : nat -> nat -> nat -> result rnn_module.

Definition __init__ (input_size hidden_size num_layers : nat)
    (rnn_type : String.string) (drop_prob : R) : result t :=
  let new (cell : result rnn_module) :=
    c <- cell ;; Ok {| drop_prob := drop_prob; training := true; rnn := Some c |} in
  if String.eqb rnn_type "LSTM" then
    new (nn_LSTM input_size hidden_size num_layers
                 (if (1 <? num_layers)%nat then drop_prob else 0))
  else if String.eqb rnn_type "RNN" then
    new (nn_RNN input_size hidden_size num_layers
                (if (1 <? num_layers)%nat then drop_prob else 0))
  else if String.eqb rnn_type "GRU" then
    new (nn_GRU input_size hidden_size num_layers
                (if (1 <? num_layers)%nat then drop_prob else 0))
  else if String.eqb rnn_type "URNN" then
    new (EURNNCell input_size hidden_size 2%nat)
  else if String.eqb rnn_type "GORU" then
    new (GORUCell input_size hidden_size 2%nat)
  else Ok {| drop_prob := drop_prob; training := true; rnn := None |}.

End Init.

(** [module.eval()] and [module.train()]. *)
Definition eval (m : t) : t :=
  {| drop_prob := drop_prob m; training := false; rnn := rnn m |}.

Definition train (m : t) : t :=
  {| drop_prob := drop_prob m; training := true; rnn := rnn m |}.

(** [x[idx]]: the rows of [x] at the indices [idx]. *)
Definition index_select {A : Type} (d : A) (x : list A) (idx : list nat) : list A :=
  map (fun i => nth i x d) idx.

(** Number of sequences longer than [t]. *)
Definition batch_size_at (lengths : list nat) (t : nat) : nat :=
  length (filter (fun l => (t <? l)%nat) lengths).

Fixpoint sorted_desc (l : list nat) : bool :=
  match l with
  | [] => true
  | a :: l' => match l' with
               | [] => true
               | b :: _ => (b <=? a)%nat && sorted_desc l'
               end
  end.

(** [pack_padded_sequence(x, lengths, batch_first=True)]: [lengths] must
    come in decreasing order and be positive. *)
Definition pack_padded_sequence (x : ten3) (lengths : list nat)
    : result PackedSequence :=
  match x with
  | [] => Raise RuntimeError
  | _ =>
    if negb (length lengths =? length x)%nat then Raise RuntimeError
    else if existsb (fun l => (l =? 0)%nat) lengths then Raise RuntimeError
    else if negb (sorted_desc lengths) then Raise RuntimeError
    else if (Torch.size1 x <? hd 0%nat lengths)%nat then Raise RuntimeError
    else
      let steps := seq 0 (hd 0%nat lengths) in
      Ok {| data := flat_map (fun t => map (fun xb => nth t xb [])
                                 (firstn (batch_size_at lengths t) x)) steps;
            batch_sizes := map (batch_size_at lengths) steps |}
  end.

(** Index in [data] of the first row of time step [t]. *)
Definition offset (bs : list nat) (t : nat) : nat := list_sum (firstn t bs).

(** [pad_packed_sequence(p, batch_first=True, total_length=n)]. *)
Definition pad_packed_sequence (p : PackedSequence) (total_length : nat)
    : result ten3 :=
  let bs := batch_sizes p in
  let width := Torch.size1 (data p) in
  if (total_length <? length bs)%nat then Raise ValueError
  else Ok (map (fun b => map (fun t =>
                   if (b <? nth t bs 0%nat)%nat
                   then nth (offset bs t + b) (data p) (Torch.zeros width)
                   else Torch.zeros width)
                 (seq 0 total_length))
               (seq 0 (hd 0%nat bs))).

Section Forward.

(** [torch.sort] of a rank-1 integer tensor: [sort descending l] is the
    pair of the sorted values and of the indices they come from.  The
    order among equal values is not fixed by the library. *)
Variable sort : bool -> list nat -> list nat * list nat.

Definition forward (m : t) (keep : Torch.draw) (x : ten3) (lengths : list nat)
    : result ten3 :=
  let orig_len := Torch.size1 x in
  let (lengths, sort_idx) := sort true lengths in
  let x := index_select [] x sort_idx in
  x <- pack_padded_sequence x lengths ;;
  match rnn m with
  | None => Raise AttributeError
  | Some cell =>
    x <- cell x ;;
    x <- pad_packed_sequence x orig_len ;;
    let (_, unsort_idx) := sort false sort_idx in
    let x := index_select [] x unsort_idx in
    x <- Torch.dropout x (drop_prob m) (training m) keep ;;
    Ok x
  end.

End Forward.

End RNNEncoder.

(** ** util.masked_softmax *)

Module Util.

(** The value of a floating-point division: a number, or one of the two
    values a division by zero produces. *)
Inductive fval : Type :=
| Fin (r : R)
| NaN
| Inf.

Definition fdiv (a b : R) : fval :=
  if Req_dec_T b 0 then (if Req_dec_T a 0 then NaN else Inf) else Fin (a / b).

Definition value (v : fval) : R :=
  match v with
  | Fin r => r
  | _ => 0
  end.

Definition is_finite (v : fval) : Prop :=
  match v with
  | Fin _ => True
  | _ => False
  end.

(** Modelled from the spec: [masked_softmax] of [util.py], which is not
    part of the file, on one row.  The softmax normalisation is restricted
    to the valid positions; an invalid position receives exactly zero
    mass whatever its score; a row without a valid position is the zero
    vector. *)
Definition masked_softmax_row (logits : vec) (mask : list bool) : list fval :=
  let e := map2 (fun x (valid : bool) => if valid then exp x else 0) logits mask in
  if existsb (fun valid : bool => valid) mask
  then map (fun ei => fdiv ei (Torch.Rsum e)) e
  else map (fun _ => Fin 0) e.

(** The axis of a rank-3 tensor a call normalises over. *)
Inductive axis : Type :=
| Dim1
| Dim2.

(** An axis of length one of the mask is broadcast. *)
Definition bnth {A : Type} (d : A) (i : nat) (l : list A) : A :=
  match l with
  | [a] => a
  | _ => nth i l d
  end.

Definition expand_as (mask : list (list (list bool))) (x : ten3)
    : list (list (list bool)) :=
  Torch.mapi (fun b => Torch.mapi (fun i => Torch.mapi (fun j (_ : R) =>
    bnth false j (bnth [] i (bnth [] b mask))))) x.

(** Modelled from the spec: [masked_softmax(logits, mask, dim)] on a
    rank-3 tensor and a mask that broadcasts to its shape, normalising
    each line along [dim]. *)
Definition masked_softmax (logits : ten3) (mask : list (list (list bool)))
    (dim : axis) : list (list (list fval)) :=
  let mask := expand_as mask logits in
  match dim with
  | Dim2 => map2 (map2 masked_softmax_row) logits mask
  | Dim1 =>
    map2 (fun xb mb =>
            Torch.mapi (fun i => Torch.mapi (fun j (_ : R) =>
              nth i (masked_softmax_row (Torch.col j xb)
                                        (map (fun r => nth j r false) mb))
                    (Fin 0))) xb)
         logits mask
  end.

(** A log-probability: the logarithm of a positive mass, or the sentinel
    of a position without mass, which has no real logarithm. *)
Inductive lval : Type :=
| LogP (r : R)
| ZeroMass
| LNaN.

Definition flog (v : fval) : lval :=
  match v with
  | Fin p => if Rlt_dec 0 p then LogP (ln p)
             else if Req_dec_T p 0 then ZeroMass else LNaN
  | _ => LNaN
  end.

(** The probability mass a log-probability stands for. *)
Definition mass (l : lval) : R :=
  match l with
  | LogP r => exp r
  | _ => 0
  end.

(** Modelled from the spec: [masked_softmax(logits, mask,
    log_softmax=True)] on a rank-2 tensor and a mask of its shape: the
    logarithm of the masked distribution of each row. *)
Definition masked_log_softmax (logits : mat) (mask : list (list bool))
    : list (list lval) :=
  map2 (fun l m => map flog (masked_softmax_row l m)) logits mask.

End Util.

(** ** BiDAFAttention *)

Module BiDAFAttention.

Record t : Type := {
  drop_prob : R;
  training : bool;
  c_weight : mat;
  q_weight : mat;
  cq_weight : ten3;
  bias : vec
}.

(** An instance built by [BiDAFAttention(hidden_size, drop_prob)]. *)
Definition wf (hidden_size : nat) (m : t) : Prop :=
  shape2 hidden_size 1 (c_weight m) /\
  shape2 hidden_size 1 (q_weight m) /\
  shape3 1 1 hidden_size (cq_weight m) /\
  shape1 1 (bias m).

(** [torch.matmul] of a rank-3 tensor and a matrix. *)
Definition matmul3 (x : ten3) (w : mat) : ten3 := map (fun xb => Torch.matmul xb w) x.

(** [x.expand([-1, -1, n])] and [x.expand([-1, n, -1])]: an axis of
    length one is repeated [n] times. *)
Definition expand_last (n : nat) (x : ten3) : ten3 :=
  map (map (fun r => match r with [v] => repeat v n | _ => r end)) x.

Definition expand_mid (n : nat) (x : ten3) : ten3 :=
  map (fun xb => match xb with [r] => repeat r n | _ => xb end) x.

Definition transpose12 (x : ten3) : ten3 := map Torch.transpose x.

(** [c * w] for [w] of shape (1, 1, H), and [x + b] for [b] of shape (1). *)
Definition mul_broadcast (x : ten3) (w : ten3) : ten3 :=
  map (map (fun r => map2 Rmult r (hd [] (hd [] w)))) x.

Definition add_broadcast (x : ten3) (b : vec) : ten3 :=
  Torch.map_3 (fun v => v + hd 0 b) x.

Definition get_similarity_matrix (m : t) (keep_c keep_q : Torch.draw)
    (c q : ten3) : result ten3 :=
  let c_len := Torch.size1 c in
  let q_len := Torch.size1 q in
  c <- Torch.dropout c (drop_prob m) (training m) keep_c ;;
  q <- Torch.dropout q (drop_prob m) (training m) keep_q ;;
  let s0 := expand_last q_len (matmul3 c (c_weight m)) in
  let s1 := expand_mid c_len (transpose12 (matmul3 q (q_weight m))) in
  let s2 := Torch.bmm (mul_broadcast c (cq_weight m)) (transpose12 q) in
  let s := add_broadcast (Torch.add (Torch.add s0 s1) s2) (bias m) in
  Ok s.

Definition cat_dim2 (xs : list ten3) : ten3 :=
  match xs with
  | [] => []
  | x :: xs' => fold_left Torch.cat2 xs' x
  end.

Definition forward (m : t) (keep_c keep_q : Torch.draw) (c q : ten3)
    (c_mask q_mask : list (list bool)) : result ten3 :=
  let batch_size := length c in
  let c_len := Torch.size1 c in
  let q_len := Torch.size1 q in
  s <- get_similarity_matrix m keep_c keep_q c q ;;
  c_mask <- View.view3 batch_size c_len 1 c_mask ;;
  q_mask <- View.view3 batch_size 1 q_len q_mask ;;
  let s1 := Torch.map_3 Util.value (Util.masked_softmax s q_mask Util.Dim2) in
  let s2 := Torch.map_3 Util.value (Util.masked_softmax s c_mask Util.Dim1) in
  let a := Torch.bmm s1 q in
  let b := Torch.bmm (Torch.bmm s1 (transpose12 s2)) c in
  let x := cat_dim2 [c; a; Torch.mul c a; Torch.mul c b] in
  Ok x.

End BiDAFAttention.

(** ** Tensors of any rank *)

Module Dyn.

(** A tensor whose rank is not fixed by its type, as [squeeze] needs. *)
#[warnings="-register-all"]
Inductive tensor (A : Type) : Type :=
| Scalar (a : A)
| Nest (l : list (tensor A)).

Arguments Scalar {A} a.
Arguments Nest {A} l.

Definition of_vec {A : Type} (v : list A) : tensor A := Nest (map Scalar v).
Definition of_mat {A : Type} (x : list (list A)) : tensor A := Nest (map of_vec x).
Definition of_ten3 {A : Type} (x : list (list (list A))) : tensor A :=
  Nest (map of_mat x).

(** The sizes of the axes, read along the first elements. *)
Fixpoint shape {A : Type} (x : tensor A) : list nat :=
  match x with
  | Scalar _ => []
  | Nest l => length l :: match l with
                          | [] => []
                          | y :: _ => shape y
                          end
  end.

(** [x.squeeze()]: every axis of length one is removed. *)
Fixpoint squeeze {A : Type} (x : tensor A) : tensor A :=
  match x with
  | Scalar a => Scalar a
  | Nest l => match l with
              | [y] => squeeze y
              | _ => Nest (map squeeze l)
              end
  end.

Fixpoint all_some {A : Type} (l : list (option A)) : option (list A) :=
  match l with
  | [] => Some []
  | Some a :: l' => match all_some l' with
                    | Some r => Some (a :: r)
                    | None => None
                    end
  | None :: _ => None
  end.

Definition as_scalar {A : Type} (x : tensor A) : option A :=
  match x with
  | Scalar a => Some a
  | Nest _ => None
  end.

Definition as_vec {A : Type} (x : tensor A) : option (list A) :=
  match x with
  | Scalar _ => None
  | Nest l => all_some (map as_scalar l)
  end.

Definition as_mat {A : Type} (x : tensor A) : option (list (list A)) :=
  match x with
  | Scalar _ => None
  | Nest l => all_some (map as_vec l)
  end.

End Dyn.

(** ** BiDAFOutput *)

Module BiDAFOutput.

Record t : Type := {
  att_linear_1 : Torch.Linear;
  mod_linear_1 : Torch.Linear;
  rnn : RNNEncoder.t;
  att_linear_2 : Torch.Linear;
  mod_linear_2 : Torch.Linear
}.

(** [mask.sum(-1)]: the number of valid positions of each row. *)
Definition mask_sum (mask : list (list bool)) : list nat :=
  map (fun r => length (filter (fun v : bool => v) r)) mask.

Definition same_shape {A B : Type} (x : list (list A)) (y : list (list B)) : bool :=
  (length x =? length y)%nat &&
  forallb (fun p => (length (fst p) =? length (snd p))%nat) (combine x y).

Section Forward.

Variable sort : bool -> list nat -> list nat * list nat.

(** What [masked_softmax] returns for logits that do not have the
    mask's shape; the specification describes no such pair. *)
Variable unspecified : Dyn.tensor R -> list (list bool) -> Dyn.tensor Util.lval.

(** [masked_softmax(logits, mask, log_softmax=True)] on the squeezed
    logits. *)
Definition masked_softmax (logits : Dyn.tensor R) (mask : list (list bool))
    : Dyn.tensor Util.lval :=
  match Dyn.as_mat logits with
  | Some x => if same_shape x mask
              then Dyn.of_mat (Util.masked_log_softmax x mask)
              else unspecified logits mask
  | None => unspecified logits mask
  end.

Definition logits_1 (m : t) (att mod_ : ten3) : ten3 :=
  Torch.add (Torch.linear (att_linear_1 m) att) (Torch.linear (mod_linear_1 m) mod_).

Definition logits_2 (m : t) (att mod_2 : ten3) : ten3 :=
  Torch.add (Torch.linear (att_linear_2 m) att) (Torch.linear (mod_linear_2 m) mod_2).

Definition forward (m : t) (keep : Torch.draw) (att mod_ : ten3)
    (mask : list (list bool))
    : result (Dyn.tensor Util.lval * Dyn.tensor Util.lval) :=
  let l1 := logits_1 m att mod_ in
  mod_2 <- RNNEncoder.forward sort (rnn m) keep mod_ (mask_sum mask) ;;
  let l2 := logits_2 m att mod_2 in
  let log_p1 := masked_softmax (Dyn.squeeze (Dyn.of_ten3 l1)) mask in
  let log_p2 := masked_softmax (Dyn.squeeze (Dyn.of_ten3 l2)) mask in
  Ok (log_p1, log_p2).

End Forward.

Section Init.

Local Open Scope string_scope.

(** The constructors of the recurrent cells, as for [RNNEncoder.__init__],
    and [nn.Linear(n_in, n_out)], which draws its parameter values: the
    first argument numbers the calls. *)
Variables nn_LSTM nn_RNN nn_GRU : nat -> nat -> nat -> R -> result RNNEncoder.rnn_module.
Variables EURNNCell GORUCell : nat -> nat -> nat -> result RNNEncoder.rnn_module.
Variable nn_Linear : nat -> nat -> nat -> Torch.Linear.

Definition __init__ (hidden_size : nat) (drop_prob : R) : result t :=
  let att_linear_1 := nn_Linear 0 (8 * hidden_size) 1 in
  let mod_linear_1 := nn_Linear 1 (2 * hidden_size) 1 in
  rnn <- RNNEncoder.__init__ nn_LSTM nn_RNN nn_GRU EURNNCell GORUCell
           (2 * hidden_size) hidden_size 1 "LSTM" drop_prob ;;
  let att_linear_2 := nn_Linear 2 (8 * hidden_size) 1 in
  let mod_linear_2 := nn_Linear 3 (2 * hidden_size) 1 in
  Ok {| att_linear_1 := att_linear_1;
        mod_linear_1 := mod_linear_1;
        rnn := rnn;
        att_linear_2 := att_linear_2;
        mod_linear_2 := mod_linear_2 |}.

End Init.

End BiDAFOutput.


(** * Specification-level definitions *)

(** ** The highway layer as the specification words it *)

Module HighwaySpec.

Definition bias_at (l : Torch.Linear) (k : nat) : R :=
  match Torch.bias l with
  | Some b => nth k b 0
  | None => 0
  end.

(** Feature [k] of [linear(x)] at one position. *)
Definition affine (l : Torch.Linear) (x : vec) (k : nat) : R :=
  Torch.dot x (nth k (Torch.weight l) []) + bias_at l k.

(** [g * t + (1 - g) * x] per feature, with [g = sigmoid(gate(x))] and
    [t = relu(transform(x))]. *)
Definition layer_at (gate transform : Torch.Linear) (x : vec) (k : nat) : R :=
  let g := Torch.sigmoid (affine gate x k) in
  let t := Torch.relu (affine transform x k) in
  g * t + (1 - g) * nth k x 0.

(** The map of one layer: per position, per feature. *)
Definition layer (gate transform : Torch.Linear) (x : ten3) : ten3 :=
  map (map (fun xi => map (layer_at gate transform xi) (seq 0 (length xi)))) x.

Definition no_layer : Torch.Linear := {| Torch.weight := []; Torch.bias := None |}.

(** The composition of the first [n] layers of an encoder. *)
Fixpoint compose (n : nat) (m : HighwayEncoder.t) (x : ten3) : ten3 :=
  match n with
  | O => x
  | S k => layer (nth k (HighwayEncoder.gates m) no_layer)
                 (nth k (HighwayEncoder.transforms m) no_layer)
                 (compose k m x)
  end.

End HighwaySpec.


(** * Lemmas on lists and shapes *)

Section ListFacts.

Context {A B C : Type}.

Lemma map2_length (f : A -> B -> C) (l : list A) (l' : list B) :
  length (map2 f l l') = Nat.min (length l) (length l').
Proof.
  revert l'; induction l as [|a l IH]; intros [|b l']; simpl; auto.
Qed.

Lemma map2_nth (f : A -> B -> C) (l : list A) (l' : list B) k da db dc :
  (k < length l)%nat -> (k < length l')%nat ->
  nth k (map2 f l l') dc = f (nth k l da) (nth k l' db).
Proof.
  revert l' k; induction l as [|a l IH]; intros [|b l'] [|k]; simpl; intros; try lia; auto.
  apply IH; lia.
Qed.

Lemma map2_map_same {D : Type} (f : A -> B -> C) (g : D -> A) (h : D -> B) (l : list D) :
  map2 f (map g l) (map h l) = map (fun d => f (g d) (h d)) l.
Proof.
  induction l; simpl; congruence.
Qed.

Lemma map2_map_l {D : Type} (f : A -> B -> C) (g : D -> A) (l : list D) (l' : list B) :
  map2 f (map g l) l' = map2 (fun d b => f (g d) b) l l'.
Proof.
  revert l'; induction l; intros [|b l']; simpl; auto. now rewrite IHl.
Qed.

Lemma map2_map_r {D : Type} (f : A -> B -> C) (g : D -> B) (l : list A) (l' : list D) :
  map2 f l (map g l') = map2 (fun a d => f a (g d)) l l'.
Proof.
  revert l'; induction l; intros [|b l']; simpl; auto. now rewrite IHl.
Qed.

Lemma map2_same (f : A -> A -> C) (l : list A) :
  map2 f l l = map (fun a => f a a) l.
Proof.
  induction l; simpl; congruence.
Qed.

Lemma map2_ext_in (f g : A -> B -> C) (l : list A) (l' : list B) :
  (forall a b, In a l -> In b l' -> f a b = g a b) ->
  map2 f l l' = map2 g l l'.
Proof.
  revert l'; induction l as [|a l IH]; intros [|b l'] H; simpl; auto.
  rewrite H by (simpl; auto). rewrite IH; auto.
  intros; apply H; simpl; auto.
Qed.

End ListFacts.

Lemma map_ext_Forall {A B : Type} (P : A -> Prop) (f g : A -> B) (l : list A) :
  Forall P l -> (forall a, P a -> f a = g a) -> map f l = map g l.
Proof.
  intros H E. induction H; simpl; auto. rewrite E by assumption. congruence.
Qed.

Lemma nth_map_lt {A B : Type} (f : A -> B) (l : list A) k da db :
  (k < length l)%nat -> nth k (map f l) db = f (nth k l da).
Proof.
  intros Hk. rewrite (nth_indep _ db (f da)) by (now rewrite length_map).
  apply map_nth.
Qed.

Lemma firstn_snoc {A : Type} (l : list A) n d :
  (n < length l)%nat -> firstn (S n) l = firstn n l ++ [nth n l d].
Proof.
  revert n; induction l as [|a l IH]; intros [|n] Hn; simpl in *; try lia; auto.
  f_equal. apply IH. lia.
Qed.


Lemma shape3_map_rows {A B : Type} (n m p p' : nat) (f : list A -> list B)
    (x : list (list (list A))) :
  (forall r, shape1 p r -> shape1 p' (f r)) ->
  shape3 n m p x -> shape3 n m p' (map (map f) x).
Proof.
  intros Hf [Hn Hx]. split; [now rewrite length_map|].
  apply Forall_map. eapply Forall_impl; [|exact Hx].
  intros xb [Hm Hb]. split; [now rewrite length_map|].
  apply Forall_map. eapply Forall_impl; [|exact Hb]. auto.
Qed.

Lemma shape3_nth {A : Type} (n m p : nat) (x : list (list (list A))) b i :
  shape3 n m p x -> (b < n)%nat -> (i < m)%nat ->
  length (nth b x []) = m /\ length (nth i (nth b x []) []) = p.
Proof.
  intros [Hn Hx] Hb Hi.
  rewrite Forall_forall in Hx.
  assert (Hin : In (nth b x []) x) by (apply nth_In; lia).
  destruct (Hx _ Hin) as [Hm Hr]. split; auto.
  rewrite Forall_forall in Hr. apply Hr. apply nth_In. lia.
Qed.

(** ** HighwayEncoder *)

Lemma linear_vec_length n_in n_out hb (l : Torch.Linear) (x : vec) :
  Torch.Linear_wf n_in n_out hb l -> length (Torch.linear_vec l x) = n_out.
Proof.
  intros [[Hw _] Hb]. unfold Torch.linear_vec.
  destruct (Torch.bias l) as [b|].
  - destruct Hb as [_ Hb]. unfold shape1 in Hb.
    rewrite map2_length, length_map. lia.
  - now rewrite length_map.
Qed.

Lemma linear_vec_nth n_in n_out hb (l : Torch.Linear) (x : vec) k :
  Torch.Linear_wf n_in n_out hb l -> (k < n_out)%nat ->
  nth k (Torch.linear_vec l x) 0 = HighwaySpec.affine l x k.
Proof.
  intros [[Hw _] Hb] Hk. unfold Torch.linear_vec, HighwaySpec.affine, HighwaySpec.bias_at.
  destruct (Torch.bias l) as [b|].
  - destruct Hb as [_ Hb]. unfold shape1 in Hb.
    rewrite (map2_nth _ _ _ 0 0) by (rewrite ?length_map; lia).
    f_equal. apply nth_map_lt. lia.
  - rewrite (nth_map_lt _ _ []) by lia. lra.
Qed.

Lemma highway_row_eq H (gate transform : Torch.Linear) (xi : vec) :
  Torch.Linear_wf H H true gate -> Torch.Linear_wf H H true transform ->
  shape1 H xi ->
  map2 Rplus
    (map2 Rmult (map Torch.sigmoid (Torch.linear_vec gate xi))
                (map Torch.relu (Torch.linear_vec transform xi)))
    (map2 Rmult (map (fun v => 1 - v) (map Torch.sigmoid (Torch.linear_vec gate xi))) xi)
  = map (HighwaySpec.layer_at gate transform xi) (seq 0 (length xi)).
Proof.
  intros Hg Ht Hx. unfold shape1 in Hx.
  pose proof (linear_vec_length xi Hg) as Lg.
  pose proof (linear_vec_length xi Ht) as Lt.
  apply (nth_ext _ _ 0 0).
  - rewrite !map2_length, !length_map, length_seq. lia.
  - intros k Hk.
    rewrite !map2_length, !length_map in Hk.
    assert (Hk' : (k < H)%nat) by lia.
    rewrite (map2_nth _ _ _ 0 0) by (rewrite !map2_length, !length_map; lia).
    rewrite (map2_nth _ _ _ 0 0) by (rewrite ?length_map; lia).
    rewrite (map2_nth _ _ _ 0 0) by (rewrite ?length_map; lia).
    rewrite !(nth_map_lt _ _ 0) by (rewrite ?length_map; lia).
    rewrite (nth_map_lt _ _ 0%nat) by (rewrite length_seq; lia).
    rewrite seq_nth by lia. simpl.
    unfold HighwaySpec.layer_at.
    rewrite (linear_vec_nth xi Hg Hk'), (linear_vec_nth xi Ht Hk').
    reflexivity.
Qed.

Lemma highway_step_eq B L H (gate transform : Torch.Linear) (x : ten3) :
  Torch.Linear_wf H H true gate -> Torch.Linear_wf H H true transform ->
  shape3 B L H x ->
  HighwayEncoder.step x (gate, transform) = HighwaySpec.layer gate transform x.
Proof.
  intros Hg Ht [_ Hx]. unfold HighwayEncoder.step, HighwaySpec.layer.
  unfold Torch.add, Torch.mul, Torch.rsub, Torch.map_3, Torch.map2_3, Torch.linear.
  rewrite !map_map.
  rewrite map2_map_same, (map2_map_l _ _ _ x), map2_same, map2_map_same.
  apply map_ext_Forall with (P := shape2 L H); [exact Hx|].
  intros xb [_ Hb].
  rewrite !map_map.
  rewrite map2_map_same, (map2_map_l _ _ _ xb), map2_same, map2_map_same.
  apply map_ext_Forall with (P := shape1 H); [exact Hb|].
  intros xi Hxi. exact (highway_row_eq Hg Ht Hxi).
Qed.

Lemma highway_layer_shape B L H (gate transform : Torch.Linear) (x : ten3) :
  shape3 B L H x -> shape3 B L H (HighwaySpec.layer gate transform x).
Proof.
  apply shape3_map_rows. intros r Hr. unfold shape1 in *.
  now rewrite length_map, length_seq.
Qed.

Lemma highway_compose_shape B L H (m : HighwayEncoder.t) (x : ten3) n :
  shape3 B L H x -> shape3 B L H (HighwaySpec.compose n m x).
Proof.
  intros Hx. induction n; simpl; auto using highway_layer_shape.
Qed.

Lemma highway_prefix N H B L (m : HighwayEncoder.t) (x : ten3) n :
  HighwayEncoder.wf N H m -> shape3 B L H x -> (n <= N)%nat ->
  fold_left HighwayEncoder.step
    (firstn n (combine (HighwayEncoder.gates m) (HighwayEncoder.transforms m))) x
  = HighwaySpec.compose n m x.
Proof.
  intros (Ht & Hg & Ft & Fg) Hx. induction n as [|n IH]; intros Hn; [reflexivity|].
  set (l := combine (HighwayEncoder.gates m) (HighwayEncoder.transforms m)) in *.
  assert (Hl : length l = N) by (unfold l; rewrite length_combine; lia).
  rewrite (firstn_snoc _ (HighwaySpec.no_layer, HighwaySpec.no_layer)) by lia.
  rewrite fold_left_app, IH by lia. simpl.
  unfold l. rewrite combine_nth by lia.
  rewrite Forall_forall in Ft, Fg.
  apply highway_step_eq with (B := B) (L := L) (H := H).
  - apply Fg, nth_In; lia.
  - apply Ft, nth_In; lia.
  - now apply highway_compose_shape.
Qed.

(** C6.  For an encoder built with [N] layers of width [H] ([N] may be 0)
    and an input of shape (B, L, H), [HighwayEncoder.forward] is the
    composition of its [N] layer maps
    [x |-> g * t + (1 - g) * x], [g = sigmoid(gate(x))],
    [t = relu(transform(x))]; the shape (B, L, H) is kept after every layer
    and by the encoder; and with no layer the encoder returns every input
    unchanged. *)
Theorem highway_forward_is_composition N H B L (m : HighwayEncoder.t) (x : ten3) :
  HighwayEncoder.wf N H m -> shape3 B L H x ->
  HighwayEncoder.forward m x = HighwaySpec.compose N m x /\
  (forall n, (n <= N)%nat -> shape3 B L H (HighwaySpec.compose n m x)) /\
  shape3 B L H (HighwayEncoder.forward m x) /\
  (N = 0%nat -> forall y : ten3, HighwayEncoder.forward m y = y).
Proof.
  intros Hm Hx.
  assert (E : HighwayEncoder.forward m x = HighwaySpec.compose N m x).
  { unfold HighwayEncoder.forward.
    rewrite <- (highway_prefix (n := N) Hm Hx) by lia.
    rewrite firstn_all2; [reflexivity|].
    destruct Hm as (Ht & Hg & _). rewrite length_combine. lia. }
  repeat split.
  - exact E.
  - destruct (highway_compose_shape m n Hx) as [H1 _]. exact H1.
  - destruct (highway_compose_shape m n Hx) as [_ H2]. exact H2.
  - rewrite E. destruct (highway_compose_shape m N Hx) as [H1 _]. exact H1.
  - rewrite E. destruct (highway_compose_shape m N Hx) as [_ H2]. exact H2.
  - intros HN y. destruct Hm as (_ & Hg & _). rewrite HN in Hg.
    unfold HighwayEncoder.forward.
    destruct (HighwayEncoder.gates m); [reflexivity|simpl in Hg; discriminate].
Qed.

Definition highway_example : HighwayEncoder.t :=
  {| HighwayEncoder.transforms := [ {| Torch.weight := [[1]]; Torch.bias := Some [0] |} ];
     HighwayEncoder.gates := [ {| Torch.weight := [[0]]; Torch.bias := Some [0] |} ] |}.

Lemma highway_example_wf : HighwayEncoder.wf 1 1 highway_example.
Proof.
  unfold HighwayEncoder.wf, Torch.Linear_wf, shape2, shape1; simpl.
  repeat split; repeat constructor.
Qed.

Lemma highway_forward_is_composition_witness :
  HighwayEncoder.forward highway_example [[[2]]]
  = HighwaySpec.compose 1 highway_example [[[2]]] /\
  shape3 1 1 1 (HighwayEncoder.forward highway_example [[[2]]]).
Proof.
  assert (Hx : @shape3 R 1 1 1 [[[2]]]).
  { unfold shape3, shape2, shape1; simpl. repeat split; repeat constructor. }
  destruct (highway_forward_is_composition highway_example_wf Hx) as (E & _ & S & _).
  split; [exact E | exact S].
Defined.

(** ** CNN *)

Module CNNSpec.

(** The convolution as a double sum: filter [o] at position [t] of one
    sample [x] of [C] channels, over the [k] taps of the kernel. *)
Definition conv_at (m : Conv1d.t) (C : nat) (x : mat) (o t : nat) : R :=
  nth o (Conv1d.bias m) 0 +
  Torch.Rsum (map (fun c =>
    Torch.Rsum (map (fun j =>
      nth j (nth c (nth o (Conv1d.weight m) []) []) 0 * nth (t + j) (nth c x []) 0)
      (seq 0 (Conv1d.kernel_size m))))
    (seq 0 C)).

(** [v] is the largest of [g 0, ..., g (n - 1)]. *)
Definition is_max_over (g : nat -> R) (n : nat) (v : R) : Prop :=
  (exists t, (t < n)%nat /\ v = g t) /\ forall t, (t < n)%nat -> g t <= v.

End CNNSpec.

Lemma mapM_ok {A B : Type} (f : A -> result B) (g : A -> B) (l : list A) :
  (forall a, In a l -> f a = Ok (g a)) -> mapM f l = Ok (map g l).
Proof.
  induction l as [|a l IH]; intros H; simpl; [reflexivity|].
  rewrite H by (simpl; auto). simpl. rewrite IH by (intros; apply H; simpl; auto).
  reflexivity.
Qed.

Lemma map2_as_seq {A B C : Type} (f : A -> B -> C) (u : list A) (v : list B) n da db :
  length u = n -> length v = n ->
  map2 f u v = map (fun j => f (nth j u da) (nth j v db)) (seq 0 n).
Proof.
  intros Hu Hv.
  destruct u as [|a u].
  - simpl in Hu. subst n. reflexivity.
  - apply (nth_ext _ _ (f a db) (f da db)).
    + rewrite map2_length, length_map, length_seq. lia.
    + intros k Hk. rewrite map2_length in Hk.
      rewrite (map2_nth _ _ _ da db) by lia.
      rewrite (nth_map_lt _ _ 0%nat) by (rewrite length_seq; lia).
      rewrite seq_nth by lia. reflexivity.
Qed.

Lemma window_nth t k (r : vec) j :
  (j < k)%nat -> nth j (Conv1d.window t k r) 0 = nth (t + j) r 0.
Proof.
  intros Hj. unfold Conv1d.window. rewrite nth_firstn.
  destruct (Nat.ltb_spec j k); [|lia]. apply nth_skipn.
Qed.

Lemma window_length t k (r : vec) :
  (t + k <= length r)%nat -> length (Conv1d.window t k r) = k.
Proof.
  intros H. unfold Conv1d.window. rewrite length_firstn, length_skipn. lia.
Qed.

Lemma at_position_spec C f k W (m : Conv1d.t) (x : mat) o t :
  Conv1d.wf C f k m -> shape2 C W x -> (o < f)%nat -> (t + k <= W)%nat ->
  Conv1d.at_position (Conv1d.kernel_size m) (nth o (Conv1d.weight m) [])
                     (nth o (Conv1d.bias m) 0) x t
  = CNNSpec.conv_at m C x o t.
Proof.
  intros (Hk & Hw & Hb) [Hx Hr] Ho Ht.
  unfold Conv1d.at_position, CNNSpec.conv_at. f_equal.
  assert (Hwo : length (nth o (Conv1d.weight m) []) = C).
  { destruct Hw as [Hf Hw]. rewrite Forall_forall in Hw.
    apply (Hw (nth o (Conv1d.weight m) [])). apply nth_In. lia. }
  rewrite (map2_as_seq _ _ _ [] [] Hwo Hx). f_equal.
  apply map_ext_in. intros c Hc. apply in_seq in Hc.
  unfold Torch.dot.
  assert (Hwc : length (nth c (nth o (Conv1d.weight m) []) []) = k).
  { destruct Hw as [Hf Hw]. rewrite Forall_forall in Hw.
    destruct (Hw (nth o (Conv1d.weight m) [])) as [_ Hw'].
    - apply nth_In. lia.
    - rewrite Forall_forall in Hw'. apply Hw'. apply nth_In. lia. }
  assert (Hxc : length (nth c x []) = W).
  { rewrite Forall_forall in Hr. apply Hr. apply nth_In. lia. }
  rewrite Hk.
  assert (Hwin : length (Conv1d.window t k (nth c x [])) = k)
    by (apply window_length; lia).
  rewrite (map2_as_seq _ _ _ 0 0 Hwc Hwin).
  f_equal. apply map_ext_in. intros j Hj. apply in_seq in Hj.
  rewrite window_nth by lia. reflexivity.
Qed.

Definition max_pure (l : vec) : R :=
  match l with
  | [] => 0
  | a :: l' => fold_left Rmax l' a
  end.

Lemma fold_left_Rmax_spec (l : vec) (a : R) :
  (fold_left Rmax l a = a \/ In (fold_left Rmax l a) l) /\
  a <= fold_left Rmax l a /\
  forall u, In u l -> u <= fold_left Rmax l a.
Proof.
  revert a; induction l as [|b l IH]; intros a; simpl.
  - repeat split; auto; try lra. intros u [].
  - destruct (IH (Rmax a b)) as (H1 & H2 & H3).
    pose proof (Rmax_l a b). pose proof (Rmax_r a b).
    repeat split.
    + destruct H1 as [H1|H1]; [|auto].
      rewrite H1. unfold Rmax. destruct (Rle_dec a b); auto.
    + lra.
    + intros u [Hu|Hu]; [subst u; lra | auto].
Qed.

Lemma max_values_ok (l : vec) :
  l <> [] -> CNN.max_values l = Ok (max_pure l).
Proof.
  destruct l; [congruence | reflexivity].
Qed.

Lemma max_pure_spec (g : nat -> R) (n : nat) :
  (0 < n)%nat -> CNNSpec.is_max_over g n (max_pure (map g (seq 0 n))).
Proof.
  intros Hn. destruct n as [|n]; [lia|].
  simpl. destruct (fold_left_Rmax_spec (map g (seq 1 n)) (g 0%nat)) as (H1 & H2 & H3).
  split.
  - destruct H1 as [H1|H1].
    + exists 0%nat. split; [lia | exact H1].
    + apply in_map_iff in H1. destruct H1 as (t & E & Ht). apply in_seq in Ht.
      exists t. split; [lia | now rewrite E].
  - intros t Ht. destruct t as [|t]; [exact H2|].
    apply H3. apply in_map. apply in_seq. lia.
Qed.

Lemma is_max_over_ext (g h : nat -> R) n v :
  (forall t, (t < n)%nat -> g t = h t) ->
  CNNSpec.is_max_over g n v -> CNNSpec.is_max_over h n v.
Proof.
  intros E [[t [Ht Hv]] Hle]. split.
  - exists t. split; [exact Ht | now rewrite <- E].
  - intros u Hu. rewrite <- E by exact Hu. now apply Hle.
Qed.

Lemma shape2_size1 {A : Type} n m (x : list (list A)) :
  shape2 n m x -> (0 < n)%nat -> Torch.size1 x = m.
Proof.
  intros [Hn Hx] H0. unfold Torch.size1.
  destruct x as [|r x]; simpl in *; [lia|]. now inversion Hx.
Qed.

(** The convolution of one sample, when its length allows it. *)
Definition conv_pure (m : Conv1d.t) (W : nat) (xn : mat) : mat :=
  map2 (fun w b => map (Conv1d.at_position (Conv1d.kernel_size m) w b xn)
                       (seq 0 (W - Conv1d.kernel_size m + 1)))
       (Conv1d.weight m) (Conv1d.bias m).

Lemma conv_forward_ok C f k W b (m : Conv1d.t) (x : ten3) :
  Conv1d.wf C f k m -> shape3 b C W x -> (0 < C)%nat -> (k <= W)%nat ->
  Conv1d.forward m x = Ok (map (conv_pure m W) x).
Proof.
  intros (Hk & _) [_ Hx] HC HW. unfold Conv1d.forward.
  apply mapM_ok. intros xn Hin. rewrite Forall_forall in Hx.
  unfold Conv1d.forward_sample.
  rewrite (shape2_size1 (Hx _ Hin) HC), Hk.
  destruct (Nat.ltb_spec W k); [lia|]. unfold conv_pure. now rewrite Hk.
Qed.

Lemma cnn_forward_ok C f k W b (m : CNN.t) (x : ten3) :
  CNN.wf C f k m -> shape3 b C W x -> (0 < C)%nat -> (k <= W)%nat ->
  CNN.forward m x
  = Ok (map (fun xn => map (fun row => max_pure (map Torch.relu row))
                           (conv_pure (CNN.conv1D m) W xn)) x).
Proof.
  intros Hm Hx HC HW. unfold CNN.forward.
  rewrite (conv_forward_ok Hm Hx HC HW). simpl.
  unfold CNN.max_dim2, Torch.map_3. rewrite map_map.
  rewrite (@mapM_ok _ _ (mapM CNN.max_values) (map max_pure)).
  - rewrite map_map. f_equal. apply map_ext. intros xn. now rewrite map_map.
  - intros a Ha. apply in_map_iff in Ha. destruct Ha as (xn & <- & _).
    apply mapM_ok. intros r Hr. apply max_values_ok.
    apply in_map_iff in Hr. destruct Hr as (r0 & <- & Hr0).
    unfold conv_pure in Hr0.
    destruct Hm as (_ & [Hf _] & Hb). unfold shape1 in Hb.
    rewrite (map2_as_seq _ _ _ [] 0 Hf Hb) in Hr0.
    apply in_map_iff in Hr0. destruct Hr0 as (o & <- & _).
    rewrite Nat.add_1_r. simpl. discriminate.
Qed.

(** C7.  For a CNN built with [C] input channels, [f] filters and kernel
    width [k] and every batch of [b] words of [W >= k] character embeddings,
    [CNN.forward] returns one vector per word of width [f], whatever [W]:
    entry [o] of word [n] is the largest, over the [W - k + 1] positions, of
    the rectified convolution of filter [o].  In [EmbeddingChar] the CNN is
    built with kernel width 5 and as many filters as the word embedding is
    wide. *)
Theorem cnn_forward_width C f k W b (m : CNN.t) (x : ten3) :
  CNN.wf C f k m -> shape3 b C W x -> (0 < C)%nat -> (k <= W)%nat ->
  (exists y,
     CNN.forward m x = Ok y /\
     shape2 b f y /\
     forall n o, (n < b)%nat -> (o < f)%nat ->
       CNNSpec.is_max_over
         (fun t => Torch.relu (CNNSpec.conv_at (CNN.conv1D m) C (nth n x []) o t))
         (W - k + 1) (nth o (nth n y []) 0)) /\
  (forall word_vectors char_vectors hidden_size p e,
     EmbeddingChar.wf word_vectors char_vectors hidden_size p e ->
     CNN.wf (Torch.size1 char_vectors) (Torch.size1 word_vectors) 5 (EmbeddingChar.cnn e)).
Proof.
  intros Hm Hx HC HW. split.
  - eexists. split; [exact (cnn_forward_ok Hm Hx HC HW)|].
    pose proof Hm as (Hk & [Hf Hw] & Hb). unfold shape1 in Hb.
    destruct Hx as [Hlen Hx].
    assert (Hrow : forall xn : mat,
      map (fun row => max_pure (map Torch.relu row)) (conv_pure (CNN.conv1D m) W xn)
      = map (fun o => max_pure (map (fun t => Torch.relu
              (Conv1d.at_position (Conv1d.kernel_size (CNN.conv1D m))
                 (nth o (Conv1d.weight (CNN.conv1D m)) [])
                 (nth o (Conv1d.bias (CNN.conv1D m)) 0) xn t))
              (seq 0 (W - k + 1)))) (seq 0 f)).
    { intros xn. unfold conv_pure.
      rewrite (map2_as_seq _ _ _ [] 0 Hf Hb), map_map.
      apply map_ext. intros o. now rewrite map_map, Hk. }
    split.
    + split; [now rewrite length_map|].
      apply Forall_map, Forall_forall. intros xn _.
      unfold shape1. now rewrite Hrow, length_map, length_seq.
    + intros n o Hn Ho.
      rewrite (nth_map_lt _ _ []) by lia.
      rewrite Hrow, (nth_map_lt _ _ 0%nat) by (rewrite length_seq; lia).
      rewrite seq_nth by lia. simpl.
      eapply is_max_over_ext; [|apply max_pure_spec; lia].
      intros t Ht. simpl. f_equal.
      apply at_position_spec with (f := f) (W := W) (k := k); [exact Hm| |exact Ho|lia].
      rewrite Forall_forall in Hx. apply Hx. apply nth_In. lia.
  - intros wv cv hs p e (_ & Hw & _ & Hc & _ & Hcnn & _).
    simpl in Hcnn. now rewrite <- Hw, <- Hc.
Qed.

Definition cnn_example : CNN.t :=
  {| CNN.conv1D := {| Conv1d.kernel_size := 5;
                      Conv1d.weight := [[[1; 1; 1; 1; 1]]];
                      Conv1d.bias := [0] |} |}.

Lemma cnn_forward_width_witness :
  exists y, CNN.forward cnn_example [[[1; 2; 3; 4; 5; 6]]] = Ok y /\ shape2 1 1 y.
Proof.
  assert (Hm : CNN.wf 1 1 5 cnn_example).
  { unfold CNN.wf, Conv1d.wf, shape3, shape2, shape1; simpl.
    repeat split; repeat constructor. }
  assert (Hx : @shape3 R 1 1 6 [[[1; 2; 3; 4; 5; 6]]]).
  { unfold shape3, shape2, shape1; simpl. repeat split; repeat constructor. }
  destruct (@cnn_forward_width 1 1 5 6 1 cnn_example _ Hm Hx ltac:(lia) ltac:(lia))
    as [(y & E & S & _) _].
  exists y. split; [exact E | exact S].
Defined.

(** ** The two character-level embedding layers *)

(** The [Embedding_Char] module with the constructor arguments, the mode
    and the parameter values of an [EmbeddingChar] module. *)
Definition as_Embedding_Char (m : EmbeddingChar.t) : Embedding_Char.t :=
  {| Embedding_Char.drop_prob := EmbeddingChar.drop_prob m;
     Embedding_Char.training := EmbeddingChar.training m;
     Embedding_Char.word_emb_size := EmbeddingChar.word_emb_size m;
     Embedding_Char.embed := EmbeddingChar.embed m;
     Embedding_Char.char_emb_size := EmbeddingChar.char_emb_size m;
     Embedding_Char.char_embed := EmbeddingChar.char_embed m;
     Embedding_Char.cnn := EmbeddingChar.cnn m;
     Embedding_Char.proj := EmbeddingChar.proj m;
     Embedding_Char.hwy := EmbeddingChar.hwy m |}.

(** C9.  [EmbeddingChar] and [Embedding_Char] implement the same function:
    an [Embedding_Char] module with the constructor arguments and the
    parameter values of an [EmbeddingChar] module is an instance of the
    same constructor call, and on every pair of word indices and character
    indices (and, in training mode, the same dropout draw) the two
    [forward] functions return the same result. *)
Theorem embedding_char_variants_agree (m : EmbeddingChar.t) :
  (forall word_vectors char_vectors hidden_size p,
     EmbeddingChar.wf word_vectors char_vectors hidden_size p m <->
     Embedding_Char.wf word_vectors char_vectors hidden_size p (as_Embedding_Char m)) /\
  (forall keep x_word x_char,
     EmbeddingChar.forward m keep x_word x_char
     = Embedding_Char.forward (as_Embedding_Char m) keep x_word x_char).
Proof.
  split.
  - intros wv cv hs p. destruct m. unfold EmbeddingChar.wf, Embedding_Char.wf.
    simpl. tauto.
  - intros keep x_word x_char. destruct m. reflexivity.
Qed.

(** ** Inference mode *)

Lemma dropout_eval (x : ten3) (p : R) (keep : Torch.draw) :
  0 <= p <= 1 -> Torch.dropout x p false keep = Ok x.
Proof.
  intros [H0 H1]. unfold Torch.dropout.
  destruct (Rlt_dec p 0); [lra|]. destruct (Rlt_dec 1 p); [lra|]. reflexivity.
Qed.

Lemma dropout_eval_draw (x : ten3) (p : R) (keep keep' : Torch.draw) :
  Torch.dropout x p false keep = Torch.dropout x p false keep'.
Proof.
  unfold Torch.dropout.
  destruct (Rlt_dec p 0); [reflexivity|]. destruct (Rlt_dec 1 p); reflexivity.
Qed.

Lemma bind_ext {A B : Type} (c : result A) (k k' : A -> result B) :
  (forall a, k a = k' a) -> bind c k = bind c k'.
Proof.
  intros E. destruct c; simpl; auto.
Qed.

(** In training mode the result does depend on the draw. *)
Lemma dropout_training_draw :
  Torch.dropout [[[1]]] (1 / 2) true (fun _ _ _ => true)
  <> Torch.dropout [[[1]]] (1 / 2) true (fun _ _ _ => false).
Proof.
  unfold Torch.dropout.
  destruct (Rlt_dec (1 / 2) 0); [lra|]. destruct (Rlt_dec 1 (1 / 2)); [lra|].
  destruct (Req_dec_T (1 / 2) 1); [lra|].
  simpl. intros E. inversion E as [E']. lra.
Qed.

(** C8.  With the training flag false every dropout application is the
    identity (for a dropout rate in [0, 1], the rates the call accepts), and
    [forward] of [Embedding], [EmbeddingChar], [Embedding_Char] and
    [RNNEncoder], and [get_similarity_matrix] and [forward] of
    [BiDAFAttention], return the same result whatever the random draw: two
    runs on the same inputs give identical outputs. *)
Theorem inference_is_deterministic :
  (forall (x : ten3) p keep, 0 <= p <= 1 -> Torch.dropout x p false keep = Ok x) /\
  (forall m keep keep' x,
     Embedding.training m = false ->
     Embedding.forward m keep x = Embedding.forward m keep' x) /\
  (forall m keep keep' x_word x_char,
     EmbeddingChar.training m = false ->
     EmbeddingChar.forward m keep x_word x_char
     = EmbeddingChar.forward m keep' x_word x_char) /\
  (forall m keep keep' x_word x_char,
     Embedding_Char.training m = false ->
     Embedding_Char.forward m keep x_word x_char
     = Embedding_Char.forward m keep' x_word x_char) /\
  (forall sort m keep keep' x lengths,
     RNNEncoder.training m = false ->
     RNNEncoder.forward sort m keep x lengths
     = RNNEncoder.forward sort m keep' x lengths) /\
  (forall m keep_c keep_q keep_c' keep_q' c q,
     BiDAFAttention.training m = false ->
     BiDAFAttention.get_similarity_matrix m keep_c keep_q c q
     = BiDAFAttention.get_similarity_matrix m keep_c' keep_q' c q) /\
  (forall m keep_c keep_q keep_c' keep_q' c q c_mask q_mask,
     BiDAFAttention.training m = false ->
     BiDAFAttention.forward m keep_c keep_q c q c_mask q_mask
     = BiDAFAttention.forward m keep_c' keep_q' c q c_mask q_mask).
Proof.
  assert (G : forall m keep_c keep_q keep_c' keep_q' c q,
     BiDAFAttention.training m = false ->
     BiDAFAttention.get_similarity_matrix m keep_c keep_q c q
     = BiDAFAttention.get_similarity_matrix m keep_c' keep_q' c q).
  { intros m kc kq kc' kq' c q Ht. unfold BiDAFAttention.get_similarity_matrix.
    rewrite Ht. rewrite (dropout_eval_draw c _ kc kc').
    apply bind_ext. intros c'. now rewrite (dropout_eval_draw q _ kq kq'). }
  repeat split.
  - intros x p keep Hp. now apply dropout_eval.
  - intros m keep keep' x Ht. unfold Embedding.forward. rewrite Ht.
    apply bind_ext. intros emb. now rewrite (dropout_eval_draw emb _ keep keep').
  - intros m keep keep' xw xc Ht. unfold EmbeddingChar.forward. rewrite Ht.
    repeat (apply bind_ext; intros ?). reflexivity.
  - intros m keep keep' xw xc Ht. unfold Embedding_Char.forward. rewrite Ht.
    repeat (apply bind_ext; intros ?). reflexivity.
  - intros sort m keep keep' x lengths Ht. unfold RNNEncoder.forward. rewrite Ht.
    destruct (sort true lengths) as [ls sort_idx].
    apply bind_ext. intros packed.
    destruct (RNNEncoder.rnn m) as [cell|]; [|reflexivity].
    apply bind_ext. intros out. apply bind_ext. intros padded.
    destruct (sort false sort_idx) as [? unsort_idx].
    now rewrite (dropout_eval_draw _ _ keep keep').
  - exact G.
  - intros m kc kq kc' kq' c q cm qm Ht. unfold BiDAFAttention.forward.
    now rewrite (G m kc kq kc' kq' c q Ht).
Qed.

Definition embedding_example : Embedding.t :=
  {| Embedding.drop_prob := 1 / 2;
     Embedding.training := false;
     Embedding.embed := [[1]];
     Embedding.proj := {| Torch.weight := [[1]]; Torch.bias := None |};
     Embedding.hwy := highway_example |}.

Lemma inference_is_deterministic_witness :
  Embedding.forward embedding_example (fun _ _ _ => true) [[0%nat]]
  = Embedding.forward embedding_example (fun _ _ _ => false) [[0%nat]].
Proof.
  destruct inference_is_deterministic as (_ & E & _).
  apply (E embedding_example (fun _ _ _ => true) (fun _ _ _ => false) [[0%nat]]).
  reflexivity.
Defined.

(** ** Entries and shapes of rank-3 tensors *)

(** Entry (b, i, j) of a rank-3 tensor. *)
Definition entry (x : ten3) (b i j : nat) : R := nth j (nth i (nth b x []) []) 0.

Lemma shape3_intro {A : Type} n m p (x : list (list (list A))) :
  length x = n ->
  (forall xb, In xb x -> length xb = m /\ forall r, In r xb -> length r = p) ->
  shape3 n m p x.
Proof.
  intros Hn H. split; [exact Hn|].
  apply Forall_forall. intros xb Hin. destruct (H xb Hin) as [Hm Hr].
  split; [exact Hm|]. apply Forall_forall. exact Hr.
Qed.

Lemma shape3_elim {A : Type} n m p (x : list (list (list A))) :
  shape3 n m p x ->
  length x = n /\
  forall xb, In xb x -> length xb = m /\ forall r, In r xb -> length r = p.
Proof.
  intros [Hn Hx]. split; [exact Hn|]. intros xb Hin.
  rewrite Forall_forall in Hx. destruct (Hx xb Hin) as [Hm Hr].
  split; [exact Hm|]. rewrite Forall_forall in Hr. exact Hr.
Qed.

Lemma shape2_map2 {A B C : Type} n m (f : A -> B -> C)
    (x : list (list A)) (y : list (list B)) :
  shape2 n m x -> shape2 n m y -> shape2 n m (map2 (map2 f) x y).
Proof.
  intros [Hx Fx] [Hy Fy]. split; [rewrite map2_length; lia|].
  clear Hx Hy. revert y Fy. induction Fx as [|r x Hr Fx IH]; intros y Fy.
  - constructor.
  - destruct y as [|r' y]; [constructor|]. inversion Fy; subst. simpl.
    constructor; [|now apply IH]. unfold shape1 in *. rewrite map2_length. lia.
Qed.

Lemma shape3_map2_3 {A B C : Type} n m p (f : A -> B -> C)
    (x : list (list (list A))) (y : list (list (list B))) :
  shape3 n m p x -> shape3 n m p y -> shape3 n m p (Torch.map2_3 f x y).
Proof.
  intros [Hx Fx] [Hy Fy]. split; [unfold Torch.map2_3; rewrite map2_length; lia|].
  clear Hx Hy. revert y Fy. induction Fx as [|r x Hr Fx IH]; intros y Fy.
  - constructor.
  - destruct y as [|r' y]; [constructor|]. inversion Fy; subst. simpl.
    constructor; [now apply shape2_map2 | now apply IH].
Qed.

Lemma shape3_map_3 {A B : Type} n m p (f : A -> B) (x : list (list (list A))) :
  shape3 n m p x -> shape3 n m p (Torch.map_3 f x).
Proof.
  apply shape3_map_rows. intros r Hr. unfold shape1 in *. now rewrite length_map.
Qed.


Lemma map_nth_seq {A B : Type} (f : A -> B) (l : list A) d :
  map (fun k => f (nth k l d)) (seq 0 (length l)) = map f l.
Proof.
  rewrite <- (map_map (fun k => nth k l d) f). f_equal.
  apply (nth_ext _ _ d d).
  - now rewrite length_map, length_seq.
  - intros k Hk. rewrite length_map, length_seq in Hk.
    rewrite (nth_map_lt _ _ 0%nat) by (rewrite length_seq; lia).
    now rewrite seq_nth by lia.
Qed.

(** ** Matrices *)

Lemma dot_comm (u v : vec) : Torch.dot u v = Torch.dot v u.
Proof.
  unfold Torch.dot. revert v; induction u as [|a u IH]; intros [|b v]; simpl; auto.
  rewrite IH. lra.
Qed.

Lemma dot_assoc (u w v : vec) :
  Torch.dot (map2 Rmult u w) v = Torch.dot u (map2 Rmult w v).
Proof.
  unfold Torch.dot. revert w v; induction u as [|a u IH]; intros [|b w] [|c v]; simpl; auto.
  rewrite IH. lra.
Qed.

Lemma col_length k (x : mat) : length (Torch.col k x) = length x.
Proof.
  unfold Torch.col. apply length_map.
Qed.

Lemma size1_transpose n m (x : mat) :
  shape2 n m x -> (0 < n)%nat -> (0 < m)%nat -> Torch.size1 (Torch.transpose x) = n.
Proof.
  intros Hx Hn Hm. unfold Torch.transpose. rewrite (shape2_size1 Hx Hn).
  destruct m as [|m]; [lia|]. unfold Torch.size1. simpl.
  rewrite col_length. now destruct Hx.
Qed.

Lemma col_transpose n m (x : mat) j :
  shape2 n m x -> (0 < n)%nat -> (j < n)%nat ->
  Torch.col j (Torch.transpose x) = nth j x [].
Proof.
  intros Hx Hn Hj. unfold Torch.transpose. rewrite (shape2_size1 Hx Hn).
  unfold Torch.col at 1. rewrite map_map.
  destruct Hx as [Hlen Hx]. rewrite Forall_forall in Hx.
  assert (Hr : length (nth j x []) = m) by (apply Hx, nth_In; lia).
  rewrite <- Hr at 1.
  rewrite <- (map_id (nth j x [])) at 2.
  rewrite <- (map_nth_seq (fun v => v) (nth j x []) 0).
  apply map_ext. intros k. unfold Torch.col.
  now rewrite (nth_map_lt _ _ []) by lia.
Qed.

Lemma transpose_shape n m (x : mat) :
  shape2 n m x -> (0 < n)%nat -> shape2 m n (Torch.transpose x).
Proof.
  intros Hx Hn. unfold Torch.transpose. rewrite (shape2_size1 Hx Hn).
  split; [now rewrite length_map, length_seq|].
  apply Forall_map, Forall_forall. intros k _. unfold shape1.
  rewrite col_length. now destruct Hx.
Qed.

(** ** The similarity matrix *)

Module SimilaritySpec.

(** The projection vectors, the elementwise weighting vector and the
    scalar bias held by the parameters of the module. *)
Definition Wc (m : BiDAFAttention.t) : vec := Torch.col 0 (BiDAFAttention.c_weight m).
Definition Wq (m : BiDAFAttention.t) : vec := Torch.col 0 (BiDAFAttention.q_weight m).
Definition Wcq (m : BiDAFAttention.t) : vec := hd [] (hd [] (BiDAFAttention.cq_weight m)).
Definition b (m : BiDAFAttention.t) : R := hd 0 (BiDAFAttention.bias m).

(** [s(i, j) = Wc . c_i + Wq . q_j + c_i . (Wcq * q_j) + bias]. *)
Definition score (m : BiDAFAttention.t) (c_i q_j : vec) : R :=
  Torch.dot (Wc m) c_i + Torch.dot (Wq m) q_j
  + Torch.dot c_i (map2 Rmult (Wcq m) q_j) + b m.

End SimilaritySpec.

Lemma matmul_column H (x w : mat) :
  shape2 H 1 w -> (0 < H)%nat ->
  Torch.matmul x w = map (fun r => [Torch.dot r (Torch.col 0 w)]) x.
Proof.
  intros Hw HH. unfold Torch.matmul. now rewrite (shape2_size1 Hw HH).
Qed.

Lemma nth_repeat_lt {A : Type} (a d : A) n k : (k < n)%nat -> nth k (repeat a n) d = a.
Proof.
  revert k; induction n; intros [|k] Hk; simpl; try lia; auto. apply IHn. lia.
Qed.

Lemma s0_form H (c : ten3) (w : mat) n :
  shape2 H 1 w -> (0 < H)%nat ->
  BiDAFAttention.expand_last n (BiDAFAttention.matmul3 c w)
  = map (map (fun c_i => repeat (Torch.dot c_i (Torch.col 0 w)) n)) c.
Proof.
  intros Hw HH. unfold BiDAFAttention.expand_last, BiDAFAttention.matmul3.
  rewrite map_map. apply map_ext. intros cb.
  rewrite (matmul_column _ Hw HH), map_map. reflexivity.
Qed.

Lemma s1_form H B Lq (q : ten3) (w : mat) n :
  shape2 H 1 w -> (0 < H)%nat -> shape3 B Lq H q -> (0 < Lq)%nat ->
  BiDAFAttention.expand_mid n
    (BiDAFAttention.transpose12 (BiDAFAttention.matmul3 q w))
  = map (fun qb => repeat (map (fun q_j => Torch.dot q_j (Torch.col 0 w)) qb) n) q.
Proof.
  intros Hw HH [_ Hq] HL.
  unfold BiDAFAttention.expand_mid, BiDAFAttention.transpose12, BiDAFAttention.matmul3.
  rewrite !map_map. apply map_ext_Forall with (P := shape2 Lq H); [exact Hq|].
  intros qb [Hlen _]. rewrite (matmul_column _ Hw HH).
  destruct qb as [|q0 qb]; [simpl in Hlen; lia|].
  unfold Torch.transpose, Torch.size1. simpl.
  unfold Torch.col. simpl. rewrite map_map. reflexivity.
Qed.

Lemma s2_batch Lq H (cb qb : mat) (w : vec) :
  shape2 Lq H qb -> (0 < Lq)%nat -> (0 < H)%nat ->
  Torch.matmul (map (fun r => map2 Rmult r w) cb) (Torch.transpose qb)
  = map (fun c_i => map (fun q_j => Torch.dot (map2 Rmult c_i w) q_j) qb) cb.
Proof.
  intros Hq HL HH. unfold Torch.matmul.
  rewrite (size1_transpose Hq HL HH), map_map.
  apply map_ext. intros c_i.
  destruct Hq as [Hlen Hq'].
  rewrite <- Hlen at 1.
  rewrite <- (map_nth_seq (fun q_j => Torch.dot (map2 Rmult c_i w) q_j) qb []).
  apply map_ext_in. intros k Hk. apply in_seq in Hk.
  rewrite (@col_transpose Lq H) by (try split; auto; lia). reflexivity.
Qed.

Lemma s2_form B Lq H (c q : ten3) (w : ten3) :
  shape3 B Lq H q -> (0 < Lq)%nat -> (0 < H)%nat ->
  Torch.bmm (BiDAFAttention.mul_broadcast c w) (BiDAFAttention.transpose12 q)
  = map2 (fun cb qb =>
            map (fun c_i => map (fun q_j =>
                   Torch.dot (map2 Rmult c_i (hd [] (hd [] w))) q_j) qb) cb) c q.
Proof.
  intros [_ Hq] HL HH.
  unfold Torch.bmm, BiDAFAttention.mul_broadcast, BiDAFAttention.transpose12.
  rewrite map2_map_l, map2_map_r.
  apply map2_ext_in. intros cb qb _ Hin.
  rewrite Forall_forall in Hq.
  apply (@s2_batch Lq H); auto.
Qed.

Lemma map2_map2_same {A B C D E : Type} (f : C -> D -> E) (g : A -> B -> C)
    (h : A -> B -> D) (l : list A) (l' : list B) :
  map2 f (map2 g l l') (map2 h l l') = map2 (fun a b => f (g a b) (h a b)) l l'.
Proof.
  revert l'; induction l as [|a l IH]; intros [|b l']; simpl; auto. now rewrite IH.
Qed.

Lemma map_map2 {A B C D : Type} (f : C -> D) (g : A -> B -> C) (l : list A) (l' : list B) :
  map f (map2 g l l') = map2 (fun a b => f (g a b)) l l'.
Proof.
  revert l'; induction l as [|a l IH]; intros [|b l']; simpl; auto. now rewrite IH.
Qed.

Lemma map2_repeat_r {A B C : Type} (f : A -> B -> C) (l : list A) (b : B) n :
  (length l <= n)%nat -> map2 f l (repeat b n) = map (fun a => f a b) l.
Proof.
  revert n; induction l as [|a l IH]; intros [|n] Hn; simpl in *; try lia; auto.
  rewrite IH by lia. reflexivity.
Qed.

Lemma map2_repeat_l {A B C : Type} (f : A -> B -> C) (a : A) (l : list B) n :
  (length l <= n)%nat -> map2 f (repeat a n) l = map (fun b => f a b) l.
Proof.
  revert n; induction l as [|b l IH]; intros [|n] Hn; simpl in *; try lia; auto.
  rewrite IH by lia. reflexivity.
Qed.

(** The similarity matrix as the code computes it, entry by entry. *)
Definition code_score (m : BiDAFAttention.t) (c_i q_j : vec) : R :=
  Torch.dot c_i (SimilaritySpec.Wc m) + Torch.dot q_j (SimilaritySpec.Wq m)
  + Torch.dot (map2 Rmult c_i (SimilaritySpec.Wcq m)) q_j + SimilaritySpec.b m.

Definition similarity_pure (m : BiDAFAttention.t) (c q : ten3) : ten3 :=
  map2 (fun cb qb => map (fun c_i => map (fun q_j => code_score m c_i q_j) qb) cb) c q.

Lemma code_score_spec (m : BiDAFAttention.t) (c_i q_j : vec) :
  code_score m c_i q_j = SimilaritySpec.score m c_i q_j.
Proof.
  unfold code_score, SimilaritySpec.score.
  rewrite (dot_comm c_i), (dot_comm q_j), dot_assoc. reflexivity.
Qed.

Lemma similarity_sum B Lc Lq H (m : BiDAFAttention.t) (c q : ten3) :
  BiDAFAttention.wf H m -> (0 < H)%nat -> (0 < Lq)%nat ->
  shape3 B Lc H c -> shape3 B Lq H q ->
  BiDAFAttention.add_broadcast
    (Torch.add
       (Torch.add
          (BiDAFAttention.expand_last Lq
             (BiDAFAttention.matmul3 c (BiDAFAttention.c_weight m)))
          (BiDAFAttention.expand_mid Lc
             (BiDAFAttention.transpose12
                (BiDAFAttention.matmul3 q (BiDAFAttention.q_weight m)))))
       (Torch.bmm (BiDAFAttention.mul_broadcast c (BiDAFAttention.cq_weight m))
                  (BiDAFAttention.transpose12 q)))
    (BiDAFAttention.bias m)
  = similarity_pure m c q.
Proof.
  intros (Hwc & Hwq & _ & _) HH HL Hc Hq.
  rewrite (s0_form c Lq Hwc HH), (s1_form Lc Hwq HH Hq HL), (s2_form c _ Hq HL HH).
  unfold BiDAFAttention.add_broadcast, Torch.add, Torch.map_3, Torch.map2_3.
  rewrite map2_map_l, map2_map_r, map2_map2_same, map_map2.
  unfold similarity_pure.
  apply shape3_elim in Hc, Hq. destruct Hc as [_ Hc], Hq as [_ Hq].
  apply map2_ext_in. intros cb qb Hcb Hqb.
  destruct (Hc cb Hcb) as [Lcb _]. destruct (Hq qb Hqb) as [Lqb _].
  rewrite map2_repeat_r by (rewrite length_map; lia).
  rewrite map_map, map2_map_same, map_map.
  apply map_ext. intros c_i.
  rewrite map2_repeat_l by (rewrite length_map; lia).
  rewrite map_map, map2_map_same, map_map.
  apply map_ext. intros q_j. reflexivity.
Qed.

Lemma similarity_pure_shape B Lc Lq H (m : BiDAFAttention.t) (c q : ten3) :
  shape3 B Lc H c -> shape3 B Lq H q -> shape3 B Lc Lq (similarity_pure m c q).
Proof.
  intros Hc Hq. apply shape3_elim in Hc, Hq.
  destruct Hc as [Bc Hc], Hq as [Bq Hq]. unfold similarity_pure.
  apply shape3_intro; [rewrite map2_length; lia|].
  intros sb Hin.
  rewrite (map2_as_seq _ _ _ [] [] Bc Bq) in Hin.
  apply in_map_iff in Hin. destruct Hin as (b & <- & Hb). apply in_seq in Hb.
  destruct (Hc (nth b c [])) as [Lcb _]; [apply nth_In; lia|].
  destruct (Hq (nth b q [])) as [Lqb _]; [apply nth_In; lia|].
  split; [now rewrite length_map|].
  intros r Hr. apply in_map_iff in Hr. destruct Hr as (c_i & <- & _).
  now rewrite length_map.
Qed.

Lemma similarity_pure_row B Lc Lq H (m : BiDAFAttention.t) (c q : ten3) b i :
  shape3 B Lc H c -> shape3 B Lq H q -> (b < B)%nat -> (i < Lc)%nat ->
  nth i (nth b (similarity_pure m c q) []) []
  = map (fun q_j => code_score m (nth i (nth b c []) []) q_j) (nth b q []).
Proof.
  intros Hc Hq Hb Hi. unfold similarity_pure.
  destruct (shape3_nth Hc Hb Hi) as [Lcb _].
  destruct Hc as [Bc _], Hq as [Bq _].
  rewrite (map2_nth _ _ _ [] []) by lia.
  rewrite (nth_map_lt _ _ []) by lia. reflexivity.
Qed.

Lemma mapi_length {A B : Type} (f : nat -> A -> B) (l : list A) :
  length (Torch.mapi f l) = length l.
Proof.
  unfold Torch.mapi. rewrite map2_length, length_seq. lia.
Qed.

Lemma mapi_nth {A B : Type} (f : nat -> A -> B) (l : list A) k da db :
  (k < length l)%nat -> nth k (Torch.mapi f l) db = f k (nth k l da).
Proof.
  intros Hk. unfold Torch.mapi.
  rewrite (map2_nth _ _ _ 0%nat da) by (rewrite ?length_seq; lia).
  now rewrite seq_nth by lia.
Qed.

Lemma mapi_In {A B : Type} (f : nat -> A -> B) (l : list A) y :
  In y (Torch.mapi f l) -> exists k a, In a l /\ y = f k a.
Proof.
  unfold Torch.mapi. generalize (seq 0 (length l)) as s.
  induction l as [|a l IH]; intros [|k s] Hin; simpl in Hin; try contradiction.
  destruct Hin as [<-|Hin].
  - exists k, a. simpl; auto.
  - destruct (IH s Hin) as (k' & a' & Ha & E). exists k', a'. simpl; auto.
Qed.

Lemma dropout_ok n m k (x : ten3) p training keep :
  0 <= p <= 1 -> shape3 n m k x ->
  exists x', Torch.dropout x p training keep = Ok x' /\ shape3 n m k x' /\
             (training = false -> x' = x).
Proof.
  intros [H0 H1] Hx. unfold Torch.dropout.
  destruct (Rlt_dec p 0); [lra|]. destruct (Rlt_dec 1 p); [lra|].
  destruct training.
  - destruct (Req_dec_T p 1).
    + eexists. split; [reflexivity|]. split; [|discriminate].
      now apply shape3_map_3.
    + eexists. split; [reflexivity|]. split; [|discriminate].
      apply shape3_elim in Hx. destruct Hx as [Hn Hx].
      apply shape3_intro; [now rewrite mapi_length|].
      intros xb Hin. apply mapi_In in Hin. destruct Hin as (b & xb0 & Hin & ->).
      destruct (Hx _ Hin) as [Hm Hr].
      split; [now rewrite mapi_length|].
      intros r Hr'. apply mapi_In in Hr'. destruct Hr' as (i & r0 & Hin' & ->).
      rewrite mapi_length. now apply Hr.
  - exists x. auto.
Qed.

Lemma shape3_size1 {A : Type} n m p (x : list (list (list A))) :
  shape3 n m p x -> (0 < n)%nat -> Torch.size1 x = m.
Proof.
  intros [Hn Hx] H0. unfold Torch.size1.
  destruct x as [|xb x]; simpl in *; [lia|]. inversion Hx as [|? ? [Hm _] _]. exact Hm.
Qed.

Lemma shape3_nil {A : Type} m p (x : list (list (list A))) :
  shape3 0 m p x -> x = [].
Proof.
  intros [Hn _]. now destruct x.
Qed.

(** The similarity matrix of the inputs after dropout. *)
Lemma similarity_matrix_ok B Lc Lq H (m : BiDAFAttention.t) keep_c keep_q (c q : ten3) :
  BiDAFAttention.wf H m -> (0 < H)%nat -> (0 < Lq)%nat ->
  shape3 B Lc H c -> shape3 B Lq H q ->
  0 <= BiDAFAttention.drop_prob m <= 1 ->
  exists c' q',
    shape3 B Lc H c' /\ shape3 B Lq H q' /\
    (BiDAFAttention.training m = false -> c' = c /\ q' = q) /\
    BiDAFAttention.get_similarity_matrix m keep_c keep_q c q
    = Ok (similarity_pure m c' q').
Proof.
  intros Hm HH HL Hc Hq Hp. unfold BiDAFAttention.get_similarity_matrix.
  destruct (dropout_ok (BiDAFAttention.training m) keep_c Hp Hc) as (c' & Ec & Hc' & Ic).
  destruct (dropout_ok (BiDAFAttention.training m) keep_q Hp Hq) as (q' & Eq & Hq' & Iq).
  exists c', q'. split; [exact Hc'|]. split; [exact Hq'|]. split; [auto|].
  rewrite Ec. simpl. rewrite Eq. simpl. f_equal.
  destruct B as [|B].
  - rewrite (shape3_nil Hc'), (shape3_nil Hq'). reflexivity.
  - rewrite (shape3_size1 Hc), (shape3_size1 Hq) by lia.
    now apply similarity_sum with (B := S B) (H := H).
Qed.

(** C2.  In eval mode (and for a dropout rate the dropout call accepts),
    for a context [c] of shape (B, Lc, H) and a query [q] of shape
    (B, Lq, H), with [H] and [Lq] positive, [get_similarity_matrix] returns
    a tensor [s] of shape (B, Lc, Lq) whose entry (i, j) of every batch
    element is [Wc . c_i + Wq . q_j + c_i . (Wcq * q_j) + bias]. *)
Theorem similarity_matrix_is_trilinear B Lc Lq H (m : BiDAFAttention.t)
    keep_c keep_q (c q : ten3) :
  BiDAFAttention.wf H m -> (0 < H)%nat -> (0 < Lq)%nat ->
  shape3 B Lc H c -> shape3 B Lq H q ->
  BiDAFAttention.training m = false ->
  0 <= BiDAFAttention.drop_prob m <= 1 ->
  exists s,
    BiDAFAttention.get_similarity_matrix m keep_c keep_q c q = Ok s /\
    shape3 B Lc Lq s /\
    forall b i j, (b < B)%nat -> (i < Lc)%nat -> (j < Lq)%nat ->
      entry s b i j
      = SimilaritySpec.score m (nth i (nth b c []) []) (nth j (nth b q []) []).
Proof.
  intros Hm HH HL Hc Hq Ht Hp.
  destruct (similarity_matrix_ok keep_c keep_q Hm HH HL Hc Hq Hp)
    as (c' & q' & _ & _ & I & E).
  destruct (I Ht) as [-> ->].
  exists (similarity_pure m c q). split; [exact E|].
  split; [now apply similarity_pure_shape with (H := H)|].
  intros b i j Hb Hi Hj. unfold entry.
  rewrite (similarity_pure_row m Hc Hq Hb Hi).
  destruct Hq as [Bq Fq]. rewrite Forall_forall in Fq.
  destruct (Fq (nth b q [])) as [Lqb _]; [apply nth_In; lia|].
  rewrite (nth_map_lt _ _ []) by lia.
  apply code_score_spec.
Qed.

Definition attention_example : BiDAFAttention.t :=
  {| BiDAFAttention.drop_prob := 0;
     BiDAFAttention.training := false;
     BiDAFAttention.c_weight := [[1]; [0]];
     BiDAFAttention.q_weight := [[0]; [1]];
     BiDAFAttention.cq_weight := [[[1; 1]]];
     BiDAFAttention.bias := [0] |}.

Ltac shape_tac :=
  unfold BiDAFAttention.wf, shape3, shape2, shape1; simpl;
  repeat split; repeat constructor.

Lemma attention_example_wf : BiDAFAttention.wf 2 attention_example.
Proof. shape_tac. Qed.

Lemma similarity_matrix_is_trilinear_witness :
  exists s,
    BiDAFAttention.get_similarity_matrix attention_example
      (fun _ _ _ => true) (fun _ _ _ => true) [[[1; 2]; [3; 4]]] [[[5; 6]]] = Ok s /\
    shape3 1 2 1 s /\
    entry s 0 1 0
    = SimilaritySpec.score attention_example [3; 4] [5; 6].
Proof.
  assert (Hc : @shape3 R 1 2 2 [[[1; 2]; [3; 4]]]) by shape_tac.
  assert (Hq : @shape3 R 1 1 2 [[[5; 6]]]) by shape_tac.
  assert (Hp : 0 <= BiDAFAttention.drop_prob attention_example <= 1) by (simpl; lra).
  destruct (@similarity_matrix_is_trilinear 1 2 1 2 attention_example
              (fun _ _ _ => true) (fun _ _ _ => true) _ _
              attention_example_wf ltac:(lia) ltac:(lia) Hc Hq eq_refl Hp)
    as (s & E & S & V).
  exists s. split; [exact E|]. split; [exact S|].
  apply (V 0%nat 1%nat 0%nat); lia.
Defined.

(** ** Views of the masks *)

Lemma chunk_S {A : Type} n k (l : list A) :
  View.chunk n (S k) l = firstn n l :: View.chunk n k (skipn n l).
Proof.
  unfold View.chunk. rewrite <- cons_seq, <- seq_shift. simpl.
  rewrite map_map. f_equal.
  apply map_ext. intros i. rewrite skipn_skipn. f_equal. f_equal. lia.
Qed.

Lemma chunk_concat {A : Type} n k (x : list (list A)) :
  shape2 k n x -> View.chunk n k (concat x) = x.
Proof.
  revert k; induction x as [|r x IH]; intros k [Hk Hx].
  - simpl in Hk. subst k. reflexivity.
  - destruct k as [|k]; [discriminate|]. inversion Hx as [|? ? Hr Hx']; subst.
    unfold shape1 in Hr. rewrite chunk_S. simpl.
    rewrite firstn_app, Hr, Nat.sub_diag, firstn_all2 by lia. simpl.
    rewrite app_nil_r. f_equal.
    rewrite skipn_app, Hr, Nat.sub_diag, skipn_all2 by lia. simpl.
    apply IH. split; [simpl in Hk; lia | exact Hx'].
Qed.

Lemma chunk_singletons {A : Type} n (r : list A) :
  length r = n -> View.chunk 1 n r = map (fun v => [v]) r.
Proof.
  revert n; induction r as [|a r IH]; intros n Hn.
  - simpl in Hn. subst n. reflexivity.
  - destruct n as [|n]; [discriminate|]. rewrite chunk_S. simpl.
    f_equal. apply IH. simpl in Hn. lia.
Qed.

Lemma chunk_whole {A : Type} n (r : list A) :
  length r = n -> View.chunk n 1 r = [r].
Proof.
  intros Hn. unfold View.chunk. simpl. now rewrite firstn_all2 by lia.
Qed.

Lemma concat_length_shape2 {A : Type} n m (x : list (list A)) :
  shape2 n m x -> length (concat x) = (n * m)%nat.
Proof.
  revert n; induction x as [|r x IH]; intros n [Hn Hx].
  - simpl in *. subst n. reflexivity.
  - destruct n as [|n]; [discriminate|]. inversion Hx as [|? ? Hr Hx']; subst.
    unfold shape1 in Hr. simpl. rewrite length_app, Hr.
    rewrite (IH n); [lia|]. split; [simpl in Hn; lia | exact Hx'].
Qed.

Lemma view3_last {A : Type} B L (mask : list (list A)) :
  shape2 B L mask ->
  View.view3 B L 1 mask = Ok (map (map (fun v => [v])) mask).
Proof.
  intros Hm. unfold View.view3.
  rewrite (concat_length_shape2 Hm).
  replace (B * L * 1)%nat with (B * L)%nat by lia. rewrite Nat.eqb_refl.
  rewrite Nat.mul_1_r, (chunk_concat Hm). f_equal.
  destruct Hm as [_ Hm]. apply map_ext_Forall with (P := shape1 L); [exact Hm|].
  intros r Hr. now apply chunk_singletons.
Qed.

Lemma view3_mid {A : Type} B L (mask : list (list A)) :
  shape2 B L mask ->
  View.view3 B 1 L mask = Ok (map (fun r => [r]) mask).
Proof.
  intros Hm. unfold View.view3.
  rewrite (concat_length_shape2 Hm).
  replace (B * 1 * L)%nat with (B * L)%nat by lia. rewrite Nat.eqb_refl.
  rewrite Nat.mul_1_l, (chunk_concat Hm). f_equal.
  destruct Hm as [_ Hm]. apply map_ext_Forall with (P := shape1 L); [exact Hm|].
  intros r Hr. now apply chunk_whole.
Qed.

(** ** The masked softmax, line by line *)

Lemma masked_softmax_row_length (logits : vec) (mask : list bool) :
  length (Util.masked_softmax_row logits mask)
  = Nat.min (length logits) (length mask).
Proof.
  unfold Util.masked_softmax_row.
  destruct (existsb _ mask); now rewrite length_map, map2_length.
Qed.

Lemma bnth_lt {A : Type} (d : A) k (l : list A) :
  (k < length l)%nat -> Util.bnth d k l = nth k l d.
Proof.
  intros Hk. destruct l as [|a [|a' l]]; simpl in *; try reflexivity.
  destruct k; [reflexivity | lia].
Qed.

Lemma mapi_const {A B : Type} (g : nat -> B) (l : list A) (r : list B) d :
  length r = length l -> (forall j, (j < length l)%nat -> g j = nth j r d) ->
  Torch.mapi (fun j (_ : A) => g j) l = r.
Proof.
  intros Hlen Hg.
  destruct l as [|a l].
  - destruct r; [reflexivity | discriminate].
  - apply (nth_ext _ _ d d).
    + now rewrite mapi_length.
    + intros j Hj. rewrite mapi_length in Hj.
      rewrite (mapi_nth _ _ a) by lia. now apply Hg.
Qed.

(** The mask of the query, viewed as (B, 1, Lq), broadcast to the shape of
    the similarity matrix: every row of batch element [b] sees the mask of
    query [b]. *)
Lemma expand_query_mask B Lc Lq (s : ten3) (q_mask : list (list bool)) b i :
  shape3 B Lc Lq s -> shape2 B Lq q_mask -> (b < B)%nat -> (i < Lc)%nat ->
  nth i (nth b (Util.expand_as (map (fun r => [r]) q_mask) s) []) []
  = nth b q_mask [].
Proof.
  intros Hs Hm Hb Hi. destruct (shape3_nth Hs Hb Hi) as [Hsb Hsbi].
  destruct Hs as [Bs _]. destruct Hm as [Bm Fm]. rewrite Forall_forall in Fm.
  assert (Hqm : length (nth b q_mask []) = Lq) by (apply Fm, nth_In; lia).
  unfold Util.expand_as.
  rewrite (mapi_nth _ _ []) by lia. rewrite (mapi_nth _ _ []) by lia.
  apply mapi_const with (d := false); [lia|].
  intros j Hj.
  rewrite (@bnth_lt _ [] b) by (rewrite length_map; lia).
  rewrite (nth_map_lt _ _ []) by lia. simpl.
  apply bnth_lt. lia.
Qed.

(** The mask of the context, viewed as (B, Lc, 1): row [i] of batch element
    [b] sees the validity of context position [i] in every column. *)
Lemma expand_context_mask B Lc Lq (s : ten3) (c_mask : list (list bool)) b i j :
  shape3 B Lc Lq s -> shape2 B Lc c_mask ->
  (b < B)%nat -> (i < Lc)%nat -> (j < Lq)%nat ->
  nth j (nth i (nth b (Util.expand_as (map (map (fun v => [v])) c_mask) s) []) []) false
  = nth i (nth b c_mask []) false.
Proof.
  intros Hs Hm Hb Hi Hj. destruct (shape3_nth Hs Hb Hi) as [Hsb Hsbi].
  destruct Hs as [Bs _]. destruct Hm as [Bm Fm]. rewrite Forall_forall in Fm.
  assert (Hcm : length (nth b c_mask []) = Lc) by (apply Fm, nth_In; lia).
  unfold Util.expand_as.
  rewrite (mapi_nth _ _ []) by lia. rewrite (mapi_nth _ _ []) by lia.
  rewrite (mapi_nth _ _ 0) by lia.
  rewrite (@bnth_lt _ [] b) by (rewrite length_map; lia).
  rewrite (nth_map_lt _ _ []) by lia.
  rewrite (@bnth_lt _ [] i) by (rewrite length_map; lia).
  rewrite (nth_map_lt _ _ false) by lia. reflexivity.
Qed.

Lemma expand_as_shape B Lc Lq (s : ten3) (mask : list (list (list bool))) :
  shape3 B Lc Lq s -> shape3 B Lc Lq (Util.expand_as mask s).
Proof.
  intros Hs. apply shape3_elim in Hs. destruct Hs as [Hn Hx].
  unfold Util.expand_as.
  apply shape3_intro; [now rewrite mapi_length|].
  intros xb Hin. apply mapi_In in Hin. destruct Hin as (b & xb0 & Hin & ->).
  destruct (Hx _ Hin) as [Hm Hr].
  split; [now rewrite mapi_length|].
  intros r Hr'. apply mapi_In in Hr'. destruct Hr' as (i & r0 & Hin' & ->).
  rewrite mapi_length. now apply Hr.
Qed.

Lemma softmax_dim2_row B Lc Lq (s : ten3) (q_mask : list (list bool)) b i :
  shape3 B Lc Lq s -> shape2 B Lq q_mask -> (b < B)%nat -> (i < Lc)%nat ->
  nth i (nth b (Util.masked_softmax s (map (fun r => [r]) q_mask) Util.Dim2) []) []
  = Util.masked_softmax_row (nth i (nth b s []) []) (nth b q_mask []).
Proof.
  intros Hs Hm Hb Hi. unfold Util.masked_softmax.
  pose proof (expand_as_shape (map (fun r => [r]) q_mask) Hs) as He.
  destruct (shape3_nth Hs Hb Hi) as [Hsb _].
  destruct (shape3_nth He Hb Hi) as [Heb _].
  rewrite (map2_nth _ _ _ [] []) by (destruct Hs, He; lia).
  rewrite (map2_nth _ _ _ [] []) by lia.
  now rewrite (expand_query_mask Hs Hm Hb Hi).
Qed.

Lemma softmax_dim1_entry B Lc Lq (s : ten3) (c_mask : list (list bool)) b i j :
  shape3 B Lc Lq s -> shape2 B Lc c_mask ->
  (b < B)%nat -> (i < Lc)%nat -> (j < Lq)%nat ->
  nth j (nth i (nth b (Util.masked_softmax s (map (map (fun v => [v])) c_mask)
                         Util.Dim1) []) []) (Util.Fin 0)
  = nth i (Util.masked_softmax_row (Torch.col j (nth b s [])) (nth b c_mask []))
          (Util.Fin 0).
Proof.
  intros Hs Hm Hb Hi Hj. unfold Util.masked_softmax.
  pose proof (expand_as_shape (map (map (fun v => [v])) c_mask) Hs) as He.
  destruct (shape3_nth Hs Hb Hi) as [Hsb Hsbi].
  destruct (shape3_nth He Hb Hi) as [Heb _].
  rewrite (map2_nth _ _ _ [] []) by (destruct Hs, He; lia).
  rewrite (mapi_nth _ _ []) by lia. rewrite (mapi_nth _ _ 0) by lia.
  f_equal. f_equal.
  destruct Hm as [Bm Fm]. rewrite Forall_forall in Fm.
  assert (Hcm : length (nth b c_mask []) = Lc) by (apply Fm, nth_In; lia).
  apply (nth_ext _ _ false false); [rewrite length_map; lia|].
  intros k Hk. rewrite length_map in Hk.
  rewrite (nth_map_lt _ _ []) by lia.
  apply (expand_context_mask Hs (conj Bm (proj2 (Forall_forall _ _) Fm))); lia.
Qed.

Lemma softmax_shape B Lc Lq (s : ten3) (mask : list (list (list bool))) dim :
  shape3 B Lc Lq s ->
  (dim = Util.Dim2 -> forall b i, (b < B)%nat -> (i < Lc)%nat ->
     length (nth i (nth b (Util.expand_as mask s) []) []) = Lq) ->
  shape3 B Lc Lq (Util.masked_softmax s mask dim).
Proof.
  intros Hs Hd. pose proof (expand_as_shape mask Hs) as He.
  unfold Util.masked_softmax. destruct dim.
  - clear Hd. apply shape3_elim in Hs. destruct Hs as [Bs Hs].
    destruct He as [Be _].
    apply shape3_intro; [rewrite map2_length; lia|].
    intros xb Hin. rewrite (map2_as_seq _ _ _ [] [] Bs Be) in Hin.
    apply in_map_iff in Hin. destruct Hin as (b & <- & Hb). apply in_seq in Hb.
    destruct (Hs (nth b s [])) as [Hm Hr]; [apply nth_In; lia|].
    split; [now rewrite mapi_length|].
    intros r Hr'. apply mapi_In in Hr'. destruct Hr' as (i & r0 & Hin' & ->).
    rewrite mapi_length. now apply Hr.
  - pose proof Hs as Hs'. apply shape3_elim in Hs. destruct Hs as [Bs Hs].
    pose proof He as He'. destruct He as [Be _].
    apply shape3_intro; [rewrite map2_length; lia|].
    intros xb Hin. rewrite (map2_as_seq _ _ _ [] [] Bs Be) in Hin.
    apply in_map_iff in Hin. destruct Hin as (b & <- & Hb). apply in_seq in Hb.
    destruct (Hs (nth b s [])) as [Hm Hr]; [apply nth_In; lia|].
    assert (Hb' : (b < B)%nat) by lia.
    assert (Hem : length (nth b (Util.expand_as mask s) []) = Lc).
    { destruct Lc as [|Lc].
      - apply shape3_elim in He'. destruct He' as [_ He'].
        apply (He' (nth b (Util.expand_as mask s) [])). apply nth_In. lia.
      - apply (shape3_nth He' Hb' (Nat.lt_0_succ Lc)). }
    split; [rewrite map2_length; lia|].
    intros r Hr'. rewrite (map2_as_seq _ _ _ [] [] Hm Hem) in Hr'.
    apply in_map_iff in Hr'. destruct Hr' as (i & <- & Hi). apply in_seq in Hi.
    rewrite masked_softmax_row_length, (Hd eq_refl b i) by lia.
    rewrite (Hr (nth i (nth b s []) [])) by (apply nth_In; lia). lia.
Qed.

(** ** Batched matrix products *)

Lemma matmul_shape n m p (x y : mat) :
  shape2 n m x -> shape2 m p y -> (0 < m)%nat -> shape2 n p (Torch.matmul x y).
Proof.
  intros [Hn _] Hy Hm. unfold Torch.matmul. rewrite (shape2_size1 Hy Hm).
  split; [now rewrite length_map|].
  apply Forall_map, Forall_forall. intros r _. unfold shape1.
  now rewrite length_map, length_seq.
Qed.

Lemma matmul_entry n m p (x y : mat) i k :
  shape2 n m x -> shape2 m p y -> (0 < m)%nat -> (i < n)%nat -> (k < p)%nat ->
  nth k (nth i (Torch.matmul x y) []) 0
  = Torch.Rsum (map (fun j => nth j (nth i x []) 0 * nth k (nth j y []) 0) (seq 0 m)).
Proof.
  intros [Hn Hx] Hy Hm Hi Hk. unfold Torch.matmul. rewrite (shape2_size1 Hy Hm).
  rewrite (nth_map_lt _ _ []) by lia.
  rewrite (nth_map_lt _ _ 0%nat) by (rewrite length_seq; lia).
  rewrite seq_nth by lia. simpl. unfold Torch.dot.
  rewrite Forall_forall in Hx.
  assert (Hr : length (nth i x []) = m) by (apply Hx, nth_In; lia).
  destruct Hy as [Hy0 _].
  rewrite (@map2_as_seq _ _ _ Rmult _ _ m 0 0 Hr) by (rewrite col_length; lia).
  f_equal. apply map_ext_in. intros j Hj. apply in_seq in Hj.
  unfold Torch.col. now rewrite (nth_map_lt _ _ []) by lia.
Qed.

Lemma shape3_batch {A : Type} n m p (x : list (list (list A))) b :
  shape3 n m p x -> (b < n)%nat -> shape2 m p (nth b x []).
Proof.
  intros [Hn Hx] Hb. rewrite Forall_forall in Hx. apply Hx, nth_In. lia.
Qed.

Lemma shape3_of_batches {A : Type} n m p (x : list (list (list A))) :
  length x = n -> (forall b, (b < n)%nat -> shape2 m p (nth b x [])) ->
  shape3 n m p x.
Proof.
  intros Hn H. split; [exact Hn|]. apply Forall_forall. intros xb Hin.
  destruct (In_nth _ _ [] Hin) as (b & Hb & <-). apply H. lia.
Qed.

Lemma bmm_nth B n m m' p (x y : ten3) b :
  shape3 B n m x -> shape3 B m' p y -> (b < B)%nat ->
  nth b (Torch.bmm x y) [] = Torch.matmul (nth b x []) (nth b y []).
Proof.
  intros [Hx _] [Hy _] Hb. unfold Torch.bmm.
  now rewrite (map2_nth _ _ _ [] []) by lia.
Qed.

Lemma bmm_shape B n m p (x y : ten3) :
  shape3 B n m x -> shape3 B m p y -> (0 < m)%nat -> shape3 B n p (Torch.bmm x y).
Proof.
  intros Hx Hy Hm. apply shape3_of_batches.
  - destruct Hx as [Hx _], Hy as [Hy _]. unfold Torch.bmm. rewrite map2_length. lia.
  - intros b Hb. rewrite (bmm_nth Hx Hy Hb).
    apply matmul_shape with (m := m);
      [exact (shape3_batch Hx Hb) | exact (shape3_batch Hy Hb) | exact Hm].
Qed.

Lemma bmm_entry B n m p (x y : ten3) b i k :
  shape3 B n m x -> shape3 B m p y -> (0 < m)%nat ->
  (b < B)%nat -> (i < n)%nat -> (k < p)%nat ->
  entry (Torch.bmm x y) b i k
  = Torch.Rsum (map (fun j => entry x b i j * entry y b j k) (seq 0 m)).
Proof.
  intros Hx Hy Hm Hb Hi Hk. unfold entry. rewrite (bmm_nth Hx Hy Hb).
  apply matmul_entry with (n := n) (p := p);
    [exact (shape3_batch Hx Hb) | exact (shape3_batch Hy Hb) | exact Hm | exact Hi | exact Hk].
Qed.

Lemma transpose12_shape B n m (x : ten3) :
  shape3 B n m x -> (0 < n)%nat -> shape3 B m n (BiDAFAttention.transpose12 x).
Proof.
  intros Hx Hn. unfold BiDAFAttention.transpose12. apply shape3_of_batches.
  - destruct Hx as [Hx _]. now rewrite length_map.
  - intros b Hb. rewrite (nth_map_lt _ _ []) by (destruct Hx; lia).
    apply transpose_shape; [exact (shape3_batch Hx Hb) | exact Hn].
Qed.

Lemma transpose12_entry B n m (x : ten3) b i j :
  shape3 B n m x -> (0 < n)%nat -> (b < B)%nat -> (i < n)%nat -> (j < m)%nat ->
  entry (BiDAFAttention.transpose12 x) b j i = entry x b i j.
Proof.
  intros Hx Hn Hb Hi Hj. unfold entry, BiDAFAttention.transpose12.
  rewrite (nth_map_lt _ _ []) by (destruct Hx; lia).
  pose proof (shape3_batch Hx Hb) as Hxb.
  unfold Torch.transpose. rewrite (shape2_size1 Hxb Hn).
  rewrite (nth_map_lt _ _ 0%nat) by (rewrite length_seq; lia).
  rewrite seq_nth by lia. simpl. unfold Torch.col.
  rewrite (nth_map_lt _ _ []) by (destruct Hxb; lia). reflexivity.
Qed.

Lemma cat2_shape B L P P' (x y : ten3) :
  shape3 B L P x -> shape3 B L P' y -> shape3 B L (P + P') (Torch.cat2 x y).
Proof.
  intros Hx Hy. apply shape3_of_batches.
  - destruct Hx as [Hx _], Hy as [Hy _]. unfold Torch.cat2. rewrite map2_length. lia.
  - intros b Hb. unfold Torch.cat2.
    rewrite (map2_nth _ _ _ [] []) by (destruct Hx, Hy; lia).
    destruct (shape3_batch Hx Hb) as [Lx Fx]. destruct (shape3_batch Hy Hb) as [Ly Fy].
    split; [rewrite map2_length; lia|].
    rewrite (map2_as_seq _ _ _ [] [] Lx Ly).
    apply Forall_map, Forall_forall. intros i Hi. apply in_seq in Hi.
    rewrite Forall_forall in Fx, Fy. unfold shape1 in *.
    rewrite length_app, Fx, Fy by (apply nth_In; lia). reflexivity.
Qed.

Lemma cat2_row B L P P' (x y : ten3) b i :
  shape3 B L P x -> shape3 B L P' y -> (b < B)%nat -> (i < L)%nat ->
  nth i (nth b (Torch.cat2 x y) []) [] = nth i (nth b x []) [] ++ nth i (nth b y []) [].
Proof.
  intros Hx Hy Hb Hi. unfold Torch.cat2.
  destruct (shape3_batch Hx Hb) as [Lx _]. destruct (shape3_batch Hy Hb) as [Ly _].
  rewrite (map2_nth _ _ _ [] []) by (destruct Hx, Hy; lia).
  now rewrite (map2_nth _ _ _ [] []) by lia.
Qed.

Lemma mul_row B L P (x y : ten3) b i :
  shape3 B L P x -> shape3 B L P y -> (b < B)%nat -> (i < L)%nat ->
  nth i (nth b (Torch.mul x y) []) []
  = map2 Rmult (nth i (nth b x []) []) (nth i (nth b y []) []).
Proof.
  intros Hx Hy Hb Hi. unfold Torch.mul, Torch.map2_3.
  destruct (shape3_batch Hx Hb) as [Lx _]. destruct (shape3_batch Hy Hb) as [Ly _].
  rewrite (map2_nth _ _ _ [] []) by (destruct Hx, Hy; lia).
  now rewrite (map2_nth _ _ _ [] []) by lia.
Qed.

Lemma row_as_entries B L P (x : ten3) b i :
  shape3 B L P x -> (b < B)%nat -> (i < L)%nat ->
  nth i (nth b x []) [] = map (fun k => entry x b i k) (seq 0 P).
Proof.
  intros Hx Hb Hi. destruct (shape3_nth Hx Hb Hi) as [_ Hr].
  unfold entry. rewrite <- Hr.
  now rewrite (map_nth_seq (fun v => v) (nth i (nth b x []) []) 0), map_id.
Qed.

(** ** The attention layer *)

Module AttentionSpec.

(** [s1]: the similarity matrix normalised over the query axis, under the
    query mask; [s2]: normalised over the context axis, under the context
    mask. *)
Definition s1 (s : ten3) (q_mask : list (list bool)) (b i j : nat) : R :=
  Util.value (nth j (Util.masked_softmax_row (nth i (nth b s []) []) (nth b q_mask []))
                  (Util.Fin 0)).

Definition s2 (s : ten3) (c_mask : list (list bool)) (b i j : nat) : R :=
  Util.value (nth i (Util.masked_softmax_row (Torch.col j (nth b s [])) (nth b c_mask []))
                  (Util.Fin 0)).

(** Row [i] of [a = s1 x q]. *)
Definition a (s q : ten3) (q_mask : list (list bool)) (Lq H b i : nat) : vec :=
  map (fun k =>
    Torch.Rsum (map (fun j => s1 s q_mask b i j * entry q b j k) (seq 0 Lq)))
    (seq 0 H).

(** Row [i] of [b = s1 x s2^T x c]. *)
Definition b (s c : ten3) (c_mask q_mask : list (list bool)) (Lc Lq H b i : nat) : vec :=
  map (fun k =>
    Torch.Rsum (map (fun i' =>
      Torch.Rsum (map (fun j => s1 s q_mask b i j * s2 s c_mask b i' j) (seq 0 Lq))
      * entry c b i' k) (seq 0 Lc)))
    (seq 0 H).

(** [c, a, c * a, c * b] along the feature axis. *)
Definition fusion (c_i a_i b_i : vec) : vec :=
  c_i ++ a_i ++ map2 Rmult c_i a_i ++ map2 Rmult c_i b_i.

End AttentionSpec.

Lemma value_nth (l : list Util.fval) k :
  nth k (map Util.value l) 0 = Util.value (nth k l (Util.Fin 0)).
Proof.
  change 0 with (Util.value (Util.Fin 0)) at 1. apply map_nth.
Qed.

Lemma s1_entry B Lc Lq (s : ten3) (q_mask : list (list bool)) b i j :
  shape3 B Lc Lq s -> shape2 B Lq q_mask -> (b < B)%nat -> (i < Lc)%nat ->
  entry (Torch.map_3 Util.value
           (Util.masked_softmax s (map (fun r => [r]) q_mask) Util.Dim2)) b i j
  = AttentionSpec.s1 s q_mask b i j.
Proof.
  intros Hs Hm Hb Hi. unfold entry, Torch.map_3, AttentionSpec.s1.
  rewrite <- (softmax_dim2_row Hs Hm Hb Hi).
  assert (Hsh : shape3 B Lc Lq (Util.masked_softmax s (map (fun r => [r]) q_mask) Util.Dim2)).
  { apply softmax_shape; [exact Hs|]. intros _ b' i' Hb' Hi'.
    rewrite (expand_query_mask Hs Hm Hb' Hi').
    destruct Hm as [Bm Fm]. rewrite Forall_forall in Fm. apply Fm, nth_In. lia. }
  destruct (shape3_nth Hsh Hb Hi) as [L1 _]. destruct Hsh as [L0 _].
  rewrite (nth_map_lt _ _ []) by lia. rewrite (nth_map_lt _ _ []) by lia.
  apply value_nth.
Qed.

Lemma s2_entry B Lc Lq (s : ten3) (c_mask : list (list bool)) b i j :
  shape3 B Lc Lq s -> shape2 B Lc c_mask ->
  (b < B)%nat -> (i < Lc)%nat -> (j < Lq)%nat ->
  entry (Torch.map_3 Util.value
           (Util.masked_softmax s (map (map (fun v => [v])) c_mask) Util.Dim1)) b i j
  = AttentionSpec.s2 s c_mask b i j.
Proof.
  intros Hs Hm Hb Hi Hj. unfold entry, Torch.map_3, AttentionSpec.s2.
  rewrite <- (softmax_dim1_entry Hs Hm Hb Hi Hj).
  assert (Hsh : shape3 B Lc Lq
                  (Util.masked_softmax s (map (map (fun v => [v])) c_mask) Util.Dim1)).
  { apply softmax_shape; [exact Hs | discriminate]. }
  destruct (shape3_nth Hsh Hb Hi) as [L1 _]. destruct Hsh as [L0 _].
  rewrite (nth_map_lt _ _ []) by lia. rewrite (nth_map_lt _ _ []) by lia.
  apply value_nth.
Qed.

Lemma mask_view_shape {A : Type} B L H (mask : list (list A)) (x : ten3) :
  shape2 B L mask -> shape3 B L H x -> shape2 (length x) (Torch.size1 x) mask.
Proof.
  intros Hm Hx. destruct B as [|B].
  - rewrite (shape3_nil Hx). destruct Hm as [Hm _].
    destruct mask; [|discriminate]. split; [reflexivity | constructor].
  - rewrite (shape3_size1 Hx) by lia. destruct Hx as [-> _]. exact Hm.
Qed.

(** C1.  For a context [c] of shape (B, Lc, H), a query [q] of shape
    (B, Lq, H) and their masks (non-empty context, query and feature
    axes, a dropout rate the dropout call accepts),
    [BiDAFAttention.forward] returns a tensor of shape (B, Lc, 4H) whose
    row [i] of batch element [b] is [c_i, a_i, c_i * a_i, c_i * b_i] in this
    order, where [a = s1 x q], [b = s1 x s2^T x c] and [s1], [s2] are the
    masked softmax of the similarity matrix over the query axis and over the
    context axis. *)
Theorem attention_forward_is_fusion B Lc Lq H (m : BiDAFAttention.t)
    keep_c keep_q (c q : ten3) (c_mask q_mask : list (list bool)) :
  BiDAFAttention.wf H m -> (0 < H)%nat -> (0 < Lc)%nat -> (0 < Lq)%nat ->
  shape3 B Lc H c -> shape3 B Lq H q ->
  shape2 B Lc c_mask -> shape2 B Lq q_mask ->
  0 <= BiDAFAttention.drop_prob m <= 1 ->
  exists x s,
    BiDAFAttention.forward m keep_c keep_q c q c_mask q_mask = Ok x /\
    BiDAFAttention.get_similarity_matrix m keep_c keep_q c q = Ok s /\
    shape3 B Lc (4 * H) x /\
    forall b i, (b < B)%nat -> (i < Lc)%nat ->
      nth i (nth b x []) []
      = AttentionSpec.fusion (nth i (nth b c []) [])
          (AttentionSpec.a s q q_mask Lq H b i)
          (AttentionSpec.b s c c_mask q_mask Lc Lq H b i).
Proof.
  intros Hm HH HLc HLq Hc Hq Hcm Hqm Hp.
  destruct (similarity_matrix_ok keep_c keep_q Hm HH HLq Hc Hq Hp)
    as (c' & q' & Hc' & Hq' & _ & E).
  set (s := similarity_pure m c' q') in *.
  assert (Hs : shape3 B Lc Lq s)
    by (apply similarity_pure_shape with (H := H); assumption).
  set (S1 := Torch.map_3 Util.value
               (Util.masked_softmax s (map (fun r => [r]) q_mask) Util.Dim2)).
  set (S2 := Torch.map_3 Util.value
               (Util.masked_softmax s (map (map (fun v => [v])) c_mask) Util.Dim1)).
  set (a := Torch.bmm S1 q).
  set (T := Torch.bmm S1 (BiDAFAttention.transpose12 S2)).
  set (b_ := Torch.bmm T c).
  exists (BiDAFAttention.cat_dim2 [c; a; Torch.mul c a; Torch.mul c b_]), s.
  assert (HS1 : shape3 B Lc Lq S1).
  { apply shape3_map_3. apply softmax_shape; [exact Hs|]. intros _ b' i' Hb' Hi'.
    rewrite (expand_query_mask Hs Hqm Hb' Hi').
    destruct Hqm as [Bm Fm]. rewrite Forall_forall in Fm. apply Fm, nth_In. lia. }
  assert (HS2 : shape3 B Lc Lq S2).
  { apply shape3_map_3. apply softmax_shape; [exact Hs | discriminate]. }
  assert (Ha : shape3 B Lc H a) by (apply bmm_shape with (m := Lq); assumption).
  assert (HT : shape3 B Lc Lc T).
  { apply bmm_shape with (m := Lq); [assumption| |assumption].
    now apply transpose12_shape. }
  assert (Hb_ : shape3 B Lc H b_) by (apply bmm_shape with (m := Lc); assumption).
  assert (Hca : shape3 B Lc H (Torch.mul c a)) by (now apply shape3_map2_3).
  assert (Hcb : shape3 B Lc H (Torch.mul c b_)) by (now apply shape3_map2_3).
  pose proof (cat2_shape Hc Ha) as H1.
  pose proof (cat2_shape H1 Hca) as H2.
  pose proof (cat2_shape H2 Hcb) as H3.
  split; [|split; [exact E|split]].
  - unfold BiDAFAttention.forward. rewrite E. simpl.
    rewrite (view3_last (mask_view_shape Hcm Hc)). simpl.
    replace (length c) with (length q) by (destruct Hc, Hq; congruence).
    rewrite (view3_mid (mask_view_shape Hqm Hq)). reflexivity.
  - replace (4 * H)%nat with (H + H + H + H)%nat by lia. exact H3.
  - intros b i Hb Hi. simpl.
    rewrite (cat2_row H2 Hcb Hb Hi), (cat2_row H1 Hca Hb Hi), (cat2_row Hc Ha Hb Hi).
    rewrite (mul_row Hc Ha Hb Hi), (mul_row Hc Hb_ Hb Hi).
    assert (Ea : nth i (nth b a []) [] = AttentionSpec.a s q q_mask Lq H b i).
    { rewrite (row_as_entries Ha Hb Hi). unfold AttentionSpec.a.
      apply map_ext_in. intros k Hk. apply in_seq in Hk.
      unfold a. rewrite (bmm_entry HS1 Hq HLq Hb Hi) by lia.
      f_equal. apply map_ext_in. intros j Hj. apply in_seq in Hj.
      unfold S1. now rewrite (s1_entry _ Hs Hqm Hb Hi). }
    assert (Eb : nth i (nth b b_ []) []
                 = AttentionSpec.b s c c_mask q_mask Lc Lq H b i).
    { rewrite (row_as_entries Hb_ Hb Hi). unfold AttentionSpec.b.
      apply map_ext_in. intros k Hk. apply in_seq in Hk.
      unfold b_. rewrite (bmm_entry HT Hc HLc Hb Hi) by lia.
      f_equal. apply map_ext_in. intros i' Hi'. apply in_seq in Hi'.
      f_equal. unfold T.
      rewrite (bmm_entry HS1 (transpose12_shape HS2 HLc) HLq Hb Hi) by lia.
      f_equal. apply map_ext_in. intros j Hj. apply in_seq in Hj.
      rewrite (transpose12_entry HS2 HLc Hb) by lia.
      unfold S1, S2.
      rewrite (s1_entry _ Hs Hqm Hb Hi), (s2_entry Hs Hcm Hb) by lia.
      reflexivity. }
    rewrite Ea, Eb. unfold AttentionSpec.fusion. now rewrite <- !app_assoc.
Qed.

Definition attention_scenario : BiDAFAttention.t :=
  {| BiDAFAttention.drop_prob := 1 / 10;
     BiDAFAttention.training := true;
     BiDAFAttention.c_weight := [[1]; [1]; [1]; [1]];
     BiDAFAttention.q_weight := [[1]; [1]; [1]; [1]];
     BiDAFAttention.cq_weight := [[[1; 1; 1; 1]]];
     BiDAFAttention.bias := [0] |}.

(** The scenario of the specification: two examples, contexts of 3 and 5
    tokens padded to 5, queries of 2 tokens, hidden size 4. *)
Lemma attention_forward_is_fusion_witness :
  exists x,
    BiDAFAttention.forward attention_scenario (fun _ _ _ => true) (fun _ _ _ => true)
      (repeat (repeat [1; 2; 3; 4] 5) 2) (repeat (repeat [1; 0; 1; 0] 2) 2)
      [[true; true; true; false; false]; [true; true; true; true; true]]
      [[true; true]; [true; true]] = Ok x /\
    shape3 2 5 16 x.
Proof.
  assert (Hm : BiDAFAttention.wf 4 attention_scenario) by shape_tac.
  assert (Hc : @shape3 R 2 5 4 (repeat (repeat [1; 2; 3; 4] 5) 2)) by shape_tac.
  assert (Hq : @shape3 R 2 2 4 (repeat (repeat [1; 0; 1; 0] 2) 2)) by shape_tac.
  assert (Hcm : @shape2 bool 2 5
            [[true; true; true; false; false]; [true; true; true; true; true]])
    by shape_tac.
  assert (Hqm : @shape2 bool 2 2 [[true; true]; [true; true]]) by shape_tac.
  assert (Hp : 0 <= BiDAFAttention.drop_prob attention_scenario <= 1) by (simpl; lra).
  destruct (@attention_forward_is_fusion 2 5 2 4 attention_scenario
              (fun _ _ _ => true) (fun _ _ _ => true) _ _ _ _
              Hm ltac:(lia) ltac:(lia) ltac:(lia) Hc Hq Hcm Hqm Hp)
    as (x & s & E & _ & S & _).
  exists x. split; [exact E | exact S].
Defined.

(** ** Sorting *)


Module SortSpec.

Definition ordered (descending : bool) (l : list nat) : Prop :=
  if descending then StronglySorted ge l else StronglySorted le l.

(** What [torch.sort] guarantees of the pair it returns: the indices are a
    permutation of the positions, the values are the entries at these
    indices, in order.  Nothing is assumed on the order among equal
    entries. *)
Definition torch_sort (sort : bool -> list nat -> list nat * list nat) : Prop :=
  forall descending l,
    Permutation (snd (sort descending l)) (seq 0 (length l)) /\
    fst (sort descending l) = map (fun i => nth i l 0%nat) (snd (sort descending l)) /\
    ordered descending (fst (sort descending l)).

(** An insertion sort on (value, index) pairs. *)
Fixpoint insert (leb : nat -> nat -> bool) (p : nat * nat) (l : list (nat * nat))
    : list (nat * nat) :=
  match l with
  | [] => [p]
  | q :: l' => if leb (fst p) (fst q) then p :: l else q :: insert leb p l'
  end.

Definition insertion_sort (leb : nat -> nat -> bool) (l : list (nat * nat))
    : list (nat * nat) :=
  fold_right (insert leb) [] l.

Definition argsort (descending : bool) (l : list nat) : list nat * list nat :=
  let leb := if descending then (fun a b => (b <=? a)%nat) else Nat.leb in
  let sorted := insertion_sort leb (combine l (seq 0 (length l))) in
  (map fst sorted, map snd sorted).

End SortSpec.

Module RNNSpec.

(** The contract of a bidirectional recurrent cell on packed input: one
    output row of width [2 * hidden_size] for every input row, time steps
    unchanged. *)
Definition cell_contract (input_size hidden_size : nat)
    (cell : RNNEncoder.rnn_module) : Prop :=
  forall p, Forall (shape1 input_size) (RNNEncoder.data p) ->
    exists p', cell p = Ok p' /\
      RNNEncoder.batch_sizes p' = RNNEncoder.batch_sizes p /\
      length (RNNEncoder.data p') = length (RNNEncoder.data p) /\
      Forall (shape1 (2 * hidden_size)) (RNNEncoder.data p').

Local Open Scope string_scope.

(** The recognised values of [rnn_type]. *)
Definition supported : list String.string := ["LSTM"; "RNN"; "GRU"; "URNN"; "GORU"].

(** The constructor call [__init__] makes for each of them. *)
Definition constructor_calls
    (nn_LSTM nn_RNN nn_GRU : nat -> nat -> nat -> R -> result RNNEncoder.rnn_module)
    (EURNNCell GORUCell : nat -> nat -> nat -> result RNNEncoder.rnn_module)
    (input_size hidden_size num_layers : nat) (drop_prob : R)
    : list (String.string * result RNNEncoder.rnn_module) :=
  [("LSTM", nn_LSTM input_size hidden_size num_layers
              (if (1 <? num_layers)%nat then drop_prob else 0));
   ("RNN", nn_RNN input_size hidden_size num_layers
             (if (1 <? num_layers)%nat then drop_prob else 0));
   ("GRU", nn_GRU input_size hidden_size num_layers
             (if (1 <? num_layers)%nat then drop_prob else 0));
   ("URNN", EURNNCell input_size hidden_size 2%nat);
   ("GORU", GORUCell input_size hidden_size 2%nat)].

End RNNSpec.

Lemma sorted_perm_unique (l l' : list nat) :
  StronglySorted le l -> StronglySorted le l' -> Permutation l l' -> l = l'.
Proof.
  intros Hl. revert l'. induction Hl as [|a l Hl IH Ha]; intros l' Hl' P.
  - now apply Permutation_nil in P.
  - destruct Hl' as [|b l' Hl' Hb].
    + apply Permutation_sym, Permutation_nil in P. discriminate.
    + assert (a = b).
      { rewrite Forall_forall in Ha, Hb.
        assert (Ia : In a (b :: l')) by (eapply Permutation_in; [exact P | simpl; auto]).
        assert (Ib : In b (a :: l))
          by (eapply Permutation_in; [apply Permutation_sym; exact P | simpl; auto]).
        destruct Ia as [Ia|Ia]; [auto|]. destruct Ib as [Ib|Ib]; [auto|].
        specialize (Ha _ Ib). specialize (Hb _ Ia). lia. }
      subst b. f_equal. apply IH; [exact Hl'|]. eapply Permutation_cons_inv; exact P.
Qed.

Lemma seq_sorted a n : StronglySorted le (seq a n).
Proof.
  revert a; induction n; intros a; simpl; constructor; auto.
  apply Forall_forall. intros x Hx. apply in_seq in Hx. lia.
Qed.

Lemma map_nth_self {A : Type} (l : list A) d :
  map (fun i => nth i l d) (seq 0 (length l)) = l.
Proof.
  rewrite (map_nth_seq (fun v => v) l d). apply map_id.
Qed.

(** Sorting the indices of a sort in increasing order inverts it. *)
Lemma unsort_inverse sort (sort_idx : list nat) B :
  SortSpec.torch_sort sort -> Permutation sort_idx (seq 0 B) ->
  Permutation (snd (sort false sort_idx)) (seq 0 B) /\
  forall b, (b < B)%nat -> nth (nth b (snd (sort false sort_idx)) 0%nat) sort_idx 0%nat = b.
Proof.
  intros Hsort P. destruct (Hsort false sort_idx) as (Pu & Ev & Ho).
  assert (Hlen : length sort_idx = B)
    by (rewrite (Permutation_length P); apply length_seq).
  rewrite Hlen in Pu. split; [exact Pu|].
  assert (E : fst (sort false sort_idx) = seq 0 B).
  { apply sorted_perm_unique; [exact Ho | apply seq_sorted|].
    rewrite Ev. transitivity sort_idx; [|exact P].
    rewrite <- (map_nth_self sort_idx 0%nat) at 2. rewrite Hlen.
    now apply Permutation_map. }
  intros b Hb.
  assert (Hu : length (snd (sort false sort_idx)) = B)
    by (rewrite (Permutation_length Pu); apply length_seq).
  rewrite <- (nth_map_lt (fun i => nth i sort_idx 0%nat) _ 0%nat 0%nat) by lia.
  rewrite <- Ev, E. apply seq_nth. exact Hb.
Qed.

(** ** Packing *)

Lemma sorted_desc_true (l : list nat) :
  StronglySorted ge l -> RNNEncoder.sorted_desc l = true.
Proof.
  induction 1 as [|a l Hl IH Ha]; [reflexivity|].
  simpl. destruct l as [|b l]; [reflexivity|].
  inversion Ha; subst. rewrite IH.
  destruct (Nat.leb_spec b a); [reflexivity | lia].
Qed.

Lemma filter_none {A : Type} (f : A -> bool) (l : list A) :
  (forall x, In x l -> f x = false) -> filter f l = [].
Proof.
  induction l as [|a l IH]; intros H; simpl; [reflexivity|].
  rewrite (H a) by (simpl; auto). apply IH. intros; apply H; simpl; auto.
Qed.

Lemma batch_size_at_cons a (l : list nat) t :
  RNNEncoder.batch_size_at (a :: l) t
  = ((if (t <? a)%nat then 1 else 0) + RNNEncoder.batch_size_at l t)%nat.
Proof.
  unfold RNNEncoder.batch_size_at. simpl. destruct (t <? a)%nat; reflexivity.
Qed.

Lemma batch_size_at_le (l : list nat) t :
  (RNNEncoder.batch_size_at l t <= length l)%nat.
Proof.
  unfold RNNEncoder.batch_size_at. apply filter_length_le.
Qed.

(** In a decreasing list the sequences alive at step [t] are a prefix. *)
Lemma batch_size_at_sorted (l : list nat) t k :
  StronglySorted ge l -> (k < length l)%nat ->
  (k < RNNEncoder.batch_size_at l t)%nat <-> (t < nth k l 0)%nat.
Proof.
  intros Hl. revert k. induction Hl as [|a l Hl IH Ha]; intros k Hk.
  - simpl in Hk. lia.
  - rewrite batch_size_at_cons. destruct (Nat.ltb_spec t a) as [Hta|Hta].
    + destruct k as [|k]; simpl; [lia|].
      simpl in Hk. rewrite <- IH by lia. lia.
    + assert (Hz : RNNEncoder.batch_size_at l t = 0%nat).
      { unfold RNNEncoder.batch_size_at. rewrite filter_none; [reflexivity|].
        intros x Hx. rewrite Forall_forall in Ha.
        specialize (Ha x Hx). destruct (Nat.ltb_spec t x); [lia | reflexivity]. }
      rewrite Hz. destruct k as [|k]; simpl; [lia|].
      rewrite Forall_forall in Ha. simpl in Hk.
      assert (In (nth k l 0%nat) l) by (apply nth_In; lia).
      specialize (Ha _ H). lia.
Qed.

Lemma indicator_sum a T :
  (a <= T)%nat ->
  list_sum (map (fun t => if (t <? a)%nat then 1%nat else 0%nat) (seq 0 T)) = a.
Proof.
  revert a; induction T as [|T IH]; intros a Ha.
  - simpl. lia.
  - rewrite seq_S, map_app, list_sum_app. simpl.
    destruct (Nat.ltb_spec T a).
    + assert (a = S T) by lia. subst a.
      rewrite (map_ext_in _ (fun t => if (t <? T)%nat then 1%nat else 0%nat)).
      * rewrite IH by lia. lia.
      * intros t Ht. apply in_seq in Ht.
        destruct (Nat.ltb_spec t (S T)), (Nat.ltb_spec t T); lia.
    + rewrite IH by lia. lia.
Qed.

Lemma list_sum_map_add {A : Type} (f g : A -> nat) (l : list A) :
  list_sum (map (fun x => (f x + g x)%nat) l) = (list_sum (map f l) + list_sum (map g l))%nat.
Proof.
  induction l; simpl; lia.
Qed.

(** The packed rows are as many as the true lengths add up to. *)
Lemma batch_sizes_sum (l : list nat) T :
  Forall (fun a => (a <= T)%nat) l ->
  list_sum (map (RNNEncoder.batch_size_at l) (seq 0 T)) = list_sum l.
Proof.
  induction 1 as [|a l Ha Hl IH].
  - unfold RNNEncoder.batch_size_at. simpl. induction (seq 0 T); simpl; auto.
  - rewrite (map_ext _ _ (batch_size_at_cons a l)).
    rewrite list_sum_map_add, indicator_sum, IH by assumption. reflexivity.
Qed.

Lemma flat_map_length_sum {A B : Type} (f : A -> list B) (l : list A) :
  length (flat_map f l) = list_sum (map (fun a => length (f a)) l).
Proof.
  induction l; simpl; [reflexivity|]. rewrite length_app. now rewrite IHl.
Qed.

(** Row [k] of step [t] sits at [offset t + k]. *)
Lemma flat_map_nth_from {B : Type} (f : nat -> list B) (bs : nat -> nat) n base t k d :
  (forall u, (u < n)%nat -> length (f (base + u)%nat) = bs (base + u)%nat) ->
  (t < n)%nat -> (k < bs (base + t)%nat)%nat ->
  nth (list_sum (firstn t (map bs (seq base n))) + k) (flat_map f (seq base n)) d
  = nth k (f (base + t)%nat) d.
Proof.
  revert base t. induction n as [|n IH]; intros base t Hl Ht Hk; [lia|].
  pose proof (Hl 0%nat ltac:(lia)) as H0. rewrite Nat.add_0_r in H0.
  simpl. destruct t as [|t].
  - simpl. rewrite Nat.add_0_r in *. rewrite app_nth1 by lia. reflexivity.
  - simpl. rewrite app_nth2 by lia.
    replace (bs base + list_sum (firstn t (map bs (seq (S base) n))) + k
             - length (f base))%nat
      with (list_sum (firstn t (map bs (seq (S base) n))) + k)%nat by lia.
    rewrite IH.
    + f_equal. f_equal. lia.
    + intros v Hv. replace (S base + v)%nat with (base + S v)%nat by lia.
      apply Hl. lia.
    + lia.
    + replace (S base + t)%nat with (base + S t)%nat by lia. exact Hk.
Qed.

Lemma flat_map_nth {B : Type} (f : nat -> list B) (bs : nat -> nat) T t k d :
  (forall u, (u < T)%nat -> length (f u) = bs u) ->
  (t < T)%nat -> (k < bs t)%nat ->
  nth (list_sum (firstn t (map bs (seq 0 T))) + k) (flat_map f (seq 0 T)) d
  = nth k (f t) d.
Proof.
  intros Hl Ht Hk. apply (@flat_map_nth_from B f bs T 0%nat t k d); auto.
Qed.

Lemma In_firstn {A : Type} (a : A) n (l : list A) : In a (firstn n l) -> In a l.
Proof.
  intros H. rewrite <- (firstn_skipn n l). apply in_or_app. now left.
Qed.

Lemma pack_nonempty (x : ten3) (lengths : list nat) :
  x <> [] ->
  RNNEncoder.pack_padded_sequence x lengths
  = if negb (length lengths =? length x)%nat then Raise RuntimeError
    else if existsb (fun l => (l =? 0)%nat) lengths then Raise RuntimeError
    else if negb (RNNEncoder.sorted_desc lengths) then Raise RuntimeError
    else if (Torch.size1 x <? hd 0%nat lengths)%nat then Raise RuntimeError
    else
      let steps := seq 0 (hd 0%nat lengths) in
      Ok {| RNNEncoder.data :=
              flat_map (fun t => map (fun xb => nth t xb [])
                         (firstn (RNNEncoder.batch_size_at lengths t) x)) steps;
            RNNEncoder.batch_sizes := map (RNNEncoder.batch_size_at lengths) steps |}.
Proof.
  destruct x; [congruence | reflexivity].
Qed.

Section PackedForward.

Variable sort : bool -> list nat -> list nat * list nat.
Hypothesis Hsort : SortSpec.torch_sort sort.

Variables (I Hd B L : nat) (x : ten3) (lengths : list nat).
Hypothesis Hx : shape3 B L I x.
Hypothesis HB : (0 < B)%nat.
Hypothesis Hlen : length lengths = B.
Hypothesis Hpos : Forall (fun l => (0 < l <= L)%nat) lengths.

Let lens := fst (sort true lengths).
Let sort_idx := snd (sort true lengths).
Let xs := RNNEncoder.index_select [] x sort_idx.
Let T := hd 0%nat lens.

Lemma sort_idx_perm : Permutation sort_idx (seq 0 B).
Proof.
  destruct (Hsort true lengths) as (P & _). now rewrite Hlen in P.
Qed.

Lemma sort_idx_length : length sort_idx = B.
Proof.
  rewrite (Permutation_length sort_idx_perm). apply length_seq.
Qed.

Lemma sort_idx_lt k : (k < B)%nat -> (nth k sort_idx 0 < B)%nat.
Proof.
  intros Hk.
  assert (Hin : In (nth k sort_idx 0%nat) (seq 0 B)).
  { eapply Permutation_in; [exact sort_idx_perm|]. apply nth_In.
    now rewrite sort_idx_length. }
  apply in_seq in Hin. lia.
Qed.

Lemma lens_eq : lens = map (fun i => nth i lengths 0%nat) sort_idx.
Proof.
  now destruct (Hsort true lengths) as (_ & E & _).
Qed.

Lemma lens_length : length lens = B.
Proof.
  rewrite lens_eq, length_map. apply sort_idx_length.
Qed.

Lemma lens_nth k : (k < B)%nat -> nth k lens 0%nat = nth (nth k sort_idx 0%nat) lengths 0%nat.
Proof.
  intros Hk. rewrite lens_eq.
  apply (nth_map_lt (fun i => nth i lengths 0%nat)). now rewrite sort_idx_length.
Qed.

Lemma lens_sorted : StronglySorted ge lens.
Proof.
  now destruct (Hsort true lengths) as (_ & _ & O).
Qed.

Lemma lens_bounds : Forall (fun l => (0 < l <= L)%nat) lens.
Proof.
  rewrite lens_eq. apply Forall_map, Forall_forall. intros i Hi.
  rewrite Forall_forall in Hpos. apply Hpos, nth_In.
  assert (Hin : In i (seq 0 B)) by (eapply Permutation_in; [exact sort_idx_perm | exact Hi]).
  apply in_seq in Hin. lia.
Qed.

Lemma lens_sum : list_sum lens = list_sum lengths.
Proof.
  rewrite lens_eq. apply Permutation_list_sum.
  eapply Permutation_trans; [apply Permutation_map, sort_idx_perm|].
  rewrite <- Hlen, map_nth_self. apply Permutation_refl.
Qed.

Lemma T_bounds : (0 < T <= L)%nat.
Proof.
  unfold T. pose proof lens_length as Hl. pose proof lens_bounds as Hb.
  destruct lens as [|a l]; [simpl in Hl; lia|]. simpl. now inversion Hb.
Qed.

Lemma lens_le_T : Forall (fun a => (a <= T)%nat) lens.
Proof.
  unfold T. pose proof lens_sorted as Hs.
  destruct lens as [|a l]; [constructor|]. simpl.
  inversion Hs as [|? ? _ Ha]; subst. constructor; [lia|].
  eapply Forall_impl; [|exact Ha]. intros; simpl in *; lia.
Qed.

Lemma xs_length : length xs = B.
Proof.
  unfold xs, RNNEncoder.index_select. rewrite length_map. apply sort_idx_length.
Qed.

Lemma xs_nth k : (k < B)%nat -> nth k xs [] = nth (nth k sort_idx 0%nat) x [].
Proof.
  intros Hk. unfold xs, RNNEncoder.index_select.
  apply (nth_map_lt (fun i => nth i x [])). now rewrite sort_idx_length.
Qed.

Lemma xs_shape : shape3 B L I xs.
Proof.
  apply shape3_of_batches; [exact xs_length|]. intros k Hk.
  rewrite (xs_nth Hk). apply (shape3_batch Hx). now apply sort_idx_lt.
Qed.

(** The packed input. *)
Definition packed_input : RNNEncoder.PackedSequence :=
  {| RNNEncoder.data :=
       flat_map (fun t => map (fun xb => nth t xb [])
                              (firstn (RNNEncoder.batch_size_at lens t) xs))
                (seq 0 T);
     RNNEncoder.batch_sizes := map (RNNEncoder.batch_size_at lens) (seq 0 T) |}.

Lemma pack_ok : RNNEncoder.pack_padded_sequence xs lens = Ok packed_input.
Proof.
  pose proof xs_length as Hxs. pose proof lens_length as Hl.
  rewrite pack_nonempty by (intros E; rewrite E in Hxs; simpl in Hxs; lia).
  rewrite Hl, Hxs, Nat.eqb_refl. simpl negb. cbv iota.
  assert (Hz : existsb (fun l => (l =? 0)%nat) lens = false).
  { apply not_true_is_false. intros Hex. apply existsb_exists in Hex.
    destruct Hex as (l & Hin & Hl0). apply Nat.eqb_eq in Hl0.
    pose proof lens_bounds as Hb. rewrite Forall_forall in Hb.
    specialize (Hb l Hin). lia. }
  rewrite Hz, (sorted_desc_true lens_sorted). simpl negb. cbv iota.
  rewrite (shape3_size1 xs_shape HB).
  destruct (Nat.ltb_spec L (hd 0%nat lens)) as [Hlt|_];
    [pose proof T_bounds; unfold T in *; lia|].
  reflexivity.
Qed.

Lemma packed_rows : Forall (shape1 I) (RNNEncoder.data packed_input).
Proof.
  simpl. apply Forall_forall. intros r Hr.
  apply in_flat_map in Hr. destruct Hr as (t & Ht & Hr). apply in_seq in Ht.
  apply in_map_iff in Hr. destruct Hr as (xb & <- & Hxb).
  apply In_firstn in Hxb.
  destruct (proj2 (shape3_elim xs_shape) xb Hxb) as [Hm Hrows].
  apply Hrows, nth_In. pose proof T_bounds. lia.
Qed.

Lemma packed_length : length (RNNEncoder.data packed_input) = list_sum lengths.
Proof.
  simpl. rewrite flat_map_length_sum.
  rewrite (map_ext _ (RNNEncoder.batch_size_at lens)).
  - rewrite (batch_sizes_sum lens_le_T). apply lens_sum.
  - intros t. rewrite length_map, length_firstn.
    pose proof (batch_size_at_le lens t). rewrite xs_length, <- lens_length. lia.
Qed.

(** The packed rows are the real positions: row [k] of step [t] is position
    [t] of the sequence sorted at rank [k]. *)
Lemma packed_nth k t :
  (k < B)%nat -> (t < nth k lens 0)%nat ->
  nth (RNNEncoder.offset (RNNEncoder.batch_sizes packed_input) t + k)
      (RNNEncoder.data packed_input) []
  = nth t (nth (nth k sort_idx 0%nat) x []) [].
Proof.
  intros Hk Ht. simpl. unfold RNNEncoder.offset.
  assert (HkB : (k < length lens)%nat) by (now rewrite lens_length).
  assert (Hkt : (k < RNNEncoder.batch_size_at lens t)%nat)
    by (apply (batch_size_at_sorted t lens_sorted HkB); exact Ht).
  assert (HtT : (t < T)%nat).
  { pose proof lens_le_T as Hle. rewrite Forall_forall in Hle.
    specialize (Hle (nth k lens 0%nat) (nth_In _ _ HkB)). lia. }
  rewrite (flat_map_nth _ (RNNEncoder.batch_size_at lens)); [|  |exact HtT|exact Hkt].
  - rewrite (nth_map_lt _ _ []).
    + rewrite nth_firstn. destruct (Nat.ltb_spec k (RNNEncoder.batch_size_at lens t)); [|lia].
      now rewrite (xs_nth Hk).
    + rewrite length_firstn, xs_length. lia.
  - intros u _. rewrite length_map, length_firstn, xs_length.
    pose proof (batch_size_at_le lens u). rewrite lens_length in H. lia.
Qed.

End PackedForward.

(** ** Unpacking and the inverse permutation *)

(** Position of batch element [b] in the sorted batch. *)
Definition rank (sort : bool -> list nat -> list nat * list nat)
    (lengths : list nat) (b : nat) : nat :=
  nth b (snd (sort false (snd (sort true lengths)))) 0%nat.

Lemma batch_size_at_zero (l : list nat) :
  Forall (fun a => (0 < a)%nat) l -> RNNEncoder.batch_size_at l 0 = length l.
Proof.
  induction 1 as [|a l Ha Hl IH]; [reflexivity|].
  rewrite batch_size_at_cons, IH. destruct (Nat.ltb_spec 0 a); simpl; lia.
Qed.

Lemma zeros_length n : length (Torch.zeros n) = n.
Proof.
  apply repeat_length.
Qed.

Lemma pad_ok (p : RNNEncoder.PackedSequence) total :
  (length (RNNEncoder.batch_sizes p) <= total)%nat ->
  RNNEncoder.pad_packed_sequence p total
  = Ok (map (fun b => map (fun t =>
          if (b <? nth t (RNNEncoder.batch_sizes p) 0%nat)%nat
          then nth (RNNEncoder.offset (RNNEncoder.batch_sizes p) t + b)
                   (RNNEncoder.data p)
                   (Torch.zeros (Torch.size1 (RNNEncoder.data p)))
          else Torch.zeros (Torch.size1 (RNNEncoder.data p)))
        (seq 0 total))
      (seq 0 (hd 0%nat (RNNEncoder.batch_sizes p)))).
Proof.
  intros H. unfold RNNEncoder.pad_packed_sequence.
  destruct (Nat.ltb_spec total (length (RNNEncoder.batch_sizes p))); [lia | reflexivity].
Qed.

Lemma dropout_zero_row n m k (y0 y : ten3) p training keep b t :
  shape3 n m k y0 -> (b < n)%nat -> (t < m)%nat ->
  Torch.dropout y0 p training keep = Ok y ->
  nth t (nth b y0 []) [] = Torch.zeros k ->
  nth t (nth b y []) [] = Torch.zeros k.
Proof.
  intros Hy Hb Ht E Hz. unfold Torch.dropout in E.
  destruct (shape3_nth Hy Hb Ht) as [L1 L2]. destruct Hy as [L0 _].
  destruct (Rlt_dec p 0); [discriminate|]. destruct (Rlt_dec 1 p); [discriminate|].
  destruct training.
  - destruct (Req_dec_T p 1); inversion E; subst y; clear E.
    + unfold Torch.map_3.
      rewrite (nth_map_lt _ _ []) by lia. rewrite (nth_map_lt _ _ []) by lia.
      rewrite Hz. unfold Torch.zeros. rewrite map_repeat. reflexivity.
    + rewrite (mapi_nth _ _ []) by lia. rewrite (mapi_nth _ _ []) by lia.
      apply (nth_ext _ _ 0 0).
      * rewrite mapi_length, zeros_length. exact L2.
      * intros j Hj. rewrite mapi_length in Hj.
        rewrite (mapi_nth _ _ 0) by lia. rewrite Hz.
        unfold Torch.zeros. rewrite !nth_repeat_lt by lia.
        destruct (keep b t j); lra.
  - inversion E; subst y. exact Hz.
Qed.

Section EncoderForward.

Variable sort : bool -> list nat -> list nat * list nat.
Hypothesis Hsort : SortSpec.torch_sort sort.

Variables (I Hd B L : nat) (x : ten3) (lengths : list nat).
Hypothesis Hx : shape3 B L I x.
Hypothesis HB : (0 < B)%nat.
Hypothesis Hlen : length lengths = B.
Hypothesis Hpos : Forall (fun l => (0 < l <= L)%nat) lengths.

Variable cell : RNNEncoder.rnn_module.
Variable out : RNNEncoder.PackedSequence.
Hypothesis Hout : cell (packed_input sort x lengths) = Ok out.
Hypothesis Hbs : RNNEncoder.batch_sizes out
                 = RNNEncoder.batch_sizes (packed_input sort x lengths).
Hypothesis Hrows : length (RNNEncoder.data out)
                   = length (RNNEncoder.data (packed_input sort x lengths)).
Hypothesis Hwidth : Forall (shape1 (2 * Hd)) (RNNEncoder.data out).

Let lens := fst (sort true lengths).
Let sort_idx := snd (sort true lengths).
Let unsort_idx := snd (sort false sort_idx).
Let T := hd 0%nat lens.
Let bs := RNNEncoder.batch_sizes out.

Lemma bs_eq : bs = map (RNNEncoder.batch_size_at lens) (seq 0 T).
Proof.
  unfold bs. rewrite Hbs. reflexivity.
Qed.

Lemma bs_head : hd 0%nat bs = B.
Proof.
  rewrite bs_eq.
  assert (HT : (0 < T <= L)%nat) by (eapply T_bounds; eassumption).
  destruct T as [|T']; [lia|]. simpl.
  rewrite batch_size_at_zero; [eapply lens_length; eassumption|].
  assert (Hb : Forall (fun l => (0 < l <= L)%nat) lens)
    by (eapply lens_bounds; eassumption).
  eapply Forall_impl; [|exact Hb].
  intros a Ha. simpl in Ha. lia.
Qed.

Lemma bs_nth t : nth t bs 0%nat = if (t <? T)%nat then RNNEncoder.batch_size_at lens t else 0%nat.
Proof.
  rewrite bs_eq. destruct (Nat.ltb_spec t T).
  - rewrite (nth_map_lt _ _ 0%nat) by (rewrite length_seq; lia).
    now rewrite seq_nth by lia.
  - apply nth_overflow. rewrite length_map, length_seq. lia.
Qed.

Lemma out_width : Torch.size1 (RNNEncoder.data out) = (2 * Hd)%nat.
Proof.
  assert (Hn : (0 < length (RNNEncoder.data out))%nat).
  { assert (Hpl : length (RNNEncoder.data (packed_input sort x lengths)) = list_sum lengths)
      by (eapply packed_length; eassumption).
    rewrite Hrows, Hpl.
    destruct lengths as [|l0 ls]; [simpl in Hlen; lia|].
    inversion Hpos; subst. simpl. lia. }
  unfold Torch.size1. destruct (RNNEncoder.data out) as [|r d]; [simpl in Hn; lia|].
  simpl. now inversion Hwidth.
Qed.

(** The padded output of the cell, in sorted order. *)
Definition padded_output : ten3 :=
  map (fun k => map (fun t =>
         if (k <? nth t bs 0%nat)%nat
         then nth (RNNEncoder.offset bs t + k) (RNNEncoder.data out) (Torch.zeros (2 * Hd))
         else Torch.zeros (2 * Hd))
       (seq 0 L))
    (seq 0 B).

Lemma pad_packed_ok : RNNEncoder.pad_packed_sequence out L = Ok padded_output.
Proof.
  rewrite pad_ok.
  - fold bs. rewrite bs_head, out_width. reflexivity.
  - fold bs. rewrite bs_eq, length_map, length_seq.
    assert (HT : (0 < T <= L)%nat) by (eapply T_bounds; eassumption). lia.
Qed.

Lemma padded_shape : shape3 B L (2 * Hd) padded_output.
Proof.
  unfold padded_output. apply shape3_intro; [now rewrite length_map, length_seq|].
  intros xb Hin. apply in_map_iff in Hin. destruct Hin as (k & <- & _).
  split; [now rewrite length_map, length_seq|].
  intros r Hr. apply in_map_iff in Hr. destruct Hr as (t & <- & _).
  destruct (k <? nth t bs 0%nat)%nat; [|apply zeros_length].
  destruct (Nat.lt_ge_cases (RNNEncoder.offset bs t + k) (length (RNNEncoder.data out))).
  - rewrite Forall_forall in Hwidth. apply Hwidth, nth_In. assumption.
  - rewrite nth_overflow by assumption. apply zeros_length.
Qed.

Lemma padded_nth k t :
  (k < B)%nat -> (t < L)%nat ->
  nth t (nth k padded_output []) []
  = if (t <? nth k lens 0%nat)%nat
    then nth (RNNEncoder.offset bs t + k) (RNNEncoder.data out) (Torch.zeros (2 * Hd))
    else Torch.zeros (2 * Hd).
Proof.
  intros Hk Ht. unfold padded_output.
  rewrite (nth_map_lt _ _ 0%nat) by (rewrite length_seq; lia).
  rewrite (nth_map_lt _ _ 0%nat) by (rewrite length_seq; lia).
  rewrite !seq_nth by lia. simpl. rewrite bs_nth.
  assert (Hll : length lens = B) by (eapply lens_length; eassumption).
  assert (HkB : (k < length lens)%nat) by (rewrite Hll; exact Hk).
  assert (Hls : StronglySorted ge lens) by (eapply lens_sorted; eassumption).
  pose proof (batch_size_at_sorted t Hls HkB) as Hiff.
  assert (Hle : Forall (fun a => (a <= T)%nat) lens) by (eapply lens_le_T; eassumption).
  rewrite Forall_forall in Hle. specialize (Hle _ (nth_In _ 0%nat HkB)).
  destruct (Nat.ltb_spec t T), (Nat.ltb_spec t (nth k lens 0%nat)),
           (Nat.ltb_spec k (RNNEncoder.batch_size_at lens t));
    try reflexivity; try lia.
Qed.

(** The output before dropout, in the original order. *)
Definition unsorted_output : ten3 :=
  RNNEncoder.index_select [] padded_output unsort_idx.

Lemma rank_lt b : (b < B)%nat -> (rank sort lengths b < B)%nat.
Proof.
  intros Hb.
  assert (P : Permutation sort_idx (seq 0 B)) by (eapply sort_idx_perm; eassumption).
  destruct (@unsort_inverse sort sort_idx B Hsort P) as [Pu _].
  assert (Hin : In (rank sort lengths b) (seq 0 B)).
  { eapply Permutation_in; [exact Pu|]. apply nth_In.
    rewrite (Permutation_length Pu), length_seq. exact Hb. }
  apply in_seq in Hin. lia.
Qed.

Lemma rank_sort_idx b : (b < B)%nat -> nth (rank sort lengths b) sort_idx 0%nat = b.
Proof.
  intros Hb.
  assert (P : Permutation sort_idx (seq 0 B)) by (eapply sort_idx_perm; eassumption).
  destruct (@unsort_inverse sort sort_idx B Hsort P) as [_ Hinv]. now apply Hinv.
Qed.

Lemma unsorted_batch b :
  (b < B)%nat -> nth b unsorted_output [] = nth (rank sort lengths b) padded_output [].
Proof.
  intros Hb. unfold unsorted_output, RNNEncoder.index_select.
  assert (P : Permutation sort_idx (seq 0 B)) by (eapply sort_idx_perm; eassumption).
  destruct (@unsort_inverse sort sort_idx B Hsort P) as [Pu _].
  apply (nth_map_lt (fun i => nth i padded_output [])).
  unfold sort_idx in Pu. rewrite (Permutation_length Pu), length_seq. exact Hb.
Qed.

Lemma unsorted_shape : shape3 B L (2 * Hd) unsorted_output.
Proof.
  apply shape3_of_batches.
  - unfold unsorted_output, RNNEncoder.index_select. rewrite length_map.
    assert (P : Permutation sort_idx (seq 0 B)) by (eapply sort_idx_perm; eassumption).
    destruct (@unsort_inverse sort sort_idx B Hsort P) as [Pu _].
    unfold unsort_idx, sort_idx. unfold sort_idx in Pu.
    now rewrite (Permutation_length Pu), length_seq.
  - intros b Hb. rewrite (unsorted_batch Hb).
    apply (shape3_batch padded_shape). now apply rank_lt.
Qed.

Lemma unsorted_nth b t :
  (b < B)%nat -> (t < L)%nat ->
  nth t (nth b unsorted_output []) []
  = if (t <? nth b lengths 0%nat)%nat
    then nth (RNNEncoder.offset bs t + rank sort lengths b) (RNNEncoder.data out)
             (Torch.zeros (2 * Hd))
    else Torch.zeros (2 * Hd).
Proof.
  intros Hb Ht. rewrite (unsorted_batch Hb), (padded_nth (rank_lt Hb) Ht).
  assert (E : nth (rank sort lengths b) lens 0%nat
              = nth (nth (rank sort lengths b) sort_idx 0%nat) lengths 0%nat)
    by (eapply lens_nth; [eassumption | eassumption | exact (rank_lt Hb)]).
  now rewrite E, (rank_sort_idx Hb).
Qed.

Lemma packed_real_position b t :
  (b < B)%nat -> (t < nth b lengths 0)%nat ->
  nth (RNNEncoder.offset bs t + rank sort lengths b)
      (RNNEncoder.data (packed_input sort x lengths)) []
  = nth t (nth b x []) [].
Proof.
  intros Hb Ht. unfold bs. rewrite Hbs.
  assert (E : nth (rank sort lengths b) lens 0%nat
              = nth (nth (rank sort lengths b) sort_idx 0%nat) lengths 0%nat)
    by (eapply lens_nth; [eassumption | eassumption | exact (rank_lt Hb)]).
  rewrite (rank_sort_idx Hb) in E.
  transitivity (nth t (nth (nth (rank sort lengths b) sort_idx 0%nat) x []) []);
    [|now rewrite (rank_sort_idx Hb)].
  eapply packed_nth; try eassumption; [exact (rank_lt Hb)|].
  fold lens. rewrite E. exact Ht.
Qed.

End EncoderForward.

(** ** RNNEncoder.forward *)

Lemma encoder_forward_ok sort I Hd B L (m : RNNEncoder.t) cell keep (x : ten3) lengths :
  SortSpec.torch_sort sort -> RNNSpec.cell_contract I Hd cell ->
  RNNEncoder.rnn m = Some cell ->
  shape3 B L I x -> (0 < B)%nat -> length lengths = B ->
  Forall (fun l => (0 < l <= L)%nat) lengths ->
  0 <= RNNEncoder.drop_prob m <= 1 ->
  exists out y,
    cell (packed_input sort x lengths) = Ok out /\
    RNNEncoder.batch_sizes out = RNNEncoder.batch_sizes (packed_input sort x lengths) /\
    length (RNNEncoder.data out) = length (RNNEncoder.data (packed_input sort x lengths)) /\
    Torch.dropout (unsorted_output sort Hd B L lengths out)
                  (RNNEncoder.drop_prob m) (RNNEncoder.training m) keep = Ok y /\
    RNNEncoder.forward sort m keep x lengths = Ok y /\
    shape3 B L (2 * Hd) y.
Proof.
  intros Hsort Hcell Hrnn Hx HB Hlen Hpos Hp.
  assert (Hpr : Forall (shape1 I) (RNNEncoder.data (packed_input sort x lengths)))
    by (eapply packed_rows; eassumption).
  destruct (Hcell _ Hpr) as (out & Eout & Hbs & Hrows & Hw).
  assert (Hus : shape3 B L (2 * Hd) (unsorted_output sort Hd B L lengths out))
    by (eapply unsorted_shape; eassumption).
  destruct (dropout_ok (RNNEncoder.training m) keep Hp Hus) as (y & Ey & Sy & _).
  exists out, y. repeat (split; [assumption|]). split; [|exact Sy].
  assert (Hpk : RNNEncoder.pack_padded_sequence
                  (RNNEncoder.index_select [] x (snd (sort true lengths)))
                  (fst (sort true lengths)) = Ok (packed_input sort x lengths))
    by (eapply pack_ok; eassumption).
  assert (Hpad : RNNEncoder.pad_packed_sequence out L = Ok (padded_output Hd B L out))
    by exact (pad_packed_ok Hsort Hd Hx HB Hlen Hpos cell Eout Hbs Hrows Hw).
  unfold unsorted_output in Ey.
  unfold RNNEncoder.forward.
  destruct (sort true lengths) as [lens sidx]. simpl in Hpk, Ey.
  rewrite Hpk. simpl. rewrite Hrnn, Eout. simpl.
  rewrite (shape3_size1 Hx HB), Hpad. simpl.
  destruct (sort false sidx) as [v uidx]. simpl in Ey. rewrite Ey. reflexivity.
Qed.

(** What the recurrence gets depends on the real positions only. *)
Lemma packed_input_ext sort I B L (x x' : ten3) lengths :
  SortSpec.torch_sort sort ->
  shape3 B L I x -> shape3 B L I x' -> (0 < B)%nat -> length lengths = B ->
  (forall b t, (b < B)%nat -> (t < nth b lengths 0)%nat ->
     nth t (nth b x' []) [] = nth t (nth b x []) []) ->
  packed_input sort x' lengths = packed_input sort x lengths.
Proof.
  intros Hsort Hx Hx' HB Hlen Hreal. unfold packed_input. f_equal.
  apply flat_map_ext. intros t.
  set (lens := fst (sort true lengths)).
  set (sidx := snd (sort true lengths)).
  assert (Hl : length lens = B) by (eapply lens_length; eassumption).
  assert (Hs : length sidx = B) by (eapply sort_idx_length; eassumption).
  pose proof (batch_size_at_le lens t) as Hle. rewrite Hl in Hle.
  apply (nth_ext _ _ [] []).
  - rewrite !length_map, !length_firstn. unfold RNNEncoder.index_select.
    now rewrite !length_map.
  - intros k Hk. rewrite length_map, length_firstn in Hk.
    unfold RNNEncoder.index_select in Hk. rewrite length_map, Hs in Hk.
    rewrite !(nth_map_lt _ _ [])
      by (rewrite length_firstn; unfold RNNEncoder.index_select;
          rewrite length_map, Hs; lia).
    rewrite !nth_firstn.
    destruct (Nat.ltb_spec k (RNNEncoder.batch_size_at lens t)) as [Hkt|]; [|lia].
    unfold RNNEncoder.index_select.
    rewrite !(nth_map_lt _ _ 0%nat) by lia.
    assert (Hsl : StronglySorted ge lens) by (eapply lens_sorted; eassumption).
    assert (Hkl : (k < length lens)%nat) by lia.
    apply (batch_size_at_sorted t Hsl Hkl) in Hkt.
    assert (E : nth k lens 0%nat = nth (nth k sidx 0%nat) lengths 0%nat)
      by (eapply lens_nth; [eassumption | eassumption | lia]).
    apply Hreal; [|lia].
    eapply sort_idx_lt; try eassumption. lia.
Qed.

Lemma init_supported nn_LSTM nn_RNN nn_GRU EURNNCell GORUCell
    input_size hidden_size num_layers rnn_type (p : R) (P : RNNEncoder.rnn_module -> Prop) :
  In rnn_type RNNSpec.supported ->
  (forall c,
     In (rnn_type, c)
        (RNNSpec.constructor_calls nn_LSTM nn_RNN nn_GRU EURNNCell GORUCell
           input_size hidden_size num_layers p) ->
     exists cell, c = Ok cell /\ P cell) ->
  exists cell,
    RNNEncoder.__init__ nn_LSTM nn_RNN nn_GRU EURNNCell GORUCell
      input_size hidden_size num_layers rnn_type p
    = Ok {| RNNEncoder.drop_prob := p; RNNEncoder.training := true;
            RNNEncoder.rnn := Some cell |} /\
    P cell.
Proof.
  intros Hin Hc. unfold RNNSpec.supported in Hin. simpl in Hin.
  unfold RNNEncoder.__init__, RNNSpec.constructor_calls in *.
  destruct Hin as [<-|[<-|[<-|[<-|[<-|[]]]]]]; simpl.
  - destruct (Hc _ (or_introl eq_refl)) as (cell & -> & HP). now exists cell.
  - destruct (Hc _ (or_intror (or_introl eq_refl))) as (cell & -> & HP). now exists cell.
  - destruct (Hc _ (or_intror (or_intror (or_introl eq_refl)))) as (cell & -> & HP).
    now exists cell.
  - destruct (Hc _ (or_intror (or_intror (or_intror (or_introl eq_refl)))))
      as (cell & -> & HP). now exists cell.
  - destruct (Hc _ (or_intror (or_intror (or_intror (or_intror (or_introl eq_refl))))))
      as (cell & -> & HP). now exists cell.
Qed.

(** ** The insertion sort meets the contract of [torch.sort] *)

Lemma insert_perm leb p l : Permutation (SortSpec.insert leb p l) (p :: l).
Proof.
  induction l as [|q l IH]; simpl; [apply Permutation_refl|].
  destruct (leb (fst p) (fst q)); [apply Permutation_refl|].
  eapply Permutation_trans; [apply perm_skip, IH | apply perm_swap].
Qed.

Lemma insertion_sort_perm leb l : Permutation (SortSpec.insertion_sort leb l) l.
Proof.
  induction l as [|p l IH]; simpl; [constructor|].
  eapply Permutation_trans; [apply insert_perm | now apply perm_skip].
Qed.

Section InsertionSorted.

Variable leb : nat -> nat -> bool.
Hypothesis leb_total : forall a b, leb a b = true \/ leb b a = true.
Hypothesis leb_trans : forall a b c, leb a b = true -> leb b c = true -> leb a c = true.

Let R (p q : nat * nat) : Prop := leb (fst p) (fst q) = true.

Lemma insert_sorted p l :
  StronglySorted R l -> StronglySorted R (SortSpec.insert leb p l).
Proof.
  induction 1 as [|q l Hl IH Hq]; simpl.
  - constructor; constructor.
  - destruct (leb (fst p) (fst q)) eqn:E.
    + constructor; [now constructor|].
      constructor; [exact E|].
      eapply Forall_impl; [|exact Hq]. intros r Hr. unfold R in *.
      now apply leb_trans with (b := fst q).
    + constructor; [exact IH|].
      apply Forall_forall. intros r Hr.
      apply (Permutation_in _ (insert_perm leb p l)) in Hr.
      destruct Hr as [<-|Hr].
      * unfold R. destruct (leb_total (fst p) (fst q)); congruence.
      * rewrite Forall_forall in Hq. now apply Hq.
Qed.

Lemma insertion_sort_sorted l : StronglySorted R (SortSpec.insertion_sort leb l).
Proof.
  induction l; simpl; [constructor | now apply insert_sorted].
Qed.

Lemma sorted_map_fst (Q : nat -> nat -> Prop) l :
  (forall a b, leb a b = true -> Q a b) ->
  StronglySorted R l -> StronglySorted Q (map fst l).
Proof.
  intros HQ. induction 1 as [|q l Hl IH Hq]; simpl; constructor; [exact IH|].
  apply Forall_map. eapply Forall_impl; [|exact Hq]. intros r Hr. now apply HQ.
Qed.

End InsertionSorted.

Lemma map_snd_combine {A B : Type} (l : list A) (l' : list B) :
  length l = length l' -> map snd (combine l l') = l'.
Proof.
  revert l'; induction l as [|a l IH]; intros [|b l'] H; simpl in *; try discriminate; auto.
  f_equal. apply IH. lia.
Qed.

Lemma combine_seq_values (l : list nat) :
  Forall (fun p => fst p = nth (snd p) l 0%nat) (combine l (seq 0 (length l))).
Proof.
  apply Forall_forall. intros [v i] Hin.
  destruct (In_nth _ _ (0%nat, 0%nat) Hin) as (k & Hk & E).
  rewrite length_combine, length_seq, Nat.min_id in Hk.
  rewrite combine_nth in E by (now rewrite length_seq).
  rewrite seq_nth in E by lia. inversion E; subst. reflexivity.
Qed.

Lemma argsort_is_torch_sort : SortSpec.torch_sort SortSpec.argsort.
Proof.
  intros descending l. unfold SortSpec.argsort. simpl.
  set (leb := if descending then (fun a b => (b <=? a)%nat) else Nat.leb).
  set (pairs := combine l (seq 0 (length l))).
  pose proof (insertion_sort_perm leb pairs) as P.
  split; [|split].
  - eapply Permutation_trans; [apply Permutation_map, P|].
    unfold pairs. rewrite map_snd_combine by (now rewrite length_seq).
    apply Permutation_refl.
  - pose proof (combine_seq_values l) as Hv. fold pairs in Hv.
    apply (Permutation_Forall (Permutation_sym P)) in Hv.
    rewrite map_map. apply map_ext_Forall with (1 := Hv). auto.
  - assert (Htot : forall a b, leb a b = true \/ leb b a = true).
    { intros a b. unfold leb. destruct descending.
      - destruct (Nat.leb_spec b a), (Nat.leb_spec a b); auto; lia.
      - destruct (Nat.leb_spec a b), (Nat.leb_spec b a); auto; lia. }
    assert (Htr : forall a b c, leb a b = true -> leb b c = true -> leb a c = true).
    { intros a b c. unfold leb. destruct descending; rewrite !Nat.leb_le; lia. }
    pose proof (@insertion_sort_sorted leb Htot Htr pairs) as Hs.
    unfold SortSpec.ordered. destruct descending.
    + apply (@sorted_map_fst leb ge); [|exact Hs].
      intros a b. unfold leb. rewrite Nat.leb_le. lia.
    + apply (@sorted_map_fst leb le); [|exact Hs].
      intros a b. unfold leb. rewrite Nat.leb_le. lia.
Qed.

(** C3.  For each of the five recognised values of [rnn_type], whose cell
    (the one the constructor call for this value returns) maps packed input
    to packed output of width [2 * hidden_size], and every padded batch [x]
    of shape (B, L, input_size) with true lengths between 1 and L, the module
    built by [__init__] runs, in training and in eval mode, the same
    procedure: the batch is sorted by decreasing length and packed, so that
    the cell receives exactly the real positions (as many rows as the lengths
    add up to, none from the padding); the cell runs; its output is unpacked
    to the padded length [L], zeros in every trailing position, and put back
    in the original batch order, which gives a tensor [y0] whose row at a
    real position is the row the cell returned for it; the result [y] is the
    dropout of [y0], in the mode of the module.  It has shape
    (B, L, 2 * hidden_size), is [y0] itself in eval mode, is zero at every
    trailing position in both modes, and does not depend on what the padding
    of [x] holds. *)
Theorem rnn_encoder_contract
    sort nn_LSTM nn_RNN nn_GRU EURNNCell GORUCell
    input_size hidden_size num_layers rnn_type (drop_prob : R)
    B L (x : ten3) (lengths : list nat) :
  SortSpec.torch_sort sort ->
  In rnn_type RNNSpec.supported ->
  (forall c,
     In (rnn_type, c)
        (RNNSpec.constructor_calls nn_LSTM nn_RNN nn_GRU EURNNCell GORUCell
           input_size hidden_size num_layers drop_prob) ->
     exists cell, c = Ok cell /\ RNNSpec.cell_contract input_size hidden_size cell) ->
  0 <= drop_prob <= 1 ->
  shape3 B L input_size x -> (0 < B)%nat -> length lengths = B ->
  Forall (fun l => (0 < l <= L)%nat) lengths ->
  exists m cell,
    RNNEncoder.__init__ nn_LSTM nn_RNN nn_GRU EURNNCell GORUCell
      input_size hidden_size num_layers rnn_type drop_prob = Ok m /\
    RNNEncoder.rnn m = Some cell /\
    forall m' keep, In m' [m; RNNEncoder.eval m] ->
      exists out y,
        RNNEncoder.pack_padded_sequence
          (RNNEncoder.index_select [] x (snd (sort true lengths)))
          (fst (sort true lengths)) = Ok (packed_input sort x lengths) /\
        StronglySorted ge (fst (sort true lengths)) /\
        length (RNNEncoder.data (packed_input sort x lengths)) = list_sum lengths /\
        (forall b t, (b < B)%nat -> (t < nth b lengths 0)%nat ->
           nth (RNNEncoder.offset (RNNEncoder.batch_sizes out) t + rank sort lengths b)
               (RNNEncoder.data (packed_input sort x lengths)) []
           = nth t (nth b x []) []) /\
        cell (packed_input sort x lengths) = Ok out /\
        RNNEncoder.forward sort m' keep x lengths = Ok y /\
        shape3 B L (2 * hidden_size) y /\
        (exists y0 : ten3,
           shape3 B L (2 * hidden_size) y0 /\
           (forall b t, (b < B)%nat -> (t < L)%nat ->
              nth t (nth b y0 []) []
              = if (t <? nth b lengths 0)%nat
                then nth (RNNEncoder.offset (RNNEncoder.batch_sizes out) t
                          + rank sort lengths b)
                         (RNNEncoder.data out) (Torch.zeros (2 * hidden_size))
                else Torch.zeros (2 * hidden_size)) /\
           Torch.dropout y0 drop_prob (RNNEncoder.training m') keep = Ok y) /\
        (RNNEncoder.training m' = false ->
         forall b t, (b < B)%nat -> (t < nth b lengths 0)%nat ->
           nth t (nth b y []) []
           = nth (RNNEncoder.offset (RNNEncoder.batch_sizes out) t + rank sort lengths b)
                 (RNNEncoder.data out) (Torch.zeros (2 * hidden_size))) /\
        (forall b t, (b < B)%nat -> (nth b lengths 0 <= t < L)%nat ->
           nth t (nth b y []) [] = Torch.zeros (2 * hidden_size)) /\
        (forall x', shape3 B L input_size x' ->
           (forall b t, (b < B)%nat -> (t < nth b lengths 0)%nat ->
              nth t (nth b x' []) [] = nth t (nth b x []) []) ->
           RNNEncoder.forward sort m' keep x' lengths = Ok y).
Proof.
  intros Hsort Hin Hctor Hp Hx HB Hlen Hpos.
  destruct (@init_supported nn_LSTM nn_RNN nn_GRU EURNNCell GORUCell
              input_size hidden_size num_layers rnn_type drop_prob
              (RNNSpec.cell_contract input_size hidden_size) Hin Hctor)
    as (cell & Einit & Hcell).
  eexists. exists cell. split; [exact Einit|]. split; [reflexivity|].
  intros m' keep Hm'.
  assert (Hrnn : RNNEncoder.rnn m' = Some cell)
    by (destruct Hm' as [<-|[<-|[]]]; reflexivity).
  assert (Hp' : 0 <= RNNEncoder.drop_prob m' <= 1)
    by (destruct Hm' as [<-|[<-|[]]]; exact Hp).
  destruct (@encoder_forward_ok sort input_size hidden_size B L m' cell keep x lengths
              Hsort Hcell Hrnn Hx HB Hlen Hpos Hp')
    as (out & y & Eout & Hbs & Hrows & Edrop & Efwd & Sy).
  assert (Hus : shape3 B L (2 * hidden_size)
                  (unsorted_output sort hidden_size B L lengths out)).
  { destruct (Hcell _ (packed_rows Hsort Hx HB Hlen Hpos)) as (out' & Eout' & _ & _ & Hw).
    rewrite Eout in Eout'. inversion Eout'; subst out'.
    eapply unsorted_shape; eassumption. }
  assert (Hun : forall b t, (b < B)%nat -> (t < L)%nat ->
            nth t (nth b (unsorted_output sort hidden_size B L lengths out) []) []
            = if (t <? nth b lengths 0%nat)%nat
              then nth (RNNEncoder.offset (RNNEncoder.batch_sizes out) t
                        + rank sort lengths b)
                       (RNNEncoder.data out) (Torch.zeros (2 * hidden_size))
              else Torch.zeros (2 * hidden_size)).
  { intros b t Hb Ht.
    exact (unsorted_nth Hsort hidden_size lengths Hx HB Hlen out Hbs Hrows Hb Ht). }
  assert (HlenL : forall b, (b < B)%nat -> (nth b lengths 0 <= L)%nat).
  { intros b Hb. rewrite Forall_forall in Hpos.
    apply (Hpos (nth b lengths 0%nat)). apply nth_In. lia. }
  exists out, y.
  split; [eapply pack_ok; eassumption|].
  split; [eapply lens_sorted; eassumption|].
  split; [eapply packed_length; eassumption|].
  split; [intros b t Hb Ht; eapply packed_real_position; eassumption|].
  split; [exact Eout|]. split; [exact Efwd|]. split; [exact Sy|].
  split.
  { exists (unsorted_output sort hidden_size B L lengths out).
    split; [exact Hus|]. split; [exact Hun|].
    destruct Hm' as [<-|[<-|[]]]; exact Edrop. }
  split; [|split].
  - intros Hev b t Hb Ht. rewrite Hev, dropout_eval in Edrop by exact Hp'.
    inversion Edrop; subst y. specialize (HlenL b Hb).
    rewrite Hun by lia.
    destruct (Nat.ltb_spec t (nth b lengths 0%nat)); [reflexivity | lia].
  - intros b t Hb Ht.
    eapply dropout_zero_row; [exact Hus | exact Hb | | exact Edrop |]; [lia|].
    rewrite Hun by lia.
    destruct (Nat.ltb_spec t (nth b lengths 0%nat)); [lia | reflexivity].
  - intros x' Hx' Hreal.
    destruct (@encoder_forward_ok sort input_size hidden_size B L m' cell keep x' lengths
                Hsort Hcell Hrnn Hx' HB Hlen Hpos Hp')
      as (out' & y' & Eout' & _ & _ & Edrop' & Efwd' & _).
    rewrite (@packed_input_ext sort input_size B L x x' lengths
               Hsort Hx Hx' HB Hlen Hreal) in Eout'.
    rewrite Eout in Eout'. inversion Eout'; subst out'.
    rewrite Edrop in Edrop'. inversion Edrop'; subst y'. exact Efwd'.
Qed.

(** A cell for the examples: both directions return the sum of the
    features of the row. *)
Definition example_cell (hidden_size : nat) : RNNEncoder.rnn_module :=
  fun p =>
    Ok {| RNNEncoder.data :=
            map (fun r => repeat (Torch.Rsum r) (2 * hidden_size)) (RNNEncoder.data p);
          RNNEncoder.batch_sizes := RNNEncoder.batch_sizes p |}.

Lemma example_cell_contract input_size hidden_size :
  RNNSpec.cell_contract input_size hidden_size (example_cell hidden_size).
Proof.
  intros p _. eexists. split; [reflexivity|]. simpl.
  split; [reflexivity|]. split; [apply length_map|].
  apply Forall_map, Forall_forall. intros r _. apply repeat_length.
Qed.

Module Examples.

Local Open Scope string_scope.

Definition gru : String.string := "GRU".
Definition lstm : String.string := "LSTM".
Definition unknown : String.string := "Transformer".

End Examples.

Definition example_batch : ten3 := [[[1]; [2]; [0]]; [[3]; [4]; [5]]].

Lemma rnn_encoder_contract_witness :
  exists m y,
    RNNEncoder.__init__
      (fun _ h _ _ => Ok (example_cell h)) (fun _ h _ _ => Ok (example_cell h))
      (fun _ h _ _ => Ok (example_cell h))
      (fun _ h _ => Ok (example_cell h)) (fun _ h _ => Ok (example_cell h))
      1 1 1 Examples.gru 0 = Ok m /\
    RNNEncoder.forward SortSpec.argsort m (fun _ _ _ => true)
      example_batch [2%nat; 3%nat] = Ok y /\
    shape3 2 3 2 y.
Proof.
  assert (Hx : @shape3 R 2 3 1 example_batch) by shape_tac.
  assert (Hin : In Examples.gru RNNSpec.supported) by (simpl; auto).
  assert (Hpos : Forall (fun l => (0 < l <= 3)%nat) [2%nat; 3%nat])
    by (repeat constructor).
  destruct (@rnn_encoder_contract SortSpec.argsort
              (fun _ h _ _ => Ok (example_cell h)) (fun _ h _ _ => Ok (example_cell h))
              (fun _ h _ _ => Ok (example_cell h))
              (fun _ h _ => Ok (example_cell h)) (fun _ h _ => Ok (example_cell h))
              1%nat 1%nat 1%nat Examples.gru 0 2%nat 3%nat example_batch [2%nat; 3%nat]
              argsort_is_torch_sort Hin)
    as (m & cell & Einit & _ & Hfwd); try assumption; try reflexivity; try lia.
  - intros c Hc. exists (example_cell 1). split; [|apply example_cell_contract].
    unfold RNNSpec.constructor_calls in Hc.
    repeat (destruct Hc as [E|Hc]; [congruence|]).
    contradiction.
  - lra.
  - destruct (Hfwd m (fun _ _ _ => true) (or_introl eq_refl))
      as (out & y & _ & _ & _ & _ & _ & Efwd & Sy & _).
    exists m, y. split; [exact Einit|]. split; [exact Efwd | exact Sy].
Defined.

(** ** Construction of RNNEncoder *)

(** A constructor of the library's recurrent modules: it rejects a dropout
    rate outside [0, 1]. *)
Definition checked_ctor (input_size hidden_size num_layers : nat) (dropout : R)
    : result RNNEncoder.rnn_module :=
  if Rlt_dec dropout 0 then Raise ValueError
  else if Rlt_dec 1 dropout then Raise ValueError
  else Ok (example_cell hidden_size).

Definition failing_ctor (input_size hidden_size capacity : nat)
    : result RNNEncoder.rnn_module :=
  Raise RuntimeError.

Lemma unknown_not_supported : ~ In Examples.unknown RNNSpec.supported.
Proof.
  unfold RNNSpec.supported, Examples.unknown. simpl.
  intros H. repeat (destruct H as [H|H]; [discriminate|]). exact H.
Qed.

(** An unrecognised [rnn_type] and a dropout rate of 2 are both accepted by
    the constructor: no error is raised at construction time. *)
Lemma init_accepts_bad_configuration :
  ~ In Examples.unknown RNNSpec.supported /\
  ~ (0 <= 2 < 1) /\
  RNNEncoder.__init__ checked_ctor checked_ctor checked_ctor failing_ctor failing_ctor
    4 4 1 Examples.unknown 2
  = Ok {| RNNEncoder.drop_prob := 2; RNNEncoder.training := true;
          RNNEncoder.rnn := None |} /\
  RNNEncoder.__init__ checked_ctor checked_ctor checked_ctor failing_ctor failing_ctor
    4 4 1 Examples.lstm 2
  = Ok {| RNNEncoder.drop_prob := 2; RNNEncoder.training := true;
          RNNEncoder.rnn := Some (example_cell 4) |}.
Proof.
  split; [|split; [|split]].
  - exact unknown_not_supported.
  - lra.
  - reflexivity.
  - unfold RNNEncoder.__init__, Examples.lstm, checked_ctor. simpl.
    destruct (Rlt_dec 0 0); [lra|]. destruct (Rlt_dec 1 0); [lra|]. reflexivity.
Qed.

Lemma init_unrecognised nn_LSTM nn_RNN nn_GRU EURNNCell GORUCell
    input_size hidden_size num_layers rnn_type (p : R) :
  ~ In rnn_type RNNSpec.supported ->
  RNNEncoder.__init__ nn_LSTM nn_RNN nn_GRU EURNNCell GORUCell
    input_size hidden_size num_layers rnn_type p
  = Ok {| RNNEncoder.drop_prob := p; RNNEncoder.training := true;
          RNNEncoder.rnn := None |}.
Proof.
  intros Hnot. unfold RNNEncoder.__init__, RNNSpec.supported in *.
  repeat match goal with
  | |- context [String.eqb rnn_type ?s] =>
      destruct (String.eqb_spec rnn_type s) as [E|_];
      [exfalso; apply Hnot; rewrite E; simpl; tauto|]
  end.
  reflexivity.
Qed.

Lemma forward_without_cell sort (m : RNNEncoder.t) keep (x : ten3) lengths :
  RNNEncoder.rnn m = None ->
  exists e, RNNEncoder.forward sort m keep x lengths = Raise e.
Proof.
  intros Hnone. unfold RNNEncoder.forward.
  destruct (sort true lengths) as [lens sidx].
  destruct (RNNEncoder.pack_padded_sequence _ lens) as [packed|e]; simpl.
  - rewrite Hnone. now exists AttributeError.
  - now exists e.
Qed.

Lemma forward_bad_rate sort (m : RNNEncoder.t) keep (x : ten3) lengths :
  RNNEncoder.drop_prob m < 0 \/ 1 < RNNEncoder.drop_prob m ->
  exists e, RNNEncoder.forward sort m keep x lengths = Raise e.
Proof.
  intros Hp. unfold RNNEncoder.forward.
  destruct (sort true lengths) as [lens sidx].
  destruct (RNNEncoder.pack_padded_sequence _ lens) as [packed|e]; simpl;
    [|now exists e].
  destruct (RNNEncoder.rnn m) as [cell|]; [|now exists AttributeError].
  destruct (cell packed) as [out|e]; simpl; [|now exists e].
  destruct (RNNEncoder.pad_packed_sequence out _) as [padded|e]; simpl; [|now exists e].
  destruct (sort false sidx) as [v uidx].
  unfold Torch.dropout.
  destruct (Rlt_dec (RNNEncoder.drop_prob m) 0); [now exists ValueError|].
  destruct (Rlt_dec 1 (RNNEncoder.drop_prob m)); [now exists ValueError|].
  lra.
Qed.

(** C5, as the code has it.  [RNNEncoder.__init__] validates neither
    argument.  For an [rnn_type] outside the recognised set it succeeds,
    whatever the dropout rate, and builds a module without a recurrent
    cell: the failure comes with the first [forward] call, which raises on
    every input.  The dropout rate is stored as it is; it reaches a cell
    constructor only for more than one layer of 'LSTM', 'RNN' or 'GRU', so with
    at most one layer construction succeeds or fails whatever the rate; a
    rate below 0 or above 1 makes every [forward] call raise. *)
Theorem rnn_encoder_configuration_is_checked_late
    sort nn_LSTM nn_RNN nn_GRU EURNNCell GORUCell
    input_size hidden_size num_layers rnn_type :
  (~ In rnn_type RNNSpec.supported ->
   forall p, exists m,
     RNNEncoder.__init__ nn_LSTM nn_RNN nn_GRU EURNNCell GORUCell
       input_size hidden_size num_layers rnn_type p = Ok m /\
     RNNEncoder.rnn m = None /\ RNNEncoder.drop_prob m = p /\
     forall keep (x : ten3) lengths,
       exists e, RNNEncoder.forward sort m keep x lengths = Raise e) /\
  ((num_layers <= 1)%nat ->
   forall p p' e,
     RNNEncoder.__init__ nn_LSTM nn_RNN nn_GRU EURNNCell GORUCell
       input_size hidden_size num_layers rnn_type p = Raise e <->
     RNNEncoder.__init__ nn_LSTM nn_RNN nn_GRU EURNNCell GORUCell
       input_size hidden_size num_layers rnn_type p' = Raise e) /\
  (forall p m,
     RNNEncoder.__init__ nn_LSTM nn_RNN nn_GRU EURNNCell GORUCell
       input_size hidden_size num_layers rnn_type p = Ok m ->
     RNNEncoder.drop_prob m = p /\
     (p < 0 \/ 1 < p ->
      forall keep (x : ten3) lengths,
        exists e, RNNEncoder.forward sort m keep x lengths = Raise e)).
Proof.
  split; [|split].
  - intros Hnot p. eexists. split; [now apply init_unrecognised|].
    split; [reflexivity|]. split; [reflexivity|].
    intros keep x lengths. now apply forward_without_cell.
  - intros Hn p p' e. unfold RNNEncoder.__init__.
    destruct (Nat.ltb_spec 1 num_layers) as [|_]; [lia|].
    repeat match goal with
    | |- context [String.eqb rnn_type ?s] => destruct (String.eqb rnn_type s)
    end;
    repeat match goal with
    | |- context [bind ?c _] => destruct c; simpl
    end; split; intros E; try discriminate E; try exact E.
  - intros p m E.
    assert (Hp : RNNEncoder.drop_prob m = p).
    { unfold RNNEncoder.__init__ in E.
      repeat match type of E with
      | context [String.eqb rnn_type ?s] => destruct (String.eqb rnn_type s)
      end;
      repeat match type of E with
      | context [bind ?c _] => destruct c; simpl in E
      end; try discriminate E; inversion E; reflexivity. }
    split; [exact Hp|]. intros Hbad keep x lengths.
    apply forward_bad_rate. now rewrite Hp.
Qed.

Lemma rnn_encoder_configuration_is_checked_late_witness :
  exists m,
    RNNEncoder.__init__ checked_ctor checked_ctor checked_ctor failing_ctor failing_ctor
      4 4 1 Examples.unknown 2 = Ok m /\
    exists e, RNNEncoder.forward SortSpec.argsort m (fun _ _ _ => true)
                example_batch [2%nat; 3%nat] = Raise e.
Proof.
  destruct (@rnn_encoder_configuration_is_checked_late SortSpec.argsort
              checked_ctor checked_ctor checked_ctor failing_ctor failing_ctor
              4%nat 4%nat 1%nat Examples.unknown) as (H & _).
  destruct (H unknown_not_supported 2) as (m & E & _ & _ & F).
  exists m. split; [exact E | apply F].
Defined.

(** ** The masked softmax of one row *)

(** The unnormalised masses of a row. *)
Definition masses (logits : vec) (mask : list bool) : vec :=
  map2 (fun x (valid : bool) => if valid then exp x else 0) logits mask.

Lemma masses_nth (logits : vec) (mask : list bool) j :
  (j < length logits)%nat -> (j < length mask)%nat ->
  nth j (masses logits mask) 0
  = if nth j mask false then exp (nth j logits 0) else 0.
Proof.
  intros H1 H2. unfold masses. now rewrite (map2_nth _ _ _ 0 false) by assumption.
Qed.

Lemma masses_nonneg (logits : vec) (mask : list bool) :
  Forall (fun e => 0 <= e) (masses logits mask).
Proof.
  unfold masses. revert mask. induction logits as [|x l IH]; intros [|v mask]; simpl;
    try constructor; [|apply IH].
  destruct v; [left; apply exp_pos | lra].
Qed.

Lemma Rsum_nonneg (l : vec) : Forall (fun e => 0 <= e) l -> 0 <= Torch.Rsum l.
Proof.
  induction 1; simpl; lra.
Qed.

Lemma Rsum_pos (l : vec) v :
  Forall (fun e => 0 <= e) l -> In v l -> 0 < v -> 0 < Torch.Rsum l.
Proof.
  induction 1 as [|a l Ha Hl IH]; intros Hin Hv; [contradiction|].
  simpl. pose proof (Rsum_nonneg Hl). destruct Hin as [->|Hin]; [lra|].
  specialize (IH Hin Hv). lra.
Qed.

(** With a valid position the normaliser is positive: no division by
    zero. *)
Lemma normaliser_pos (logits : vec) (mask : list bool) :
  length logits = length mask ->
  existsb (fun valid : bool => valid) mask = true ->
  0 < Torch.Rsum (masses logits mask).
Proof.
  intros Hlen Hex. apply existsb_exists in Hex. destruct Hex as (v & Hin & Hv).
  subst v. destruct (In_nth _ _ false Hin) as (k & Hk & Ek).
  apply Rsum_pos with (v := exp (nth k logits 0)).
  - apply masses_nonneg.
  - assert (E : nth k (masses logits mask) 0 = exp (nth k logits 0))
      by (rewrite masses_nth, Ek by lia; reflexivity).
    rewrite <- E. apply nth_In. unfold masses. rewrite map2_length. lia.
  - apply exp_pos.
Qed.

Lemma all_invalid_existsb (mask : list bool) :
  (forall j, (j < length mask)%nat -> nth j mask true = false) ->
  existsb (fun valid : bool => valid) mask = false.
Proof.
  intros H. apply not_true_is_false. intros Hex.
  apply existsb_exists in Hex. destruct Hex as (v & Hin & Hv). subst v.
  destruct (In_nth _ _ true Hin) as (k & Hk & Ek).
  rewrite (H k Hk) in Ek. discriminate.
Qed.

Lemma row_entry (logits : vec) (mask : list bool) j :
  length logits = length mask -> (j < length mask)%nat ->
  nth j (Util.masked_softmax_row logits mask) (Util.Fin 0)
  = if existsb (fun valid : bool => valid) mask
    then Util.Fin (nth j (masses logits mask) 0 / Torch.Rsum (masses logits mask))
    else Util.Fin 0.
Proof.
  intros Hlen Hj. unfold Util.masked_softmax_row. fold (masses logits mask).
  assert (Hm : (j < length (masses logits mask))%nat)
    by (unfold masses; rewrite map2_length; lia).
  destruct (existsb _ mask) eqn:Hex.
  - rewrite (nth_map_lt _ _ 0) by exact Hm.
    pose proof (normaliser_pos logits mask Hlen Hex) as Hz.
    unfold Util.fdiv. destruct (Req_dec_T _ 0); [lra | reflexivity].
  - now rewrite (nth_map_lt _ _ 0) by exact Hm.
Qed.

Lemma row_finite (logits : vec) (mask : list bool) j :
  length logits = length mask -> (j < length mask)%nat ->
  Util.is_finite (nth j (Util.masked_softmax_row logits mask) (Util.Fin 0)).
Proof.
  intros Hlen Hj. rewrite row_entry by assumption.
  destruct (existsb _ mask); exact I.
Qed.

Lemma row_invalid (logits : vec) (mask : list bool) j :
  length logits = length mask -> (j < length mask)%nat ->
  nth j mask true = false ->
  nth j (Util.masked_softmax_row logits mask) (Util.Fin 0) = Util.Fin 0.
Proof.
  intros Hlen Hj Hinv. rewrite row_entry by assumption.
  destruct (existsb _ mask); [|reflexivity].
  rewrite masses_nth by lia.
  rewrite (nth_indep mask false true) by exact Hj. rewrite Hinv.
  f_equal. unfold Rdiv. apply Rmult_0_l.
Qed.


Lemma Rsum_scale (l : vec) (z : R) :
  Torch.Rsum (map (fun e => e / z) l) = Torch.Rsum l / z.
Proof.
  induction l as [|a l IH]; simpl; [unfold Rdiv; now rewrite Rmult_0_l|].
  rewrite IH. unfold Rdiv. ring.
Qed.

(** With a valid position the row is a probability distribution. *)
Lemma row_sums_to_one (logits : vec) (mask : list bool) :
  length logits = length mask ->
  existsb (fun valid : bool => valid) mask = true ->
  Torch.Rsum (map Util.value (Util.masked_softmax_row logits mask)) = 1.
Proof.
  intros Hlen Hex. pose proof (normaliser_pos logits mask Hlen Hex) as Hz.
  unfold Util.masked_softmax_row. fold (masses logits mask). rewrite Hex, map_map.
  rewrite (map_ext _ (fun e => e / Torch.Rsum (masses logits mask))).
  - rewrite Rsum_scale. field. lra.
  - intros e. unfold Util.fdiv. destruct (Req_dec_T _ 0); [lra | reflexivity].
Qed.

Lemma row_log (logits : vec) (mask : list bool) j :
  length logits = length mask -> (j < length mask)%nat ->
  Util.flog (nth j (Util.masked_softmax_row logits mask) (Util.Fin 0)) <> Util.LNaN /\
  (nth j mask true = false ->
   Util.flog (nth j (Util.masked_softmax_row logits mask) (Util.Fin 0)) = Util.ZeroMass).
Proof.
  intros Hlen Hj. split.
  - rewrite row_entry by assumption. destruct (existsb _ mask) eqn:Hex; simpl.
    + pose proof (normaliser_pos logits mask Hlen Hex) as Hz.
      assert (Hn : 0 <= nth j (masses logits mask) 0).
      { pose proof (masses_nonneg logits mask) as Hf. rewrite Forall_forall in Hf.
        apply Hf, nth_In. unfold masses. rewrite map2_length. lia. }
      assert (Hq : 0 <= nth j (masses logits mask) 0 / Torch.Rsum (masses logits mask)).
      { unfold Rdiv. apply Rmult_le_pos; [exact Hn|].
        left. now apply Rinv_0_lt_compat. }
      destruct (Rlt_dec 0 _); [discriminate|].
      destruct (Req_dec_T _ 0); [discriminate | lra].
    + destruct (Rlt_dec 0 0); [lra|]. destruct (Req_dec_T 0 0); [discriminate | lra].
  - intros Hinv. rewrite row_invalid by assumption. simpl.
    destruct (Rlt_dec 0 0); [lra|]. destruct (Req_dec_T 0 0); [reflexivity | lra].
Qed.

(** ** BiDAFOutput *)

Module OutputSpec.

(** An instance built by [BiDAFOutput(hidden_size, drop_prob)], whose
    encoder holds an LSTM cell that meets the contract of the cells. *)
Definition wf (hidden_size : nat) (p : R) (m : BiDAFOutput.t) : Prop :=
  Torch.Linear_wf (8 * hidden_size) 1 true (BiDAFOutput.att_linear_1 m) /\
  Torch.Linear_wf (2 * hidden_size) 1 true (BiDAFOutput.mod_linear_1 m) /\
  Torch.Linear_wf (8 * hidden_size) 1 true (BiDAFOutput.att_linear_2 m) /\
  Torch.Linear_wf (2 * hidden_size) 1 true (BiDAFOutput.mod_linear_2 m) /\
  RNNEncoder.drop_prob (BiDAFOutput.rnn m) = p /\
  exists cell,
    RNNEncoder.rnn (BiDAFOutput.rnn m) = Some cell /\
    RNNSpec.cell_contract (2 * hidden_size) hidden_size cell.

(** The logits as a matrix: the last axis, of length one, dropped. *)
Definition as_matrix (logits : ten3) : mat := map (map (hd 0)) logits.

(** Every example has a valid position. *)
Definition no_empty_row (mask : list (list bool)) : Prop :=
  Forall (fun r => existsb (fun v : bool => v) r = true) mask.

End OutputSpec.

Lemma linear_shape n_in n_out hb (l : Torch.Linear) B L (x : ten3) :
  Torch.Linear_wf n_in n_out hb l -> shape3 B L n_in x ->
  shape3 B L n_out (Torch.linear l x).
Proof.
  intros Hl Hx. unfold Torch.linear.
  apply shape3_map_rows with (p := n_in); [|exact Hx].
  intros r _. unfold shape1. now apply linear_vec_length with (n_in := n_in) (hb := hb).
Qed.

Lemma squeeze_many {A : Type} (l : list (Dyn.tensor A)) :
  length l <> 1%nat -> Dyn.squeeze (Dyn.Nest l) = Dyn.Nest (map Dyn.squeeze l).
Proof.
  intros H. destruct l as [|y [|z l]]; simpl in *; try reflexivity. congruence.
Qed.

Lemma squeeze_regular B L (x : ten3) :
  shape3 B L 1 x -> (2 <= B)%nat -> (2 <= L)%nat ->
  Dyn.squeeze (Dyn.of_ten3 x) = Dyn.of_mat (OutputSpec.as_matrix x).
Proof.
  intros Hx HB HL. apply shape3_elim in Hx. destruct Hx as [Bx Hx].
  unfold Dyn.of_ten3, Dyn.of_mat, OutputSpec.as_matrix.
  rewrite squeeze_many by (rewrite length_map; lia).
  f_equal. rewrite !map_map. apply map_ext_in. intros xb Hin.
  destruct (Hx xb Hin) as [Lb Hr]. unfold Dyn.of_mat.
  rewrite squeeze_many by (rewrite length_map; lia).
  unfold Dyn.of_vec. f_equal. rewrite !map_map. apply map_ext_in. intros r Hr'.
  specialize (Hr r Hr'). destruct r as [|v [|w r]]; simpl in Hr; try discriminate.
  reflexivity.
Qed.

Lemma all_some_map {A B : Type} (f : A -> option B) (g : A -> B) (l : list A) :
  (forall a, f a = Some (g a)) -> Dyn.all_some (map f l) = Some (map g l).
Proof.
  intros H. induction l as [|a l IH]; simpl; [reflexivity|]. now rewrite H, IH.
Qed.

Lemma as_mat_of_mat {A : Type} (x : list (list A)) :
  Dyn.as_mat (Dyn.of_mat x) = Some x.
Proof.
  unfold Dyn.of_mat. simpl. rewrite map_map.
  rewrite (all_some_map _ (fun r => r)); [now rewrite map_id|].
  intros r. unfold Dyn.of_vec. simpl. rewrite map_map. simpl.
  rewrite (all_some_map _ (fun v => v)); [now rewrite map_id | reflexivity].
Qed.

Lemma same_shape_true {A B : Type} n m (x : list (list A)) (y : list (list B)) :
  shape2 n m x -> shape2 n m y -> BiDAFOutput.same_shape x y = true.
Proof.
  intros [Hx Fx] [Hy Fy]. unfold BiDAFOutput.same_shape.
  rewrite Hx, Hy, Nat.eqb_refl. simpl.
  apply forallb_forall. intros [r r'] Hin.
  rewrite Forall_forall in Fx, Fy.
  pose proof (in_combine_l _ _ _ _ Hin) as H1.
  pose proof (in_combine_r _ _ _ _ Hin) as H2.
  simpl. rewrite (Fx r H1), (Fy r' H2). apply Nat.eqb_refl.
Qed.

Lemma as_matrix_shape B L (x : ten3) :
  shape3 B L 1 x -> shape2 B L (OutputSpec.as_matrix x).
Proof.
  intros [Bx Hx]. unfold OutputSpec.as_matrix. split; [now rewrite length_map|].
  apply Forall_map. eapply Forall_impl; [|exact Hx].
  intros xb [Lb _]. unfold shape1. now rewrite length_map.
Qed.

(** On a batch of at least two examples of at least two positions the
    squeezed logits keep the shape of the mask. *)
Lemma output_softmax_regular unspecified B L (x : ten3) (mask : list (list bool)) :
  shape3 B L 1 x -> shape2 B L mask -> (2 <= B)%nat -> (2 <= L)%nat ->
  BiDAFOutput.masked_softmax unspecified (Dyn.squeeze (Dyn.of_ten3 x)) mask
  = Dyn.of_mat (Util.masked_log_softmax (OutputSpec.as_matrix x) mask).
Proof.
  intros Hx Hm HB HL. unfold BiDAFOutput.masked_softmax.
  rewrite (squeeze_regular Hx HB HL), as_mat_of_mat.
  now rewrite (same_shape_true (as_matrix_shape Hx) Hm).
Qed.

Lemma mask_sum_bounds B L (mask : list (list bool)) :
  shape2 B L mask -> OutputSpec.no_empty_row mask ->
  length (BiDAFOutput.mask_sum mask) = B /\
  Forall (fun l => (0 < l <= L)%nat) (BiDAFOutput.mask_sum mask).
Proof.
  intros [Bm Fm] Hne. unfold BiDAFOutput.mask_sum.
  split; [now rewrite length_map|].
  apply Forall_map, Forall_forall. intros r Hin.
  unfold OutputSpec.no_empty_row in Hne.
  rewrite Forall_forall in Fm, Hne. specialize (Fm r Hin). specialize (Hne r Hin).
  unfold shape1 in Fm. split.
  - apply existsb_exists in Hne. destruct Hne as (v & Hv & Ev).
    assert (Hf : In v (filter (fun v : bool => v) r)) by (apply filter_In; auto).
    destruct (filter (fun v : bool => v) r); [contradiction | simpl; lia].
  - rewrite <- Fm. apply filter_length_le.
Qed.

Lemma output_forward_regular sort unspecified H B L (m : BiDAFOutput.t) keep
    (att mod_ : ten3) (mask : list (list bool)) p :
  SortSpec.torch_sort sort -> OutputSpec.wf H p m -> 0 <= p <= 1 ->
  shape3 B L (8 * H) att -> shape3 B L (2 * H) mod_ ->
  shape2 B L mask -> OutputSpec.no_empty_row mask ->
  (2 <= B)%nat -> (2 <= L)%nat ->
  exists mod_2,
    RNNEncoder.forward sort (BiDAFOutput.rnn m) keep mod_ (BiDAFOutput.mask_sum mask)
    = Ok mod_2 /\
    shape3 B L 1 (BiDAFOutput.logits_1 m att mod_) /\
    shape3 B L 1 (BiDAFOutput.logits_2 m att mod_2) /\
    BiDAFOutput.forward sort unspecified m keep att mod_ mask
    = Ok (Dyn.of_mat (Util.masked_log_softmax
                        (OutputSpec.as_matrix (BiDAFOutput.logits_1 m att mod_)) mask),
          Dyn.of_mat (Util.masked_log_softmax
                        (OutputSpec.as_matrix (BiDAFOutput.logits_2 m att mod_2)) mask)).
Proof.
  intros Hsort (Ha1 & Hm1 & Ha2 & Hm2 & Hp & cell & Hrnn & Hcell) Hpr Hatt Hmod Hmask Hne HB HL.
  destruct (mask_sum_bounds Hmask Hne) as [Hlen Hpos].
  rewrite <- Hp in Hpr.
  destruct (@encoder_forward_ok sort (2 * H)%nat H B L (BiDAFOutput.rnn m) cell keep mod_
              (BiDAFOutput.mask_sum mask) Hsort Hcell Hrnn Hmod ltac:(lia) Hlen Hpos Hpr)
    as (out & mod_2 & _ & _ & _ & _ & Efwd & Smod2).
  exists mod_2.
  assert (S1 : shape3 B L 1 (BiDAFOutput.logits_1 m att mod_)).
  { unfold BiDAFOutput.logits_1, Torch.add. apply shape3_map2_3.
    - exact (linear_shape Ha1 Hatt).
    - exact (linear_shape Hm1 Hmod). }
  assert (S2 : shape3 B L 1 (BiDAFOutput.logits_2 m att mod_2)).
  { unfold BiDAFOutput.logits_2, Torch.add. apply shape3_map2_3.
    - exact (linear_shape Ha2 Hatt).
    - exact (linear_shape Hm2 Smod2). }
  split; [exact Efwd|]. split; [exact S1|]. split; [exact S2|].
  unfold BiDAFOutput.forward. rewrite Efwd. cbn [bind].
  now rewrite (output_softmax_regular unspecified S1 Hmask HB HL),
              (output_softmax_regular unspecified S2 Hmask HB HL).
Qed.

(** C4.  Whatever the scores, [masked_softmax] gives a position the mask
    marks invalid exactly zero mass, a row without a valid position the
    zero vector, and never a NaN or an infinity:
    - on every row: each entry is a number, an invalid entry is 0, and the
      entries of a row with a valid position add up to 1;
    - for [s1] and [s2] of [BiDAFAttention.forward], on the masks as
      [forward] views them: entry (i, j) of [s1] is 0 where position [j] of
      the query is invalid, entry (i, j) of [s2] is 0 where position [i] of
      the context is invalid;
    - for [log_p1] and [log_p2] of [BiDAFOutput.forward], on a batch whose
      squeezed logits keep the shape of the mask: an invalid position
      carries the zero-mass sentinel, whose mass is 0, and no entry is a
      NaN. *)
Theorem masked_softmax_gives_zero_mass :
  (forall (logits : vec) (mask : list bool),
     length logits = length mask ->
     (forall j, (j < length mask)%nat ->
        Util.is_finite (nth j (Util.masked_softmax_row logits mask) (Util.Fin 0)) /\
        (nth j mask true = false ->
         nth j (Util.masked_softmax_row logits mask) (Util.Fin 0) = Util.Fin 0)) /\
     ((forall k, (k < length mask)%nat -> nth k mask true = false) ->
      Util.masked_softmax_row logits mask = map (fun _ => Util.Fin 0) logits) /\
     (existsb (fun valid : bool => valid) mask = true ->
      Torch.Rsum (map Util.value (Util.masked_softmax_row logits mask)) = 1)) /\
  (forall B Lc Lq (s : ten3) (c_mask q_mask : list (list bool)),
     shape3 B Lc Lq s -> shape2 B Lc c_mask -> shape2 B Lq q_mask ->
     exists c3 q3,
       View.view3 B Lc 1 c_mask = Ok c3 /\
       View.view3 B 1 Lq q_mask = Ok q3 /\
       forall b i j, (b < B)%nat -> (i < Lc)%nat -> (j < Lq)%nat ->
         Util.is_finite
           (nth j (nth i (nth b (Util.masked_softmax s q3 Util.Dim2) []) []) (Util.Fin 0)) /\
         Util.is_finite
           (nth j (nth i (nth b (Util.masked_softmax s c3 Util.Dim1) []) []) (Util.Fin 0)) /\
         (nth j (nth b q_mask []) true = false ->
          nth j (nth i (nth b (Util.masked_softmax s q3 Util.Dim2) []) []) (Util.Fin 0)
          = Util.Fin 0) /\
         (nth i (nth b c_mask []) true = false ->
          nth j (nth i (nth b (Util.masked_softmax s c3 Util.Dim1) []) []) (Util.Fin 0)
          = Util.Fin 0)) /\
  (forall sort unspecified H B L (m : BiDAFOutput.t) keep (att mod_ : ten3)
          (mask : list (list bool)) p,
     SortSpec.torch_sort sort -> OutputSpec.wf H p m -> 0 <= p <= 1 ->
     shape3 B L (8 * H) att -> shape3 B L (2 * H) mod_ ->
     shape2 B L mask -> OutputSpec.no_empty_row mask ->
     (2 <= B)%nat -> (2 <= L)%nat ->
     exists log_p1 log_p2 : list (list Util.lval),
       BiDAFOutput.forward sort unspecified m keep att mod_ mask
       = Ok (Dyn.of_mat log_p1, Dyn.of_mat log_p2) /\
       forall b i, (b < B)%nat -> (i < L)%nat ->
         nth i (nth b log_p1 []) Util.LNaN <> Util.LNaN /\
         nth i (nth b log_p2 []) Util.LNaN <> Util.LNaN /\
         (nth i (nth b mask []) true = false ->
          nth i (nth b log_p1 []) Util.LNaN = Util.ZeroMass /\
          nth i (nth b log_p2 []) Util.LNaN = Util.ZeroMass /\
          Util.mass (nth i (nth b log_p1 []) Util.LNaN) = 0 /\
          Util.mass (nth i (nth b log_p2 []) Util.LNaN) = 0)).
Proof.
  split; [|split].
  - intros logits mask Hlen. split; [|split].
    + intros j Hj. split; [now apply row_finite | now apply row_invalid].
    + intros Hall. unfold Util.masked_softmax_row.
      rewrite (all_invalid_existsb mask Hall).
      rewrite (map2_as_seq _ _ _ 0 false eq_refl (eq_sym Hlen)), map_map.
      now rewrite <- (map_nth_seq (fun _ => Util.Fin 0) logits 0).
    + now apply row_sums_to_one.
  - intros B Lc Lq s c_mask q_mask Hs Hcm Hqm.
    exists (map (map (fun v => [v])) c_mask), (map (fun r => [r]) q_mask).
    split; [now apply view3_last|]. split; [now apply view3_mid|].
    intros b i j Hb Hi Hj.
    destruct (shape3_nth Hs Hb Hi) as [Lsb Lsbi].
    assert (Lqm : length (nth b q_mask []) = Lq).
    { destruct Hqm as [Bq Fq]. rewrite Forall_forall in Fq. apply Fq, nth_In. lia. }
    assert (Lcm : length (nth b c_mask []) = Lc).
    { destruct Hcm as [Bc Fc]. rewrite Forall_forall in Fc. apply Fc, nth_In. lia. }
    rewrite (softmax_dim2_row Hs Hqm Hb Hi), (softmax_dim1_entry Hs Hcm Hb Hi Hj).
    assert (Lcol : length (Torch.col j (nth b s [])) = length (nth b c_mask []))
      by (rewrite col_length; lia).
    assert (Lrow : length (nth i (nth b s []) []) = length (nth b q_mask [])) by lia.
    split; [apply row_finite; [exact Lrow | lia]|].
    split; [apply row_finite; [exact Lcol | lia]|].
    split; intros Hinv.
    + apply row_invalid; [exact Lrow | lia | exact Hinv].
    + apply row_invalid; [exact Lcol | lia | exact Hinv].
  - intros sort unspecified H B L m keep att mod_ mask p
           Hsort Hm Hp Hatt Hmod Hmask Hne HB HL.
    destruct (output_forward_regular unspecified keep Hsort Hm Hp Hatt Hmod Hmask Hne HB HL)
      as (mod_2 & _ & S1 & S2 & E).
    eexists. eexists. split; [exact E|].
    intros b i Hb Hi.
    assert (Lm : length (nth b mask []) = L).
    { destruct Hmask as [Bm Fm]. rewrite Forall_forall in Fm. apply Fm, nth_In. lia. }
    assert (G : forall x : ten3, shape3 B L 1 x ->
      nth i (nth b (Util.masked_log_softmax (OutputSpec.as_matrix x) mask) []) Util.LNaN
      = Util.flog (nth i (Util.masked_softmax_row (nth b (OutputSpec.as_matrix x) [])
                                                  (nth b mask [])) (Util.Fin 0)) /\
      length (nth b (OutputSpec.as_matrix x) []) = length (nth b mask [])).
    { intros x Sx. pose proof (as_matrix_shape Sx) as [Bx Fx].
      rewrite Forall_forall in Fx.
      assert (Lx : length (nth b (OutputSpec.as_matrix x) []) = L)
        by (apply Fx, nth_In; lia).
      split; [|lia]. unfold Util.masked_log_softmax.
      rewrite (map2_nth _ _ _ [] []) by (destruct Hmask; lia).
      rewrite (nth_map_lt _ _ (Util.Fin 0)); [reflexivity|].
      rewrite masked_softmax_row_length. lia. }
    destruct (G _ S1) as [E1 L1]. destruct (G _ S2) as [E2 L2].
    rewrite E1, E2.
    destruct (row_log _ _ L1 (j := i) ltac:(lia)) as [N1 Z1].
    destruct (row_log _ _ L2 (j := i) ltac:(lia)) as [N2 Z2].
    split; [exact N1|]. split; [exact N2|].
    intros Hinv. rewrite (Z1 Hinv), (Z2 Hinv). simpl. auto.
Qed.

Lemma masked_softmax_gives_zero_mass_witness :
  nth 1 (Util.masked_softmax_row [1; 2] [true; false]) (Util.Fin 0) = Util.Fin 0 /\
  Util.masked_softmax_row [1; 2] [false; false] = [Util.Fin 0; Util.Fin 0] /\
  exists q3,
    View.view3 1 1 2 [[true; false]] = Ok q3 /\
    nth 1 (nth 0 (nth 0 (Util.masked_softmax [[[1; 2]]] q3 Util.Dim2) []) []) (Util.Fin 0)
    = Util.Fin 0.
Proof.
  destruct masked_softmax_gives_zero_mass as (Hrow & Hatt & _).
  destruct (Hrow [1; 2] [true; false] eq_refl) as (Hj & _ & _).
  destruct (Hrow [1; 2] [false; false] eq_refl) as (_ & Hall & _).
  split; [apply (Hj 1%nat); [simpl; lia | reflexivity]|].
  split.
  - apply Hall. intros [|[|k]] Hk; simpl in *; try reflexivity; lia.
  - assert (Hs : @shape3 R 1 1 2 [[[1; 2]]]) by shape_tac.
    assert (Hc : @shape2 bool 1 1 [[true]]) by shape_tac.
    assert (Hq : @shape2 bool 1 2 [[true; false]]) by shape_tac.
    destruct (Hatt 1%nat 1%nat 2%nat [[[1; 2]]] [[true]] [[true; false]] Hs Hc Hq)
      as (c3 & q3 & _ & Eq & Hent).
    exists q3. split; [exact Eq|].
    destruct (Hent 0%nat 0%nat 1%nat ltac:(lia) ltac:(lia) ltac:(lia)) as (_ & _ & Hz & _).
    apply Hz. reflexivity.
Defined.

(** ** The squeeze of the logits *)

Lemma of_mat_shape {A : Type} B L (x : list (list A)) :
  shape2 B L x -> (0 < B)%nat -> Dyn.shape (Dyn.of_mat x) = [B; L].
Proof.
  intros [Bx Fx] HB. destruct x as [|r x]; [simpl in Bx; lia|].
  inversion Fx as [|? ? Hr _]; subst. unfold shape1 in Hr.
  unfold Dyn.of_mat, Dyn.of_vec. simpl. rewrite !length_map.
  destruct r as [|v r]; simpl in *; subst; reflexivity.
Qed.

Lemma masked_log_softmax_shape B L (x : mat) (mask : list (list bool)) :
  shape2 B L x -> shape2 B L mask -> shape2 B L (Util.masked_log_softmax x mask).
Proof.
  intros [Bx Fx] [Bm Fm]. unfold Util.masked_log_softmax.
  split; [rewrite map2_length; lia|].
  rewrite (map2_as_seq _ _ _ [] [] Bx Bm).
  apply Forall_map, Forall_forall. intros b Hb. apply in_seq in Hb.
  rewrite Forall_forall in Fx, Fm. unfold shape1 in *.
  rewrite length_map, masked_softmax_row_length.
  rewrite (Fx (nth b x [])), (Fm (nth b mask [])) by (apply nth_In; lia). lia.
Qed.

(** On a batch of at least two examples of at least two positions the two
    results of [BiDAFOutput.forward] have the shape of the mask. *)
Lemma output_shape_regular sort unspecified H B L (m : BiDAFOutput.t) keep
    (att mod_ : ten3) (mask : list (list bool)) p :
  SortSpec.torch_sort sort -> OutputSpec.wf H p m -> 0 <= p <= 1 ->
  shape3 B L (8 * H) att -> shape3 B L (2 * H) mod_ ->
  shape2 B L mask -> OutputSpec.no_empty_row mask ->
  (2 <= B)%nat -> (2 <= L)%nat ->
  exists log_p1 log_p2,
    BiDAFOutput.forward sort unspecified m keep att mod_ mask = Ok (log_p1, log_p2) /\
    Dyn.shape log_p1 = [B; L] /\ Dyn.shape log_p2 = [B; L].
Proof.
  intros Hsort Hm Hp Hatt Hmod Hmask Hne HB HL.
  destruct (output_forward_regular unspecified keep Hsort Hm Hp Hatt Hmod Hmask Hne HB HL)
    as (mod_2 & _ & S1 & S2 & E).
  eexists. eexists. split; [exact E|].
  split; apply of_mat_shape; try lia;
    apply masked_log_softmax_shape; auto using as_matrix_shape.
Qed.

(** A batch of one example: the squeeze removes the batch axis too, and
    the logits handed to [masked_softmax] are of rank one. *)
Lemma squeeze_batch_of_one L (x : ten3) :
  shape3 1 L 1 x -> (2 <= L)%nat ->
  Dyn.squeeze (Dyn.of_ten3 x) = Dyn.of_vec (map (hd 0) (hd [] x)) /\
  Dyn.shape (Dyn.squeeze (Dyn.of_ten3 x)) = [L] /\
  Dyn.as_mat (Dyn.squeeze (Dyn.of_ten3 x)) = None.
Proof.
  intros Hx HL. apply shape3_elim in Hx. destruct Hx as [Bx Hx].
  destruct x as [|xb [|xb' x]]; simpl in Bx; try discriminate.
  destruct (Hx xb (or_introl eq_refl)) as [Lb Hr].
  assert (E : Dyn.squeeze (Dyn.of_ten3 [xb]) = Dyn.of_vec (map (hd 0) xb)).
  { unfold Dyn.of_ten3. cbn [map].
    change (Dyn.squeeze (Dyn.Nest [Dyn.of_mat xb])) with (Dyn.squeeze (Dyn.of_mat xb)).
    unfold Dyn.of_mat.
    rewrite squeeze_many by (rewrite length_map; lia).
    unfold Dyn.of_vec. f_equal. rewrite !map_map. apply map_ext_in. intros r Hr'.
    specialize (Hr r Hr'). destruct r as [|v [|w r]]; simpl in Hr; try discriminate.
    reflexivity. }
  simpl hd. rewrite E. split; [reflexivity|]. split.
  - unfold Dyn.of_vec. simpl. rewrite !length_map, Lb.
    destruct xb as [|r xb]; [simpl in Lb; lia | reflexivity].
  - unfold Dyn.of_vec. simpl. rewrite !map_map.
    destruct xb as [|r xb]; [simpl in Lb; lia | reflexivity].
Qed.

(** A context of one position: the squeeze removes the context axis too. *)
Lemma squeeze_single_position B (x : ten3) :
  shape3 B 1 1 x -> (2 <= B)%nat ->
  Dyn.squeeze (Dyn.of_ten3 x) = Dyn.of_vec (map (fun xb => hd 0 (hd [] xb)) x) /\
  Dyn.shape (Dyn.squeeze (Dyn.of_ten3 x)) = [B] /\
  Dyn.as_mat (Dyn.squeeze (Dyn.of_ten3 x)) = None.
Proof.
  intros Hx HB. apply shape3_elim in Hx. destruct Hx as [Bx Hx].
  assert (E : Dyn.squeeze (Dyn.of_ten3 x)
              = Dyn.of_vec (map (fun xb => hd 0 (hd [] xb)) x)).
  { unfold Dyn.of_ten3. rewrite squeeze_many by (rewrite length_map; lia).
    unfold Dyn.of_vec. f_equal. rewrite !map_map. apply map_ext_in. intros xb Hin.
    destruct (Hx xb Hin) as [Lb Hr].
    destruct xb as [|r [|r' xb]]; simpl in Lb; try discriminate.
    specialize (Hr r (or_introl eq_refl)).
    destruct r as [|v [|w r]]; simpl in Hr; try discriminate. reflexivity. }
  rewrite E. split; [reflexivity|]. split.
  - unfold Dyn.of_vec. simpl. rewrite !length_map, Bx.
    destruct x as [|xb x]; [simpl in Bx; lia | reflexivity].
  - unfold Dyn.of_vec. simpl. rewrite !map_map.
    destruct x as [|xb x]; [simpl in Bx; lia | reflexivity].
Qed.

(** On a batch of one example the two results are what [masked_softmax]
    makes of rank-1 logits and the rank-2 mask. *)
Lemma output_forward_batch_of_one sort unspecified H L (m : BiDAFOutput.t) keep
    (att mod_ : ten3) (mask : list (list bool)) p :
  SortSpec.torch_sort sort -> OutputSpec.wf H p m -> 0 <= p <= 1 ->
  shape3 1 L (8 * H) att -> shape3 1 L (2 * H) mod_ ->
  shape2 1 L mask -> OutputSpec.no_empty_row mask -> (2 <= L)%nat ->
  exists l1 l2 : vec,
    length l1 = L /\ length l2 = L /\
    BiDAFOutput.forward sort unspecified m keep att mod_ mask
    = Ok (unspecified (Dyn.of_vec l1) mask, unspecified (Dyn.of_vec l2) mask).
Proof.
  intros Hsort (Ha1 & Hm1 & Ha2 & Hm2 & Hp & cell & Hrnn & Hcell) Hpr Hatt Hmod Hmask Hne HL.
  destruct (mask_sum_bounds Hmask Hne) as [Hlen Hpos].
  rewrite <- Hp in Hpr.
  destruct (@encoder_forward_ok sort (2 * H)%nat H 1%nat L (BiDAFOutput.rnn m) cell keep
              mod_ (BiDAFOutput.mask_sum mask) Hsort Hcell Hrnn Hmod ltac:(lia)
              Hlen Hpos Hpr)
    as (out & mod_2 & _ & _ & _ & _ & Efwd & Smod2).
  assert (S1 : shape3 1 L 1 (BiDAFOutput.logits_1 m att mod_)).
  { unfold BiDAFOutput.logits_1, Torch.add. apply shape3_map2_3.
    - exact (linear_shape Ha1 Hatt).
    - exact (linear_shape Hm1 Hmod). }
  assert (S2 : shape3 1 L 1 (BiDAFOutput.logits_2 m att mod_2)).
  { unfold BiDAFOutput.logits_2, Torch.add. apply shape3_map2_3.
    - exact (linear_shape Ha2 Hatt).
    - exact (linear_shape Hm2 Smod2). }
  destruct (squeeze_batch_of_one S1 HL) as (E1 & _ & N1).
  destruct (squeeze_batch_of_one S2 HL) as (E2 & _ & N2).
  exists (map (hd 0) (hd [] (BiDAFOutput.logits_1 m att mod_))),
         (map (hd 0) (hd [] (BiDAFOutput.logits_2 m att mod_2))).
  assert (Lh : forall x : ten3, shape3 1 L 1 x -> length (map (hd 0) (hd [] x)) = L).
  { intros x Sx. rewrite length_map. apply (shape3_size1 Sx). lia. }
  split; [now apply Lh|]. split; [now apply Lh|].
  unfold BiDAFOutput.forward. rewrite Efwd. cbn [bind].
  unfold BiDAFOutput.masked_softmax. rewrite N1, N2, E1, E2. reflexivity.
Qed.


(** * Further properties of the layers *)

(** ** HighwayEncoder, position by position *)

(** The body of the loop of [HighwayEncoder.forward] on the feature vector
    of one position. *)
Definition highway_row_step (xi : vec) (gt : Torch.Linear * Torch.Linear) : vec :=
  let (gate, transform) := gt in
  let g := map Torch.sigmoid (Torch.linear_vec gate xi) in
  let t := map Torch.relu (Torch.linear_vec transform xi) in
  map2 Rplus (map2 Rmult g t) (map2 Rmult (map (fun v => 1 - v) g) xi).

Definition highway_row (m : HighwayEncoder.t) (xi : vec) : vec :=
  fold_left highway_row_step
    (combine (HighwayEncoder.gates m) (HighwayEncoder.transforms m)) xi.

Lemma highway_step_rows (x : ten3) (gt : Torch.Linear * Torch.Linear) :
  HighwayEncoder.step x gt = map (map (fun xi => highway_row_step xi gt)) x.
Proof.
  destruct gt as [gate transform]. unfold HighwayEncoder.step, highway_row_step.
  unfold Torch.add, Torch.mul, Torch.rsub, Torch.map_3, Torch.map2_3, Torch.linear.
  rewrite !map_map.
  rewrite map2_map_same, (map2_map_l _ _ _ x), map2_same, map2_map_same.
  apply map_ext. intros xb.
  rewrite !map_map.
  rewrite map2_map_same, (map2_map_l _ _ _ xb), map2_same, map2_map_same.
  reflexivity.
Qed.

Lemma highway_fold_rows (l : list (Torch.Linear * Torch.Linear)) (x : ten3) :
  fold_left HighwayEncoder.step l x
  = map (map (fun xi => fold_left highway_row_step l xi)) x.
Proof.
  revert x. induction l as [|gt l IH]; intros x; simpl.
  - rewrite <- (map_id x) at 1. apply map_ext. intros xb. now rewrite map_id.
  - rewrite IH, highway_step_rows, map_map. apply map_ext. intros xb.
    now rewrite map_map.
Qed.

Lemma highway_forward_rows (m : HighwayEncoder.t) (x : ten3) :
  HighwayEncoder.forward m x = map (map (highway_row m)) x.
Proof.
  apply highway_fold_rows.
Qed.

(** X1.  [HighwayEncoder.forward] works position by position: whatever
    the encoder and the batch, the features it returns at position [i] of
    example [b] are the ones it returns for that position alone, as a batch of
    one sequence of length one.  No value flows from one position or one
    example to another. *)
Theorem highway_forward_is_positionwise (m : HighwayEncoder.t) (x : ten3) b i :
  (b < length x)%nat -> (i < length (nth b x []))%nat ->
  HighwayEncoder.forward m [[nth i (nth b x []) []]]
  = [[nth i (nth b (HighwayEncoder.forward m x) []) []]].
Proof.
  intros Hb Hi. rewrite !highway_forward_rows. simpl.
  rewrite (nth_map_lt _ _ []) by exact Hb.
  rewrite (nth_map_lt _ _ []) by exact Hi.
  reflexivity.
Qed.

Lemma highway_forward_is_positionwise_witness :
  HighwayEncoder.forward highway_example [[nth 1 (nth 0 [[[1]; [2]]] []) []]]
  = [[nth 1 (nth 0 (HighwayEncoder.forward highway_example [[[1]; [2]]]) []) []]].
Proof.
  apply (@highway_forward_is_positionwise highway_example [[[1]; [2]]] 0 1); simpl; lia.
Defined.


(** ** CNN *)

Lemma mapM_inv {A B : Type} (f : A -> result B) (l : list A) (y : list B) :
  mapM f l = Ok y -> Forall2 (fun a b => f a = Ok b) l y.
Proof.
  revert y. induction l as [|a l IH]; intros y E; simpl in E.
  - inversion E. constructor.
  - destruct (f a) as [b|e] eqn:Ea; simpl in E; [|discriminate].
    destruct (mapM f l) as [bs|e]; simpl in E; [|discriminate].
    inversion E. constructor; auto.
Qed.

Lemma mapM_raise {A B : Type} (f : A -> result B) (l : list A) (e : exn) :
  (forall a, In a l -> f a = Raise e \/ exists b, f a = Ok b) ->
  (exists a, In a l /\ f a = Raise e) ->
  mapM f l = Raise e.
Proof.
  induction l as [|a l IH]; intros Hall (a0 & Hin & Ha0); [destruct Hin|].
  simpl. destruct (Hall a (or_introl eq_refl)) as [E|[b E]]; rewrite E; simpl;
    [reflexivity|].
  destruct Hin as [<-|Hin]; [congruence|].
  rewrite IH; [reflexivity| |now exists a0].
  intros a' Ha'. apply Hall. now right.
Qed.


Lemma cnn_forward_short (m : CNN.t) (xn : mat) (x : ten3) :
  (Torch.size1 xn < Conv1d.kernel_size (CNN.conv1D m))%nat ->
  CNN.forward m (xn :: x) = Raise RuntimeError.
Proof.
  intros Hs. unfold CNN.forward, Conv1d.forward. simpl.
  unfold Conv1d.forward_sample.
  destruct (Nat.ltb_spec (Torch.size1 xn) (Conv1d.kernel_size (CNN.conv1D m)));
    [reflexivity | lia].
Qed.

(** X4.  A non-empty batch of words narrower than the kernel is rejected:
    for a CNN built with kernel width [k], [CNN.forward] raises a
    RuntimeError on every input of shape (b, C, W) with [b > 0] and [W < k].
    The convolution has no padding. *)
Theorem cnn_forward_rejects_short_words C f k W b (m : CNN.t) (x : ten3) :
  CNN.wf C f k m -> shape3 b C W x -> (0 < b)%nat -> (W < k)%nat ->
  CNN.forward m x = Raise RuntimeError.
Proof.
  intros (Hk & _) [Hb Hx] Hpos HW.
  destruct x as [|xn x']; [simpl in Hb; lia|].
  destruct (Forall_inv Hx) as [Hc Hrows].
  apply cnn_forward_short. rewrite Hk.
  unfold Torch.size1. destruct xn as [|r xn']; simpl; [lia|].
  pose proof (Forall_inv Hrows) as Hr. unfold shape1 in Hr. lia.
Qed.

Lemma cnn_forward_rejects_short_words_witness :
  CNN.forward cnn_example [[[1; 2; 3; 4]]] = Raise RuntimeError.
Proof.
  apply (@cnn_forward_rejects_short_words 1 1 5 4 1 cnn_example [[[1; 2; 3; 4]]]);
    try lia.
  - unfold CNN.wf, Conv1d.wf, shape3, shape2, shape1; simpl.
    repeat split; repeat constructor.
  - unfold shape3, shape2, shape1; simpl. repeat split; repeat constructor.
Defined.

(** ** Embedding *)

Lemma highway_forward_shape N H B L (m : HighwayEncoder.t) (x : ten3) :
  HighwayEncoder.wf N H m -> shape3 B L H x ->
  shape3 B L H (HighwayEncoder.forward m x).
Proof.
  intros Hm Hx. unfold HighwayEncoder.forward.
  rewrite <- (firstn_all2 (n := N)
               (combine (HighwayEncoder.gates m) (HighwayEncoder.transforms m))).
  - rewrite (highway_prefix (n := N) Hm Hx) by lia.
    now apply highway_compose_shape.
  - destruct Hm as (Ht & Hg & _). rewrite length_combine. lia.
Qed.

Lemma embedding_row_ok (table : mat) (i : nat) :
  (i < length table)%nat -> Torch.embedding_row table i = Ok (nth i table []).
Proof.
  intros Hi. unfold Torch.embedding_row.
  destruct (nth_error table i) as [v|] eqn:E.
  - now rewrite (nth_error_nth _ _ _ E).
  - apply nth_error_None in E. lia.
Qed.

Lemma embedding_row_raise (table : mat) (i : nat) :
  (length table <= i)%nat -> Torch.embedding_row table i = Raise IndexError.
Proof.
  intros Hi. unfold Torch.embedding_row.
  apply nth_error_None in Hi. now rewrite Hi.
Qed.

Lemma embedding_row_cases (table : mat) (i : nat) :
  Torch.embedding_row table i = Raise IndexError \/
  exists v, Torch.embedding_row table i = Ok v.
Proof.
  unfold Torch.embedding_row. destruct (nth_error table i); eauto.
Qed.

Lemma mapM_cases {A B : Type} (f : A -> result B) (l : list A) (e : exn) :
  (forall a, In a l -> f a = Raise e \/ exists b, f a = Ok b) ->
  mapM f l = Raise e \/ exists y, mapM f l = Ok y.
Proof.
  induction l as [|a l IH]; intros H; simpl; [eauto|].
  destruct (H a (or_introl eq_refl)) as [E|[b E]]; rewrite E; simpl; [auto|].
  destruct IH as [E'|[y E']]; [intros; apply H; now right| |]; rewrite E'; simpl; eauto.
Qed.

Lemma embedding2_ok (table : mat) (x : list (list nat)) :
  Forall (Forall (fun i => (i < length table)%nat)) x ->
  Torch.embedding2 table x = Ok (map (map (fun i => nth i table [])) x).
Proof.
  intros Hx. unfold Torch.embedding2. rewrite Forall_forall in Hx.
  apply mapM_ok. intros r Hr. apply mapM_ok. intros i Hi.
  apply embedding_row_ok. specialize (Hx r Hr). rewrite Forall_forall in Hx. auto.
Qed.

Lemma embedding2_raise (table : mat) (x : list (list nat)) b i :
  (b < length x)%nat -> (i < length (nth b x []))%nat ->
  (length table <= nth i (nth b x []) 0)%nat ->
  Torch.embedding2 table x = Raise IndexError.
Proof.
  intros Hb Hi Hout. unfold Torch.embedding2.
  apply mapM_raise.
  - intros r _. apply mapM_cases. intros j _. apply embedding_row_cases.
  - exists (nth b x []). split; [now apply nth_In|].
    apply mapM_raise.
    + intros j _. apply embedding_row_cases.
    + exists (nth i (nth b x []) 0%nat). split; [now apply nth_In|].
      now apply embedding_row_raise.
Qed.

Lemma mapM_map {A B : Type} (f : A -> result B) (g : A -> B) (l : list A) (y : list B) :
  (forall a b, In a l -> f a = Ok b -> b = g a) ->
  mapM f l = Ok y -> y = map g l.
Proof.
  intros H E. apply mapM_inv in E. induction E as [|a b l y Hab _ IH]; [reflexivity|].
  simpl. f_equal.
  - apply H; simpl; auto.
  - apply IH. intros a' b' Ha'. apply H. now right.
Qed.

Lemma embedding2_inv (table : mat) (x : list (list nat)) (e : ten3) :
  Torch.embedding2 table x = Ok e -> e = map (map (fun i => nth i table [])) x.
Proof.
  unfold Torch.embedding2. apply mapM_map. intros r er _.
  apply mapM_map. intros i v _. unfold Torch.embedding_row.
  destruct (nth_error table i) as [w|] eqn:E; [|discriminate].
  intros Ev. inversion Ev; subst. symmetry. now apply nth_error_nth.
Qed.

(** X5.  For a module built by [Embedding(word_vectors, hidden_size,
    drop_prob)] on a table of [V > 0] vectors of width [E] and a dropout rate
    in [0, 1], and for every batch of word indices of shape (B, L) that lie in
    the table, [Embedding.forward] returns, in training and in eval mode, a
    tensor of shape (B, L, hidden_size). *)
Theorem embedding_forward_shape V E hidden_size p (word_vectors : mat)
    (m : Embedding.t) keep B L (x : list (list nat)) :
  Embedding.wf word_vectors hidden_size p m -> 0 <= p <= 1 ->
  shape2 V E word_vectors -> (0 < V)%nat ->
  shape2 B L x -> Forall (Forall (fun i => (i < V)%nat)) x ->
  exists y, Embedding.forward m keep x = Ok y /\ shape3 B L hidden_size y.
Proof.
  intros (Hp & Hemb & Hproj & Hhwy) Hrate Hwv HV Hx Hidx.
  rewrite (shape2_size1 Hwv HV) in Hproj.
  unfold Embedding.forward. rewrite Hemb, Hp.
  destruct Hwv as [HlenV Hrows].
  rewrite embedding2_ok by (now rewrite HlenV). simpl.
  assert (He : shape3 B L E (map (map (fun i => nth i word_vectors [])) x)).
  { assert (H3 : forall r, In r x -> shape2 L E (map (fun i => nth i word_vectors []) r)).
    { intros r Hr. destruct Hx as [_ Hx]. rewrite Forall_forall in Hx, Hidx.
      split; [rewrite length_map; now apply Hx|].
      apply Forall_map, Forall_forall. intros i Hi.
      rewrite Forall_forall in Hrows. apply Hrows, nth_In.
      specialize (Hidx r Hr). rewrite Forall_forall in Hidx. rewrite HlenV. auto. }
    destruct Hx as [HB _]. split; [now rewrite length_map|].
    apply Forall_map, Forall_forall. exact H3. }
  destruct (dropout_ok (Embedding.training m) keep Hrate He) as (e' & Ee & He' & _).
  rewrite Ee. simpl. eexists. split; [reflexivity|].
  eapply highway_forward_shape; [exact Hhwy|].
  eapply linear_shape; eassumption.
Qed.

(** A module as [Embedding(word_vectors, 1, 1/2)] builds it on a table of
    two words, in eval mode. *)
Definition word_embedding_example : Embedding.t :=
  {| Embedding.drop_prob := 1 / 2;
     Embedding.training := false;
     Embedding.embed := [[1; 0]; [0; 1]];
     Embedding.proj := {| Torch.weight := [[1; 2]]; Torch.bias := None |};
     Embedding.hwy :=
       {| HighwayEncoder.transforms :=
            [ {| Torch.weight := [[1]]; Torch.bias := Some [0] |};
              {| Torch.weight := [[1]]; Torch.bias := Some [1] |} ];
          HighwayEncoder.gates :=
            [ {| Torch.weight := [[0]]; Torch.bias := Some [0] |};
              {| Torch.weight := [[1]]; Torch.bias := Some [0] |} ] |} |}.

Lemma word_embedding_example_wf :
  Embedding.wf [[1; 0]; [0; 1]] 1 (1 / 2) word_embedding_example.
Proof.
  unfold Embedding.wf, HighwayEncoder.wf, Torch.Linear_wf, shape2, shape1; simpl.
  repeat split; repeat constructor.
Qed.

Lemma embedding_forward_shape_witness :
  exists y, Embedding.forward word_embedding_example (fun _ _ _ => true)
              [[0; 1; 1]; [1; 0; 0]]%nat = Ok y /\
            shape3 2 3 1 y.
Proof.
  apply (@embedding_forward_shape 2 2 1 (1 / 2) [[1; 0]; [0; 1]]
           word_embedding_example (fun _ _ _ => true) 2 3 [[0; 1; 1]; [1; 0; 0]]%nat).
  - exact word_embedding_example_wf.
  - lra.
  - unfold shape2, shape1; simpl. repeat split; repeat constructor.
  - lia.
  - unfold shape2, shape1; simpl. repeat split; repeat constructor.
  - repeat constructor.
Defined.

(** X6.  A word index outside the table makes [Embedding.forward] raise
    the IndexError of the lookup, in training and in eval mode and whatever
    the dropout rate is: the lookup comes first. *)
Theorem embedding_forward_rejects_unknown_index (m : Embedding.t) keep
    (x : list (list nat)) b i :
  (b < length x)%nat -> (i < length (nth b x []))%nat ->
  (length (Embedding.embed m) <= nth i (nth b x []) 0)%nat ->
  Embedding.forward m keep x = Raise IndexError.
Proof.
  intros Hb Hi Hout. unfold Embedding.forward.
  now rewrite (embedding2_raise _ _ Hb Hi Hout).
Qed.

Lemma embedding_forward_rejects_unknown_index_witness :
  Embedding.forward word_embedding_example (fun _ _ _ => true) [[0; 1]; [2; 0]]%nat
  = Raise IndexError.
Proof.
  apply (@embedding_forward_rejects_unknown_index word_embedding_example
           (fun _ _ _ => true) [[0; 1]; [2; 0]]%nat 1 0); simpl; lia.
Defined.

Lemma dropout_eval_inv (x y : ten3) (p : R) (keep : Torch.draw) :
  Torch.dropout x p false keep = Ok y -> y = x.
Proof.
  unfold Torch.dropout.
  destruct (Rlt_dec p 0); [discriminate|]. destruct (Rlt_dec 1 p); [discriminate|].
  now inversion 1.
Qed.

(** The vector a module in eval mode gives the word of index [i]. *)
Definition embed_word (m : Embedding.t) (i : nat) : vec :=
  highway_row (Embedding.hwy m)
    (Torch.linear_vec (Embedding.proj m) (nth i (Embedding.embed m) [])).

Lemma embedding_forward_eval (m : Embedding.t) keep (x : list (list nat)) (y : ten3) :
  Embedding.training m = false ->
  Embedding.forward m keep x = Ok y -> y = map (map (embed_word m)) x.
Proof.
  intros Ht E. unfold Embedding.forward in E. rewrite Ht in E.
  destruct (Torch.embedding2 (Embedding.embed m) x) as [e|] eqn:Ee; simpl in E;
    [|discriminate].
  destruct (Torch.dropout e _ false keep) as [e'|] eqn:Ed; simpl in E; [|discriminate].
  apply dropout_eval_inv in Ed. apply embedding2_inv in Ee. subst e' e.
  inversion E. rewrite highway_forward_rows. unfold Torch.linear.
  rewrite !map_map. apply map_ext. intros r. rewrite !map_map. reflexivity.
Qed.

(** X7.  In eval mode the vector [Embedding.forward] returns for a word
    depends on its index only, not on its position, on the other words of
    the sequence or on the batch: two positions that hold the same index, in
    one call or in two calls, get the same vector. *)
Theorem embedding_forward_depends_on_index_only (m : Embedding.t) keep keep'
    (x x' : list (list nat)) (y y' : ten3) b i b' i' :
  Embedding.training m = false ->
  Embedding.forward m keep x = Ok y ->
  Embedding.forward m keep' x' = Ok y' ->
  (b < length x)%nat -> (i < length (nth b x []))%nat ->
  (b' < length x')%nat -> (i' < length (nth b' x' []))%nat ->
  nth i (nth b x []) 0%nat = nth i' (nth b' x' []) 0%nat ->
  nth i (nth b y []) [] = nth i' (nth b' y' []) [].
Proof.
  intros Ht E E' Hb Hi Hb' Hi' Hidx.
  rewrite (@embedding_forward_eval m keep x y Ht E), (@embedding_forward_eval m keep' x' y' Ht E').
  rewrite (nth_map_lt _ _ []) by exact Hb.
  rewrite (nth_map_lt _ _ []) by exact Hb'.
  rewrite (nth_map_lt _ _ 0%nat) by exact Hi.
  rewrite (nth_map_lt _ _ 0%nat) by exact Hi'.
  now rewrite Hidx.
Qed.

Lemma embedding_forward_depends_on_index_only_witness :
  exists y y',
    Embedding.forward word_embedding_example (fun _ _ _ => true) [[0; 1; 1]]%nat = Ok y /\
    Embedding.forward word_embedding_example (fun _ _ _ => false) [[0]; [1]]%nat = Ok y' /\
    nth 2 (nth 0 y []) [] = nth 0 (nth 1 y' []) [].
Proof.
  assert (E : forall keep x y,
            Torch.embedding2 (Embedding.embed word_embedding_example) x = Ok y ->
            Embedding.forward word_embedding_example keep x
            = Ok (HighwayEncoder.forward (Embedding.hwy word_embedding_example)
                    (Torch.linear (Embedding.proj word_embedding_example) y))).
  { intros keep x y Ey. unfold Embedding.forward. rewrite Ey. simpl bind.
    rewrite dropout_eval by (simpl; lra). reflexivity. }
  eexists. eexists. split; [apply E; reflexivity|]. split; [apply E; reflexivity|].
  apply (@embedding_forward_depends_on_index_only word_embedding_example
           (fun _ _ _ => true) (fun _ _ _ => false)
           [[0; 1; 1]]%nat [[0]; [1]]%nat _ _ 0 2 1 0);
    try reflexivity; try (simpl; lia); apply E; reflexivity.
Defined.

(** ** RNNEncoder on a batch with an empty sequence *)

Lemma sorted_values_keep sort (lengths : list nat) v :
  SortSpec.torch_sort sort -> In v lengths -> In v (fst (sort true lengths)).
Proof.
  intros Hsort Hin. destruct (Hsort true lengths) as (P & E & _).
  rewrite E. destruct (In_nth _ _ 0%nat Hin) as (j & Hj & <-).
  apply (in_map (fun i => nth i lengths 0%nat)).
  apply (Permutation_in _ (Permutation_sym P)). apply in_seq. lia.
Qed.

Lemma pack_zero_length (x : ten3) (lens : list nat) :
  In 0%nat lens -> RNNEncoder.pack_padded_sequence x lens = Raise RuntimeError.
Proof.
  intros Hin. unfold RNNEncoder.pack_padded_sequence.
  destruct x as [|xb x']; [reflexivity|].
  destruct (negb (length lens =? length (xb :: x'))%nat); [reflexivity|].
  assert (Hz : existsb (fun l => (l =? 0)%nat) lens = true).
  { apply existsb_exists. exists 0%nat. split; [exact Hin | reflexivity]. }
  now rewrite Hz.
Qed.

Lemma encoder_zero_length sort (m : RNNEncoder.t) keep (x : ten3) lengths :
  SortSpec.torch_sort sort -> In 0%nat lengths ->
  RNNEncoder.forward sort m keep x lengths = Raise RuntimeError.
Proof.
  intros Hsort Hin. unfold RNNEncoder.forward.
  pose proof (@sorted_values_keep sort lengths 0%nat Hsort Hin) as Hin'.
  destruct (sort true lengths) as [lens sidx]. simpl in Hin'.
  now rewrite (@pack_zero_length _ lens Hin').
Qed.

(** X8.  [RNNEncoder.forward] rejects a batch that holds a sequence of
    length 0: with one length per example, one of them 0, the call raises a
    RuntimeError when it packs the batch, whatever the cell, the mode and the
    dropout rate, and before the cell is looked at. *)
Theorem rnn_encoder_rejects_empty_sequence sort (m : RNNEncoder.t) keep
    (x : ten3) lengths :
  SortSpec.torch_sort sort -> length lengths = length x -> In 0%nat lengths ->
  RNNEncoder.forward sort m keep x lengths = Raise RuntimeError.
Proof.
  intros Hsort _ Hin. now apply encoder_zero_length.
Qed.

Lemma rnn_encoder_rejects_empty_sequence_witness :
  RNNEncoder.forward SortSpec.argsort
    {| RNNEncoder.drop_prob := 0; RNNEncoder.training := false;
       RNNEncoder.rnn := Some (example_cell 1) |}
    (fun _ _ _ => true) example_batch [2%nat; 0%nat]
  = Raise RuntimeError.
Proof.
  apply (@rnn_encoder_rejects_empty_sequence SortSpec.argsort _ _ example_batch
           [2%nat; 0%nat] argsort_is_torch_sort); [reflexivity | simpl; auto].
Defined.

(** ** BiDAFOutput on a mask with an empty row *)

(** X9.  [BiDAFOutput.forward] rejects a mask that has a row without a
    valid position: [mask.sum(-1)] is 0 there, and the encoder raises a
    RuntimeError when it packs the batch.  No log-probability is returned for
    such a batch, whatever the other rows hold. *)
Theorem output_forward_rejects_empty_row sort unspecified (m : BiDAFOutput.t) keep
    (att mod_ : ten3) (mask : list (list bool)) b :
  SortSpec.torch_sort sort -> length mask = length mod_ ->
  (b < length mask)%nat -> existsb (fun v : bool => v) (nth b mask []) = false ->
  BiDAFOutput.forward sort unspecified m keep att mod_ mask = Raise RuntimeError.
Proof.
  intros Hsort _ Hb Hrow. unfold BiDAFOutput.forward.
  rewrite encoder_zero_length; [reflexivity | exact Hsort |].
  unfold BiDAFOutput.mask_sum. apply in_map_iff.
  exists (nth b mask []). split; [|now apply nth_In].
  rewrite filter_none; [reflexivity|].
  intros v Hv. destruct v; [|reflexivity].
  assert (Hex : existsb (fun v : bool => v) (nth b mask []) = true)
    by (apply existsb_exists; exists true; auto).
  congruence.
Qed.

(** An output layer as [BiDAFOutput(1, 0)] builds it, in eval mode. *)
Definition output_example : BiDAFOutput.t :=
  {| BiDAFOutput.att_linear_1 :=
       {| Torch.weight := [[1; 0; 0; 0; 0; 0; 0; 0]]; Torch.bias := Some [0] |};
     BiDAFOutput.mod_linear_1 := {| Torch.weight := [[1; 0]]; Torch.bias := Some [0] |};
     BiDAFOutput.rnn :=
       {| RNNEncoder.drop_prob := 0; RNNEncoder.training := false;
          RNNEncoder.rnn := Some (example_cell 1) |};
     BiDAFOutput.att_linear_2 :=
       {| Torch.weight := [[0; 1; 0; 0; 0; 0; 0; 0]]; Torch.bias := Some [0] |};
     BiDAFOutput.mod_linear_2 := {| Torch.weight := [[0; 1]]; Torch.bias := Some [0] |} |}.

Lemma output_forward_rejects_empty_row_witness :
  BiDAFOutput.forward SortSpec.argsort (fun _ _ => Dyn.Nest []) output_example
    (fun _ _ _ => true)
    [[[1; 2; 3; 4; 5; 6; 7; 8]; [1; 2; 3; 4; 5; 6; 7; 8]];
     [[1; 2; 3; 4; 5; 6; 7; 8]; [1; 2; 3; 4; 5; 6; 7; 8]]]
    [[[1; 2]; [3; 4]]; [[5; 6]; [7; 8]]]
    [[true; true]; [false; false]]
  = Raise RuntimeError.
Proof.
  apply (@output_forward_rejects_empty_row SortSpec.argsort (fun _ _ => Dyn.Nest [])
           output_example (fun _ _ _ => true) _ [[[1; 2]; [3; 4]]; [[5; 6]; [7; 8]]]
           [[true; true]; [false; false]] 1 argsort_is_torch_sort);
    [reflexivity | simpl; lia | reflexivity].
Defined.

(** ** RNNEncoder around a cell that works row by row *)

(** A cell that maps every row of the packed input by [f]. *)
Definition rowwise_cell (f : vec -> vec) : RNNEncoder.rnn_module :=
  fun p => Ok {| RNNEncoder.data := map f (RNNEncoder.data p);
                 RNNEncoder.batch_sizes := RNNEncoder.batch_sizes p |}.

Lemma rowwise_cell_contract I Hd (f : vec -> vec) :
  (forall v, length v = I -> length (f v) = (2 * Hd)%nat) ->
  RNNSpec.cell_contract I Hd (rowwise_cell f).
Proof.
  intros Hf p Hp. eexists. split; [reflexivity|]. simpl.
  split; [reflexivity|]. split; [apply length_map|].
  apply Forall_map. eapply Forall_impl; [|exact Hp]. intros v Hv. now apply Hf.
Qed.

(** X10.  Sorting, packing, unpacking and unsorting are a round trip: in
    eval mode, around a cell that maps every packed row by a function [f]
    (from width [I > 0] to width [2 * Hd]), [RNNEncoder.forward] returns, for
    every batch of shape (B, L, I) with lengths between 1 and L,
    [f] of the input row at every real position of every example, in the
    original batch order, and the zero vector at every padding position. *)
Theorem rnn_encoder_round_trip sort I Hd B L (f : vec -> vec)
    (m : RNNEncoder.t) keep (x : ten3) (lengths : list nat) :
  SortSpec.torch_sort sort ->
  (forall v, length v = I -> length (f v) = (2 * Hd)%nat) ->
  RNNEncoder.rnn m = Some (rowwise_cell f) ->
  RNNEncoder.training m = false -> 0 <= RNNEncoder.drop_prob m <= 1 ->
  shape3 B L I x -> (0 < I)%nat -> (0 < B)%nat -> length lengths = B ->
  Forall (fun l => (0 < l <= L)%nat) lengths ->
  exists y,
    RNNEncoder.forward sort m keep x lengths = Ok y /\
    forall b t, (b < B)%nat -> (t < L)%nat ->
      nth t (nth b y []) []
      = if (t <? nth b lengths 0)%nat then f (nth t (nth b x []) [])
        else Torch.zeros (2 * Hd).
Proof.
  intros Hsort Hf Hrnn Hev Hp Hx HI HB Hlen Hpos.
  pose proof (rowwise_cell_contract Hd f Hf) as Hcell.
  destruct (@encoder_forward_ok sort I Hd B L m (rowwise_cell f) keep x lengths
              Hsort Hcell Hrnn Hx HB Hlen Hpos Hp)
    as (out & y & Eout & Hbs & Hrows & Edrop & Efwd & Sy).
  exists y. split; [exact Efwd|]. intros b t Hb Ht.
  rewrite Hev in Edrop. apply dropout_eval_inv in Edrop. subst y.
  rewrite (unsorted_nth Hsort Hd lengths Hx HB Hlen out Hbs Hrows Hb Ht).
  destruct (Nat.ltb_spec t (nth b lengths 0%nat)) as [Hreal|_]; [|reflexivity].
  pose proof (packed_real_position Hsort lengths Hx HB Hlen out Hbs Hrows Hb Hreal)
    as Hrow.
  assert (Ed : RNNEncoder.data out
               = map f (RNNEncoder.data (packed_input sort x lengths))).
  { unfold rowwise_cell in Eout. injection Eout as <-. reflexivity. }
  rewrite Ed.
  set (k := (_ + rank sort lengths b)%nat) in *.
  assert (Hk : (k < length (RNNEncoder.data (packed_input sort x lengths)))%nat).
  { destruct (Nat.lt_ge_cases k (length (RNNEncoder.data (packed_input sort x lengths))))
      as [Hlt|Hge]; [exact Hlt|].
    rewrite nth_overflow in Hrow by exact Hge.
    destruct (shape3_nth Hx Hb Ht) as [_ Hw]. rewrite <- Hrow in Hw. simpl in Hw. lia. }
  rewrite (nth_map_lt _ _ []) by exact Hk. now rewrite Hrow.
Qed.

Lemma rnn_encoder_round_trip_witness :
  exists y,
    RNNEncoder.forward SortSpec.argsort
      {| RNNEncoder.drop_prob := 0; RNNEncoder.training := false;
         RNNEncoder.rnn := Some (rowwise_cell (fun v => v ++ v)) |}
      (fun _ _ _ => true) example_batch [2%nat; 3%nat] = Ok y /\
    nth 1 (nth 0 y []) [] = nth 1 (nth 0 example_batch []) [] ++ nth 1 (nth 0 example_batch []) [] /\
    nth 2 (nth 0 y []) [] = Torch.zeros 2.
Proof.
  assert (Hx : @shape3 R 2 3 1 example_batch) by shape_tac.
  assert (Hpos : Forall (fun l => (0 < l <= 3)%nat) [2%nat; 3%nat])
    by (repeat constructor).
  destruct (@rnn_encoder_round_trip SortSpec.argsort 1 1 2 3 (fun v => v ++ v)
              {| RNNEncoder.drop_prob := 0; RNNEncoder.training := false;
                 RNNEncoder.rnn := Some (rowwise_cell (fun v => v ++ v)) |}
              (fun _ _ _ => true) example_batch [2%nat; 3%nat]
              argsort_is_torch_sort)
    as (y & Efwd & Hy); try assumption; try reflexivity; try lia.
  - intros v Hv. rewrite length_app. lia.
  - simpl. lra.
  - exists y. split; [exact Efwd|]. split.
    + apply (Hy 0%nat 1%nat); lia.
    + apply (Hy 0%nat 2%nat); lia.
Defined.

(** ** BiDAFAttention and the size of the masks *)

(** X11.  [BiDAFAttention.forward] views the context mask as
    (batch_size, c_len, 1) and the query mask as (batch_size, 1, q_len): for a
    context of shape (B, Lc, H) and a query of shape (B, Lq, H), a context
    mask that does not hold B * Lc entries, or a query mask that does not
    hold B * Lq entries, makes the call raise a RuntimeError. *)
Theorem attention_forward_rejects_mask_size B Lc Lq H (m : BiDAFAttention.t)
    keep_c keep_q (c q : ten3) (c_mask q_mask : list (list bool)) :
  BiDAFAttention.wf H m -> (0 < H)%nat -> (0 < Lq)%nat -> (0 < B)%nat ->
  shape3 B Lc H c -> shape3 B Lq H q ->
  0 <= BiDAFAttention.drop_prob m <= 1 ->
  length (concat c_mask) <> (B * Lc)%nat \/ length (concat q_mask) <> (B * Lq)%nat ->
  BiDAFAttention.forward m keep_c keep_q c q c_mask q_mask = Raise RuntimeError.
Proof.
  intros Hm HH HLq HB Hc Hq Hp Hbad.
  destruct (similarity_matrix_ok keep_c keep_q Hm HH HLq Hc Hq Hp)
    as (c' & q' & _ & _ & _ & E).
  unfold BiDAFAttention.forward. rewrite E. cbn [bind].
  rewrite (shape3_size1 Hc HB), (shape3_size1 Hq HB).
  destruct Hc as [Bc _]. rewrite Bc.
  unfold View.view3.
  destruct (Nat.eqb_spec (length (concat c_mask)) (B * Lc * 1)) as [Ec|Ec];
    [|reflexivity].
  cbn [bind].
  destruct (Nat.eqb_spec (length (concat q_mask)) (B * 1 * Lq)) as [Eq|Eq];
    [|reflexivity].
  lia.
Qed.

Lemma attention_forward_rejects_mask_size_witness :
  BiDAFAttention.forward attention_example (fun _ _ _ => true) (fun _ _ _ => true)
    [[[1; 2]; [3; 4]]] [[[5; 6]]] [[true]] [[true]]
  = Raise RuntimeError.
Proof.
  apply (@attention_forward_rejects_mask_size 1 2 1 2 attention_example
           (fun _ _ _ => true) (fun _ _ _ => true)
           [[[1; 2]; [3; 4]]] [[[5; 6]]] [[true]] [[true]]).
  - exact attention_example_wf.
  - lia.
  - lia.
  - lia.
  - shape_tac.
  - shape_tac.
  - simpl. lra.
  - left. simpl. lia.
Defined.

(** ** EmbeddingChar *)

(** The character-level features of one word, given by the indices of its
    characters: what the CNN returns for the word alone. *)
Definition char_features (m : EmbeddingChar.t) (cs : list nat) : vec :=
  map (fun row => max_pure (map Torch.relu row))
      (conv_pure (CNN.conv1D (EmbeddingChar.cnn m)) (length cs)
         (Torch.transpose (map (fun i => nth i (EmbeddingChar.char_embed m) []) cs))).

(** The word vector followed by the character-level features. *)
Definition word_and_chars (m : EmbeddingChar.t) (w : nat) (cs : list nat) : vec :=
  nth w (EmbeddingChar.embed m) [] ++ char_features m cs.

Lemma shape3_concat {A : Type} B L W (x : list (list (list A))) :
  shape3 B L W x -> shape2 (B * L) W (concat x).
Proof.
  intros [HB Hx]. split.
  - revert B HB. induction Hx as [|xb x [Hxb _] _ IH]; intros B HB; simpl in *.
    + subst B. reflexivity.
    + destruct B as [|B]; [discriminate|]. rewrite length_app, (IH B) by lia. lia.
  - apply Forall_concat. eapply Forall_impl; [|exact Hx]. now intros xb [_ H].
Qed.

Lemma view_rows_ok {A : Type} B L W (x : list (list (list A))) :
  shape3 B L W x -> (0 < W)%nat -> View.view_rows W x = Ok (concat x).
Proof.
  intros Hx HW. pose proof (shape3_concat Hx) as Hc.
  unfold View.view_rows, View.flatten3.
  rewrite (concat_length_shape2 Hc).
  destruct (Nat.eqb_spec W 0); [lia|].
  rewrite Nat.Div0.mod_mul, Nat.eqb_refl, Nat.div_mul by lia.
  now rewrite (chunk_concat Hc).
Qed.

Lemma concat_concat_map {A : Type} (z : list (list (list A))) :
  concat (map (@concat A) z) = concat (concat z).
Proof.
  induction z as [|zb z IH]; simpl; [reflexivity|].
  now rewrite concat_app, IH.
Qed.

Lemma view_batches_ok {A : Type} B L E (z : list (list (list A))) :
  shape3 B L E z -> (0 < L)%nat -> (0 < E)%nat ->
  View.view_batches L E (concat z) = Ok z.
Proof.
  intros Hz HL HE. unfold View.view_batches.
  assert (Hm : shape2 B (L * E) (map (@concat A) z)).
  { destruct Hz as [HB Hz]. split; [now rewrite length_map|].
    apply Forall_map. eapply Forall_impl; [|exact Hz].
    intros zb Hzb. exact (concat_length_shape2 Hzb). }
  rewrite <- concat_concat_map, (concat_length_shape2 Hm).
  destruct (Nat.eqb_spec (L * E) 0); [nia|].
  rewrite Nat.Div0.mod_mul, Nat.eqb_refl, Nat.div_mul by lia.
  rewrite (chunk_concat Hm), map_map. f_equal.
  rewrite <- (map_id z) at 2.
  destruct Hz as [_ Hz]. apply map_ext_Forall with (P := shape2 L E); [exact Hz|].
  intros zb Hzb. now apply chunk_concat.
Qed.

Section CharEmbedding.

Variables (V E Vc C hidden_size B L W : nat) (p : R).
Variables (word_vectors char_vectors : mat) (m : EmbeddingChar.t).
Variables (x_word : list (list nat)) (x_char : list (list (list nat))).

Hypothesis Hm : EmbeddingChar.wf word_vectors char_vectors hidden_size p m.
Hypothesis Hwv : shape2 V E word_vectors.
Hypothesis HV : (0 < V)%nat.
Hypothesis HE : (0 < E)%nat.
Hypothesis Hcv : shape2 Vc C char_vectors.
Hypothesis HVc : (0 < Vc)%nat.
Hypothesis HC : (0 < C)%nat.
Hypothesis Hxw : shape2 B L x_word.
Hypothesis Hiw : Forall (Forall (fun i => (i < V)%nat)) x_word.
Hypothesis Hxc : shape3 B L W x_char.
Hypothesis Hic : Forall (Forall (Forall (fun i => (i < Vc)%nat))) x_char.
Hypothesis HW : (5 <= W)%nat.
Hypothesis HB : (0 < B)%nat.
Hypothesis HL : (0 < L)%nat.

Lemma char_sample_shape (cs : list nat) :
  length cs = W -> Forall (fun i => (i < Vc)%nat) cs ->
  shape2 C W (Torch.transpose (map (fun i => nth i char_vectors []) cs)).
Proof.
  intros Hcs Hi. apply transpose_shape; [|lia].
  split; [now rewrite length_map|].
  apply Forall_map. eapply Forall_impl; [|exact Hi]. intros i Hlt. simpl in Hlt.
  destruct Hcv as [HlenV Hrows]. rewrite Forall_forall in Hrows.
  apply Hrows, nth_In. lia.
Qed.

Lemma char_features_length (cs : list nat) : length (char_features m cs) = E.
Proof.
  destruct Hm as (_ & Hws & _ & _ & _ & Hcnn & _). simpl in Hcnn.
  destruct Hcnn as (_ & [Hf _] & Hb). unfold shape1 in Hb.
  unfold char_features, conv_pure. rewrite length_map, map2_length, Hf, Hb.
  rewrite Hws, (shape2_size1 Hwv HV). lia.
Qed.

Lemma char_features_shape :
  shape3 B L E (map (map (char_features m)) x_char).
Proof.
  destruct Hxc as [HlenB Hx]. split; [now rewrite length_map|].
  apply Forall_map. eapply Forall_impl; [|exact Hx]. intros xb [Hxb _].
  split; [now rewrite length_map|].
  apply Forall_map, Forall_forall. intros cs _. apply char_features_length.
Qed.

Lemma word_vectors_shape :
  shape3 B L E (map (map (fun i => nth i word_vectors [])) x_word).
Proof.
  destruct Hxw as [HlenB Hx]. split; [now rewrite length_map|].
  apply Forall_map. rewrite Forall_forall in Hx, Hiw. apply Forall_forall.
  intros r Hr. split; [rewrite length_map; now apply Hx|].
  apply Forall_map, Forall_forall. intros i Hi.
  specialize (Hiw r Hr). rewrite Forall_forall in Hiw.
  destruct Hwv as [HlenV Hrows]. rewrite Forall_forall in Hrows.
  apply Hrows, nth_In. rewrite HlenV. auto.
Qed.

Lemma word_and_chars_shape :
  shape3 B L (2 * E) (map2 (map2 (word_and_chars m)) x_word x_char).
Proof.
  destruct Hm as (_ & _ & Hemb & _).
  replace (2 * E)%nat with (E + E)%nat by lia.
  replace (map2 (map2 (word_and_chars m)) x_word x_char)
    with (Torch.cat2 (map (map (fun i => nth i word_vectors [])) x_word)
                     (map (map (char_features m)) x_char)).
  - apply cat2_shape; [apply word_vectors_shape | apply char_features_shape].
  - unfold Torch.cat2. rewrite map2_map_l, map2_map_r.
    apply map2_ext_in. intros r cr _ _.
    rewrite map2_map_l, map2_map_r.
    apply map2_ext_in. intros w cs _ _. unfold word_and_chars. now rewrite Hemb.
Qed.

(** [EmbeddingChar.forward] up to the dropout. *)
Lemma embedding_char_forward_ok keep :
  EmbeddingChar.forward m keep x_word x_char
  = (emb <- Torch.dropout (map2 (map2 (word_and_chars m)) x_word x_char)
                          p (EmbeddingChar.training m) keep ;;
     Ok (HighwayEncoder.forward (EmbeddingChar.hwy m)
           (Torch.linear (EmbeddingChar.proj m) emb))).
Proof.
  pose proof char_features_shape as Hcf.
  destruct Hm as (Hp & Hws & Hemb & Hcs & Hcemb & Hcnn & Hproj & Hhwy).
  simpl in Hcnn. rewrite (shape2_size1 Hwv HV) in Hws.
  rewrite (shape2_size1 Hcv HVc) in Hcs. rewrite Hcs, Hws in Hcnn.
  unfold EmbeddingChar.forward.
  unfold Torch.size2. rewrite (shape3_size1 Hxc HB).
  assert (Hs2 : Torch.size1 (hd [] x_char) = W).
  { destruct Hxc as [HlenB Hx]. destruct x_char as [|xb x']; [simpl in HlenB; lia|].
    simpl. exact (shape2_size1 (Forall_inv Hx) HL). }
  rewrite Hs2, (view_rows_ok Hxc) by lia. cbn [bind].
  pose proof (shape3_concat Hxc) as [Hclen Hcrows].
  assert (Hcidx : Forall (Forall (fun i => (i < Vc)%nat)) (concat x_char))
    by (apply Forall_concat; exact Hic).
  rewrite Hcemb, embedding2_ok
    by (destruct Hcv as [-> _]; exact Hcidx).
  cbn [bind]. rewrite map_map.
  assert (Hsamples : shape3 (B * L) C W
            (map (fun cs => Torch.transpose (map (fun i => nth i char_vectors []) cs))
                 (concat x_char))).
  { split; [now rewrite length_map|].
    apply Forall_map. rewrite Forall_forall in Hcrows, Hcidx. apply Forall_forall.
    intros cs Hin. apply char_sample_shape; [apply Hcrows | apply Hcidx]; exact Hin. }
  rewrite (cnn_forward_ok Hcnn Hsamples HC HW). cbn [bind]. rewrite map_map.
  rewrite (map_ext_Forall (P := shape1 W) _ (char_features m)); [|exact Hcrows|].
  2:{ intros cs Hcs'. unfold shape1 in Hcs'. unfold char_features.
      now rewrite Hcs', Hcemb. }
  rewrite concat_map, Hws, (view_batches_ok Hcf HL HE). cbn [bind].
  rewrite Hemb, embedding2_ok by (destruct Hwv as [-> _]; exact Hiw).
  cbn [bind]. rewrite Hp.
  replace (Torch.cat2 (map (map (fun i => nth i word_vectors [])) x_word)
                      (map (map (char_features m)) x_char))
    with (map2 (map2 (word_and_chars m)) x_word x_char); [reflexivity|].
  unfold Torch.cat2. rewrite map2_map_l, map2_map_r.
  apply map2_ext_in. intros r cr _ _.
  rewrite map2_map_l, map2_map_r.
  apply map2_ext_in. intros w cs _ _. unfold word_and_chars. now rewrite Hemb.
Qed.

End CharEmbedding.

(** X12.  For a module built by [EmbeddingChar(word_vectors, char_vectors,
    hidden_size, drop_prob)] on non-empty tables of word vectors of width
    [E > 0] and of character vectors of width [C > 0], with a dropout rate in
    [0, 1]: on every non-empty batch of word indices of shape (B, L) and
    character indices of shape (B, L, W), all in their tables, with words at
    least as wide as the kernel ([W >= 5]), [EmbeddingChar.forward] returns,
    in training and in eval mode, a tensor of shape (B, L, hidden_size). *)
Theorem embedding_char_forward_shape V E Vc C hidden_size B L W (p : R)
    (word_vectors char_vectors : mat) (m : EmbeddingChar.t) keep
    (x_word : list (list nat)) (x_char : list (list (list nat))) :
  EmbeddingChar.wf word_vectors char_vectors hidden_size p m -> 0 <= p <= 1 ->
  shape2 V E word_vectors -> (0 < V)%nat -> (0 < E)%nat ->
  shape2 Vc C char_vectors -> (0 < Vc)%nat -> (0 < C)%nat ->
  shape2 B L x_word -> Forall (Forall (fun i => (i < V)%nat)) x_word ->
  shape3 B L W x_char -> Forall (Forall (Forall (fun i => (i < Vc)%nat))) x_char ->
  (5 <= W)%nat -> (0 < B)%nat -> (0 < L)%nat ->
  exists y, EmbeddingChar.forward m keep x_word x_char = Ok y /\
            shape3 B L hidden_size y.
Proof.
  intros Hm Hp Hwv HV HE Hcv HVc HC Hxw Hiw Hxc Hic HW HB HL.
  rewrite (embedding_char_forward_ok Hm Hwv HV HE Hcv HVc HC Hiw Hxc Hic HW HB HL keep).
  pose proof (word_and_chars_shape Hm Hwv HV HE HVc HC Hxw Hiw Hxc HW HB HL) as Hs.
  destruct (dropout_ok (EmbeddingChar.training m) keep Hp Hs) as (e & Ee & He & _).
  rewrite Ee. cbn [bind]. eexists. split; [reflexivity|].
  destruct Hm as (_ & Hws & _ & _ & _ & _ & Hproj & Hhwy).
  rewrite Hws, (shape2_size1 Hwv HV) in Hproj.
  eapply highway_forward_shape; [exact Hhwy|].
  eapply linear_shape; eassumption.
Qed.

(** A module as [EmbeddingChar(word_vectors, char_vectors, 1, 1/2)] builds
    it on two words and two characters, in eval mode. *)
Definition char_embedding_example : EmbeddingChar.t :=
  {| EmbeddingChar.drop_prob := 1 / 2;
     EmbeddingChar.training := false;
     EmbeddingChar.word_emb_size := 1;
     EmbeddingChar.embed := [[1]; [0]];
     EmbeddingChar.char_emb_size := 1;
     EmbeddingChar.char_embed := [[1]; [2]];
     EmbeddingChar.cnn := cnn_example;
     EmbeddingChar.proj := {| Torch.weight := [[1; 1]]; Torch.bias := None |};
     EmbeddingChar.hwy := Embedding.hwy word_embedding_example |}.

Lemma char_embedding_example_wf :
  EmbeddingChar.wf [[1]; [0]] [[1]; [2]] 1 (1 / 2) char_embedding_example.
Proof.
  unfold EmbeddingChar.wf, CNN.wf, Conv1d.wf, HighwayEncoder.wf, Torch.Linear_wf,
    shape3, shape2, shape1; simpl.
  repeat split; repeat constructor.
Qed.

Lemma embedding_char_forward_shape_witness :
  exists y,
    EmbeddingChar.forward char_embedding_example (fun _ _ _ => true)
      [[0; 1]]%nat [[[0; 1; 0; 1; 0]; [1; 1; 1; 1; 1]]]%nat = Ok y /\
    shape3 1 2 1 y.
Proof.
  apply (@embedding_char_forward_shape 2 1 2 1 1 1 2 5 (1 / 2) [[1]; [0]] [[1]; [2]]
           char_embedding_example (fun _ _ _ => true)
           [[0; 1]]%nat [[[0; 1; 0; 1; 0]; [1; 1; 1; 1; 1]]]%nat).
  - exact char_embedding_example_wf.
  - lra.
  - unfold shape2, shape1; simpl. repeat split; repeat constructor.
  - lia.
  - lia.
  - unfold shape2, shape1; simpl. repeat split; repeat constructor.
  - lia.
  - lia.
  - unfold shape2, shape1; simpl. repeat split; repeat constructor.
  - repeat constructor.
  - unfold shape3, shape2, shape1; simpl. repeat split; repeat constructor.
  - repeat constructor.
  - lia.
  - lia.
  - lia.
Defined.

Lemma nth_map_map {A B : Type} (f : list A -> list B) (x : list (list (list A))) b i :
  (b < length x)%nat -> (i < length (nth b x []))%nat ->
  nth i (nth b (map (map f) x) []) [] = f (nth i (nth b x []) []).
Proof.
  intros Hb Hi. rewrite (nth_map_lt _ _ []) by exact Hb.
  now rewrite (nth_map_lt _ _ []) by exact Hi.
Qed.

Lemma dropout_eval_accepts (x y x' : ten3) (p : R) (keep keep' : Torch.draw) :
  Torch.dropout x p false keep = Ok y -> Torch.dropout x' p false keep' = Ok x'.
Proof.
  unfold Torch.dropout.
  destruct (Rlt_dec p 0); [discriminate|]. destruct (Rlt_dec 1 p); [discriminate|].
  reflexivity.
Qed.

(** X13.  In eval mode [EmbeddingChar.forward] works word by word: on a
    batch as above, the vector returned at position [i] of example [b] is the
    one the module returns for that word alone, as a batch of one sequence
    of one word.  The two views, (B, L, W) to (B * L, W) before the CNN and
    (B * L, E) to (B, L, E) after it, put the character-level features of
    every word back at the position of the word. *)
Theorem embedding_char_forward_is_wordwise V E Vc C hidden_size B L W (p : R)
    (word_vectors char_vectors : mat) (m : EmbeddingChar.t) keep
    (x_word : list (list nat)) (x_char : list (list (list nat))) (y : ten3) b i :
  EmbeddingChar.wf word_vectors char_vectors hidden_size p m ->
  shape2 V E word_vectors -> (0 < V)%nat -> (0 < E)%nat ->
  shape2 Vc C char_vectors -> (0 < Vc)%nat -> (0 < C)%nat ->
  shape2 B L x_word -> Forall (Forall (fun i => (i < V)%nat)) x_word ->
  shape3 B L W x_char -> Forall (Forall (Forall (fun i => (i < Vc)%nat))) x_char ->
  (5 <= W)%nat ->
  EmbeddingChar.training m = false ->
  EmbeddingChar.forward m keep x_word x_char = Ok y ->
  (b < B)%nat -> (i < L)%nat ->
  EmbeddingChar.forward m keep [[nth i (nth b x_word []) 0%nat]]
                               [[nth i (nth b x_char []) []]]
  = Ok [[nth i (nth b y []) []]].
Proof.
  intros Hm Hwv HV HE Hcv HVc HC Hxw Hiw Hxc Hic HW Hev Ey Hb Hi.
  assert (HB : (0 < B)%nat) by lia. assert (HL : (0 < L)%nat) by lia.
  rewrite (embedding_char_forward_ok Hm Hwv HV HE Hcv HVc HC Hiw Hxc Hic HW HB HL keep),
    Hev in Ey.
  destruct (Torch.dropout _ p false keep) as [e|] eqn:Ed; cbn [bind] in Ey;
    [|discriminate].
  pose proof (dropout_eval_inv _ _ _ Ed) as ->. injection Ey as <-.
  set (w := nth i (nth b x_word []) 0%nat). set (cs := nth i (nth b x_char []) []).
  destruct Hxw as [Bw Fw]. destruct (shape3_nth Hxc Hb Hi) as [Lcb Wcs].
  assert (Lwb : length (nth b x_word []) = L).
  { rewrite Forall_forall in Fw. apply Fw, nth_In. lia. }
  assert (Hw1 : Forall (Forall (fun i => (i < V)%nat)) [[w]]).
  { repeat constructor. rewrite Forall_forall in Hiw.
    assert (Hr : Forall (fun i => (i < V)%nat) (nth b x_word []))
      by (apply Hiw, nth_In; lia).
    rewrite Forall_forall in Hr. apply Hr, nth_In. lia. }
  assert (Hc1 : Forall (Forall (Forall (fun i => (i < Vc)%nat))) [[cs]]).
  { repeat constructor. rewrite Forall_forall in Hic.
    assert (Hr : Forall (Forall (fun i => (i < Vc)%nat)) (nth b x_char []))
      by (apply Hic, nth_In; destruct Hxc; lia).
    rewrite Forall_forall in Hr. apply Hr, nth_In. fold cs in Wcs. lia. }
  assert (Hs1 : shape3 1 1 W [[cs]]).
  { unfold shape3, shape2, shape1. fold cs in Wcs. repeat split; repeat constructor.
    exact Wcs. }
  rewrite (embedding_char_forward_ok Hm Hwv HV HE Hcv HVc HC Hw1 Hs1 Hc1 HW
             Nat.lt_0_1 Nat.lt_0_1 keep), Hev.
  rewrite (@dropout_eval_accepts _ _ (map2 (map2 (word_and_chars m)) [[w]] [[cs]])
             p keep keep Ed).
  cbn [bind]. f_equal.
  rewrite !highway_forward_rows. unfold Torch.linear. simpl.
  assert (Hlen2 : length (map2 (map2 (word_and_chars m)) x_word x_char) = B)
    by (rewrite map2_length; destruct Hxc; lia).
  assert (Hrow2 : nth b (map2 (map2 (word_and_chars m)) x_word x_char) []
                  = map2 (word_and_chars m) (nth b x_word []) (nth b x_char []))
    by (apply map2_nth; destruct Hxc; lia).
  assert (Hlen1 : length (nth b (map2 (map2 (word_and_chars m)) x_word x_char) []) = L)
    by (rewrite Hrow2, map2_length; lia).
  rewrite nth_map_map;
    [| rewrite length_map; lia
     | rewrite (nth_map_lt _ _ []), length_map by lia; lia].
  rewrite nth_map_map by lia.
  rewrite Hrow2, (map2_nth _ _ _ 0%nat []) by lia.
  reflexivity.
Qed.

Lemma embedding_char_forward_is_wordwise_witness :
  exists y,
    EmbeddingChar.forward char_embedding_example (fun _ _ _ => true)
      [[0; 1]]%nat [[[0; 1; 0; 1; 0]; [1; 1; 1; 1; 1]]]%nat = Ok y /\
    EmbeddingChar.forward char_embedding_example (fun _ _ _ => true)
      [[1]]%nat [[[1; 1; 1; 1; 1]]]%nat = Ok [[nth 1 (nth 0 y []) []]].
Proof.
  assert (Hwv : @shape2 R 2 1 [[1]; [0]]) by shape_tac.
  assert (Hcv : @shape2 R 2 1 [[1]; [2]]) by shape_tac.
  assert (Hxw : @shape2 nat 1 2 [[0; 1]]%nat) by shape_tac.
  assert (Hiw : Forall (Forall (fun i => (i < 2)%nat)) [[0; 1]]%nat)
    by (repeat constructor).
  assert (Hxc : @shape3 nat 1 2 5 [[[0; 1; 0; 1; 0]; [1; 1; 1; 1; 1]]]%nat) by shape_tac.
  assert (Hic : Forall (Forall (Forall (fun i => (i < 2)%nat)))
                  [[[0; 1; 0; 1; 0]; [1; 1; 1; 1; 1]]]%nat)
    by (repeat constructor).
  eexists. split.
  - rewrite (embedding_char_forward_ok char_embedding_example_wf Hwv Nat.lt_0_2
               Nat.lt_0_1 Hcv Nat.lt_0_2 Nat.lt_0_1 Hiw Hxc Hic (Nat.le_refl 5)
               Nat.lt_0_1 Nat.lt_0_2).
    simpl EmbeddingChar.training. rewrite dropout_eval by lra. reflexivity.
  - apply (@embedding_char_forward_is_wordwise 2 1 2 1 1 1 2 5 (1 / 2)
             [[1]; [0]] [[1]; [2]] char_embedding_example (fun _ _ _ => true)
             [[0; 1]]%nat [[[0; 1; 0; 1; 0]; [1; 1; 1; 1; 1]]]%nat _ 0 1
             char_embedding_example_wf Hwv Nat.lt_0_2 Nat.lt_0_1 Hcv Nat.lt_0_2
             Nat.lt_0_1 Hxw Hiw Hxc Hic (Nat.le_refl 5) eq_refl);
      [|lia|lia].
    rewrite (embedding_char_forward_ok char_embedding_example_wf Hwv Nat.lt_0_2
               Nat.lt_0_1 Hcv Nat.lt_0_2 Nat.lt_0_1 Hiw Hxc Hic (Nat.le_refl 5)
               Nat.lt_0_1 Nat.lt_0_2).
    simpl EmbeddingChar.training. rewrite dropout_eval by lra. reflexivity.
Defined.

Lemma size1_transpose_le (x : mat) : (Torch.size1 (Torch.transpose x) <= length x)%nat.
Proof.
  unfold Torch.transpose. destruct (Torch.size1 x) as [|n].
  - unfold Torch.size1. simpl. lia.
  - unfold Torch.size1. simpl. rewrite col_length. lia.
Qed.

(** X14.  [EmbeddingChar.forward] rejects character tensors narrower than
    the kernel of its CNN: on a non-empty batch of character indices of shape
    (B, L, W), all in the table, with [W < 5], the call raises a
    RuntimeError, whatever the words, the mode and the dropout rate. *)
Theorem embedding_char_forward_rejects_short_words hidden_size B L W (p : R)
    (word_vectors char_vectors : mat) (m : EmbeddingChar.t) keep
    (x_word : list (list nat)) (x_char : list (list (list nat))) :
  EmbeddingChar.wf word_vectors char_vectors hidden_size p m ->
  shape3 B L W x_char ->
  Forall (Forall (Forall (fun i => (i < length char_vectors)%nat))) x_char ->
  (0 < B)%nat -> (0 < L)%nat -> (W < 5)%nat ->
  EmbeddingChar.forward m keep x_word x_char = Raise RuntimeError.
Proof.
  intros (_ & _ & _ & _ & Hcemb & Hcnn & _) Hxc Hic HB HL HW.
  simpl in Hcnn. destruct Hcnn as (Hk & _).
  unfold EmbeddingChar.forward, Torch.size2. rewrite (shape3_size1 Hxc HB).
  assert (Hs2 : Torch.size1 (hd [] x_char) = W).
  { destruct Hxc as [HlenB Hx]. destruct x_char as [|xb x']; [simpl in HlenB; lia|].
    simpl. exact (shape2_size1 (Forall_inv Hx) HL). }
  rewrite Hs2.
  destruct (Nat.eq_dec W 0) as [->|HW0]; [reflexivity|].
  rewrite (view_rows_ok Hxc) by lia. cbn [bind].
  rewrite Hcemb, embedding2_ok by (apply Forall_concat; exact Hic).
  cbn [bind]. rewrite map_map.
  pose proof (shape3_concat Hxc) as [Hclen Hcrows].
  destruct (concat x_char) as [|cs rest]; [simpl in Hclen; nia|].
  simpl map. rewrite cnn_forward_short; [reflexivity|].
  rewrite Hk. pose proof (size1_transpose_le (map (fun i => nth i char_vectors []) cs)) as Hle.
  rewrite length_map in Hle. pose proof (Forall_inv Hcrows) as Hcs.
  unfold shape1 in Hcs. lia.
Qed.

Lemma embedding_char_forward_rejects_short_words_witness :
  EmbeddingChar.forward char_embedding_example (fun _ _ _ => true)
    [[0; 1]]%nat [[[0; 1; 0; 1]; [1; 1; 1; 1]]]%nat
  = Raise RuntimeError.
Proof.
  apply (@embedding_char_forward_rejects_short_words 1 1 2 4 (1 / 2)
           [[1]; [0]] [[1]; [2]] char_embedding_example (fun _ _ _ => true)
           [[0; 1]]%nat [[[0; 1; 0; 1]; [1; 1; 1; 1]]]%nat
           char_embedding_example_wf).
  - shape_tac.
  - repeat constructor.
  - lia.
  - lia.
  - lia.
Defined.


(** ** Construction of BiDAFOutput *)

Lemma output_forward_bad_rate sort unspecified (m : BiDAFOutput.t) keep
    (att mod_ : ten3) (mask : list (list bool)) :
  RNNEncoder.drop_prob (BiDAFOutput.rnn m) < 0 \/
  1 < RNNEncoder.drop_prob (BiDAFOutput.rnn m) ->
  exists e, BiDAFOutput.forward sort unspecified m keep att mod_ mask = Raise e.
Proof.
  intros Hbad. unfold BiDAFOutput.forward.
  destruct (forward_bad_rate sort (BiDAFOutput.rnn m) keep mod_
              (BiDAFOutput.mask_sum mask) Hbad) as (e & ->).
  now exists e.
Qed.

(** X16.  [BiDAFOutput(hidden_size, drop_prob)] builds its encoder with one
    layer of 'LSTM', so [nn.LSTM] is called with dropout 0 whatever
    [drop_prob] is: construction fails exactly when
    [nn.LSTM(2 * hidden_size, hidden_size, 1, dropout=0)] fails, with the same
    exception.  The rate is stored in the encoder as it is, and a rate below
    0 or above 1 makes every [forward] call of the layer raise. *)
Theorem output_init_checks_no_rate sort unspecified
    nn_LSTM nn_RNN nn_GRU EURNNCell GORUCell nn_Linear hidden_size :
  (forall p e,
     BiDAFOutput.__init__ nn_LSTM nn_RNN nn_GRU EURNNCell GORUCell nn_Linear
       hidden_size p = Raise e <->
     nn_LSTM (2 * hidden_size)%nat hidden_size 1%nat 0 = Raise e) /\
  (forall p m,
     BiDAFOutput.__init__ nn_LSTM nn_RNN nn_GRU EURNNCell GORUCell nn_Linear
       hidden_size p = Ok m ->
     RNNEncoder.drop_prob (BiDAFOutput.rnn m) = p /\
     (p < 0 \/ 1 < p ->
      forall keep (att mod_ : ten3) mask,
        exists e, BiDAFOutput.forward sort unspecified m keep att mod_ mask = Raise e)).
Proof.
  assert (Hinit : forall p,
    BiDAFOutput.__init__ nn_LSTM nn_RNN nn_GRU EURNNCell GORUCell nn_Linear hidden_size p
    = (c <- nn_LSTM (2 * hidden_size)%nat hidden_size 1%nat 0 ;;
       Ok {| BiDAFOutput.att_linear_1 := nn_Linear 0%nat (8 * hidden_size)%nat 1%nat;
             BiDAFOutput.mod_linear_1 := nn_Linear 1%nat (2 * hidden_size)%nat 1%nat;
             BiDAFOutput.rnn :=
               {| RNNEncoder.drop_prob := p; RNNEncoder.training := true;
                  RNNEncoder.rnn := Some c |};
             BiDAFOutput.att_linear_2 := nn_Linear 2%nat (8 * hidden_size)%nat 1%nat;
             BiDAFOutput.mod_linear_2 := nn_Linear 3%nat (2 * hidden_size)%nat 1%nat |})).
  { intros p. unfold BiDAFOutput.__init__, RNNEncoder.__init__.
    cbn -[Nat.mul].
    destruct (nn_LSTM (2 * hidden_size)%nat hidden_size 1%nat 0); reflexivity. }
  split.
  - intros p e. rewrite Hinit.
    destruct (nn_LSTM (2 * hidden_size)%nat hidden_size 1%nat 0) as [cell|e'];
      cbn [bind]; split; intros E; try discriminate E; injection E as ->; reflexivity.
  - intros p m E. rewrite Hinit in E.
    assert (Hp : RNNEncoder.drop_prob (BiDAFOutput.rnn m) = p).
    { destruct (nn_LSTM (2 * hidden_size)%nat hidden_size 1%nat 0) as [cell|e'];
        cbn [bind] in E; [|discriminate E].
      injection E as <-. reflexivity. }
    split; [exact Hp|]. intros Hbad keep att mod_ mask.
    apply output_forward_bad_rate. now rewrite Hp.
Qed.

Lemma output_init_checks_no_rate_witness :
  exists m,
    BiDAFOutput.__init__ checked_ctor checked_ctor checked_ctor failing_ctor failing_ctor
      (fun _ n_in _ => {| Torch.weight := [repeat 1 n_in]; Torch.bias := Some [0] |})
      1 2 = Ok m /\
    RNNEncoder.drop_prob (BiDAFOutput.rnn m) = 2 /\
    exists e,
      BiDAFOutput.forward SortSpec.argsort (fun _ _ => Dyn.Nest []) m (fun _ _ _ => true)
        [[[1; 2; 3; 4; 5; 6; 7; 8]]] [[[1; 2]]] [[true]] = Raise e.
Proof.
  destruct (@output_init_checks_no_rate SortSpec.argsort (fun _ _ => Dyn.Nest [])
              checked_ctor checked_ctor checked_ctor failing_ctor failing_ctor
              (fun _ n_in _ => {| Torch.weight := [repeat 1 n_in]; Torch.bias := Some [0] |})
              1%nat) as [_ H].
  assert (E : exists m,
            BiDAFOutput.__init__ checked_ctor checked_ctor checked_ctor
              failing_ctor failing_ctor
              (fun _ n_in _ => {| Torch.weight := [repeat 1 n_in]; Torch.bias := Some [0] |})
              1 2 = Ok m).
  { unfold BiDAFOutput.__init__, RNNEncoder.__init__, checked_ctor. simpl.
    destruct (Rlt_dec 0 0); [lra|]. destruct (Rlt_dec 1 0); [lra|].
    simpl. eexists. reflexivity. }
  destruct E as (m & E). exists m. split; [exact E|].
  destruct (H 2 m E) as [Hp Hbad]. split; [exact Hp|].
  apply Hbad. right. lra.
Defined.

(** ** CNN, word by word *)

Lemma Forall2_nth_lt {A B : Type} (R : A -> B -> Prop) (l : list A) (y : list B) n da db :
  Forall2 R l y -> (n < length l)%nat -> R (nth n l da) (nth n y db).
Proof.
  intros H. revert n. induction H as [|a b l y Hab _ IH]; intros n Hn; simpl in Hn; [lia|].
  destruct n as [|n]; simpl; [exact Hab|]. apply IH. lia.
Qed.

(** X17.  [CNN.forward] works word by word: whenever it accepts a batch,
    the features it returns for word [n] are the ones it returns for that
    word alone, as a batch of one.  No value flows from one word of the batch
    to another. *)
Theorem cnn_forward_is_wordwise (m : CNN.t) (x : ten3) (y : mat) n :
  CNN.forward m x = Ok y -> (n < length x)%nat ->
  CNN.forward m [nth n x []] = Ok [nth n y []].
Proof.
  unfold CNN.forward, Conv1d.forward. intros E Hn.
  destruct (mapM (Conv1d.forward_sample (CNN.conv1D m)) x) as [X_conv|e] eqn:Ec;
    cbn [bind] in E; [|discriminate].
  pose proof (mapM_inv _ _ Ec) as Fc.
  pose proof (Forall2_nth_lt [] [] Fc Hn) as En. simpl in En.
  unfold CNN.max_dim2, Torch.map_3 in E |- *.
  pose proof (mapM_inv _ _ E) as Fy.
  assert (Hn' : (n < length (map (map (map Torch.relu)) X_conv))%nat).
  { rewrite length_map, <- (Forall2_length Fc). exact Hn. }
  pose proof (Forall2_nth_lt [] [] Fy Hn') as Ey. simpl in Ey.
  rewrite (nth_map_lt _ _ []) in Ey by (rewrite <- (Forall2_length Fc); exact Hn).
  simpl. rewrite En. cbn [bind]. simpl. rewrite Ey. reflexivity.
Qed.

Lemma cnn_forward_is_wordwise_witness :
  exists y : mat,
    CNN.forward cnn_example [[[1; 2; 3; 4; 5; 6]]; [[6; 5; 4; 3; 2; 1]]] = Ok y /\
    CNN.forward cnn_example [[[6; 5; 4; 3; 2; 1]]] = Ok [nth 1 y []].
Proof.
  eexists. split; [reflexivity|].
  apply (@cnn_forward_is_wordwise cnn_example
           [[[1; 2; 3; 4; 5; 6]]; [[6; 5; 4; 3; 2; 1]]] _ 1); [reflexivity | simpl; lia].
Defined.
